(** * opencode_ops_kit: signature matcher and session graph builder

    A shallow embedding of [runbook] and [memory_graph] from
    [scripts/opencode_ops_kit.py], together with the fragment of the
    Python runtime they rely on (text, [str.strip], slicing, insertion
    ordered dictionaries, the UTF-8 decoder with [errors="ignore"], the
    newline translation of text mode, and the backtracking matcher of the
    [re] module for the patterns that occur in the script). *)

From Stdlib Require Import Ascii String.
From Stdlib Require Import List NArith ZArith Bool Lia Arith.
From Stdlib Require Import Strings.Byte.
From Stdlib Require Import Permutation Sorted.
Import ListNotations.

Set Implicit Arguments.

(** ** Python values *)

Module Py.

(** A Python [str] is a sequence of Unicode code points. *)
Definition char := N.
Definition text := list char.

(** ASCII literals of the script. *)
Definition str (s : string) : text :=
  List.map N_of_ascii (list_ascii_of_string s).

Definition NL : char := 10%N.

(** [str.isspace] on one character ([Py_UNICODE_ISSPACE]); the same
    predicate drives [\s] in [re] and [str.strip]. *)
Definition isspace (c : char) : bool :=
  ((9 <=? c) && (c <=? 13) || (28 <=? c) && (c <=? 32)
   || (c =? 133) || (c =? 160) || (c =? 5760)
   || (8192 <=? c) && (c <=? 8202)
   || (c =? 8232) || (c =? 8233) || (c =? 8239) || (c =? 8287)
   || (c =? 12288))%N.

Fixpoint lstrip (s : text) : text :=
  match s with
  | c :: s' => if isspace c then lstrip s' else s
  | [] => []
  end.

Definition rstrip (s : text) : text := rev (lstrip (rev s)).

(** [s.strip()] *)
Definition strip (s : text) : text := rstrip (lstrip s).

(** [l[:n]] for a non-negative literal [n] *)
Definition slice_to {A} (n : nat) (l : list A) : list A := firstn n l.

(** [l[-n:]] for a positive literal [n] *)
Definition slice_last {A} (n : nat) (l : list A) : list A :=
  skipn (length l - n) l.

Fixpoint text_eqb (a b : text) : bool :=
  match a, b with
  | [], [] => true
  | x :: a', y :: b' => (x =? y)%N && text_eqb a' b'
  | _, _ => false
  end.

(** [a <= b] on strings: lexicographic on code points. *)
Fixpoint text_leb (a b : text) : bool :=
  match a, b with
  | [], _ => true
  | _ :: _, [] => false
  | x :: a', y :: b' =>
      if (x <? y)%N then true
      else if (x =? y)%N then text_leb a' b' else false
  end.

(** [s.endswith(suffix)] *)
Definition endswith (s suffix : text) : bool :=
  text_eqb (skipn (length s - length suffix) s) suffix
  && (length suffix <=? length s).

(** [sorted(l, key=key)]: a stable sort, here by insertion. *)
Section Sorted.
Variable A : Type.
Variable key : A -> text.

Fixpoint insert_sorted (x : A) (l : list A) : list A :=
  match l with
  | [] => [x]
  | y :: l' =>
      if text_leb (key x) (key y) then x :: l
      else y :: insert_sorted x l'
  end.

Definition sorted (l : list A) : list A :=
  fold_right insert_sorted [] l.
End Sorted.

(** *** Insertion-ordered dictionaries *)

Section Dict.
Variable V : Type.

Definition dict := list (text * V).

Fixpoint get (k : text) (d : dict) : option V :=
  match d with
  | [] => None
  | (k', v) :: d' => if text_eqb k k' then Some v else get k d'
  end.

Definition contains (k : text) (d : dict) : bool :=
  match get k d with Some _ => true | None => false end.

(** [d.setdefault(k, v)]: insert at the end when [k] is new, else keep
    the stored value. *)
Definition setdefault (k : text) (v : V) (d : dict) : dict :=
  if contains k d then d else d ++ [(k, v)].

Definition keys (d : dict) : list text := List.map fst d.
Definition values (d : dict) : list V := List.map snd d.
End Dict.

(** *** Exceptions *)

Inductive exn := OSError.

Inductive result (A : Type) :=
| Ok (a : A)
| Raise (e : exn).
Arguments Ok {A} a.
Arguments Raise {A} e.

Definition bind {A B} (r : result A) (f : A -> result B) : result B :=
  match r with
  | Ok a => f a
  | Raise e => Raise e
  end.

(** *** [bytes.decode("utf-8", errors="ignore")]

    The decoder checks a sequence byte by byte.  A byte that cannot start
    a sequence is dropped; when a continuation byte is wrong the bytes read
    so far are dropped and decoding resumes at the offending byte; a
    sequence cut by the end of the data is dropped. *)

Definition is_cont (b : N) : bool := ((128 <=? b) && (b <=? 191))%N.
Definition low6 (b : N) : N := (b - 128)%N.

(** second byte of a three byte sequence: no overlong form, no surrogate *)
Definition ok3 (b0 b1 : N) : bool :=
  is_cont b1
  && negb (if (b1 <? 160)%N then (b0 =? 224)%N else (b0 =? 237)%N).

(** second byte of a four byte sequence: no overlong form, at most 10FFFF *)
Definition ok4 (b0 b1 : N) : bool :=
  is_cont b1
  && negb (if (b1 <? 144)%N then (b0 =? 240)%N else (b0 =? 244)%N).

Fixpoint decode_n (bs : list N) : text :=
  match bs with
  | [] => []
  | b0 :: r0 =>
      if (b0 <? 128)%N then b0 :: decode_n r0
      else if (b0 <? 194)%N then decode_n r0
      else if (b0 <? 224)%N then
        match r0 with
        | [] => []
        | b1 :: r1 =>
            if is_cont b1
            then ((b0 - 192) * 64 + low6 b1)%N :: decode_n r1
            else decode_n r0
        end
      else if (b0 <? 240)%N then
        match r0 with
        | [] => []
        | b1 :: r1 =>
            if ok3 b0 b1 then
              match r1 with
              | [] => []
              | b2 :: r2 =>
                  if is_cont b2
                  then ((b0 - 224) * 4096 + low6 b1 * 64 + low6 b2)%N
                         :: decode_n r2
                  else decode_n r1
              end
            else decode_n r0
        end
      else if (b0 <? 245)%N then
        match r0 with
        | [] => []
        | b1 :: r1 =>
            if ok4 b0 b1 then
              match r1 with
              | [] => []
              | b2 :: r2 =>
                  if is_cont b2 then
                    match r2 with
                    | [] => []
                    | b3 :: r3 =>
                        if is_cont b3
                        then ((b0 - 240) * 262144 + low6 b1 * 4096
                              + low6 b2 * 64 + low6 b3)%N :: decode_n r3
                        else decode_n r2
                    end
                  else decode_n r1
              end
            else decode_n r0
        end
      else decode_n r0
  end.

Definition utf8_ignore (bs : list byte) : text :=
  decode_n (List.map Byte.to_N bs).

(** The bytes of an ASCII literal. *)
Definition bytes_of (s : string) : list byte := list_byte_of_string s.

End Py.

(** ** Text mode

    [Path.read_text] opens the file in text mode with universal newlines:
    after decoding, every [\r\n] and every other [\r] of the text becomes
    [\n]. *)

Module TextMode.
Import Py.

Definition CR : char := 13%N.

Fixpoint universal_newlines (s : text) : text :=
  match s with
  | [] => []
  | x :: s' =>
      if (x =? CR)%N then
        NL :: match s' with
              | y :: s'' =>
                  if (y =? NL)%N then universal_newlines s''
                  else universal_newlines s'
              | [] => []
              end
      else x :: universal_newlines s'
  end.

(** The text [p.read_text(encoding="utf-8", errors="ignore")] returns
    for a file with these bytes. *)
Definition read_text_of (content : list byte) : text :=
  universal_newlines (utf8_ignore content).

End TextMode.

(** ** The [re] module, for the patterns of the script

    Patterns are kept as syntax trees.  Every repetition in the script
    ranges over a single character class ([.*], [.+?], [\s+]), and there is
    at most one capturing group, so the matcher carries one optional
    capture.  The matcher is the backtracking one of [re]: alternatives are
    tried left to right, greedy repetitions longest first, lazy ones
    shortest first, and the first success wins. *)

Module Re.
Import Py.

Record flags := { IGNORECASE : bool; DOTALL : bool }.

Inductive cclass :=
| CLit (c : char)   (* a literal character *)
| CAny              (* [.] *)
| CSpace.           (* [\s] *)

Inductive quant := Star | Plus.

Inductive re :=
| Eps
| Chr (cl : cclass)
| Cat (r1 r2 : re)
| Alt (r1 r2 : re)
| Rep (cl : cclass) (q : quant) (greedy : bool)
| Grp (r : re)      (* the capturing group *)
| Eos.              (* [$] *)

(** A literal run of characters. *)
Fixpoint lit_text (s : text) : re :=
  match s with
  | [] => Eps
  | c :: s' => Cat (Chr (CLit c)) (lit_text s')
  end.

Definition lit (s : string) : re := lit_text (str s).

(** The pattern text of a tree, as it is written in the script. *)
Definition show_class (cl : cclass) : text :=
  match cl with
  | CLit c => [c]
  | CAny => str "."
  | CSpace => str "\s"
  end.

Fixpoint show_in (nested : bool) (r : re) : text :=
  match r with
  | Eps => []
  | Chr cl => show_class cl
  | Cat r1 r2 => show_in true r1 ++ show_in true r2
  | Alt r1 r2 =>
      let body := show_in false r1 ++ str "|" ++ show_in false r2 in
      if nested then str "(?:" ++ body ++ str ")" else body
  | Rep cl q greedy =>
      show_class cl
      ++ match q with Star => str "*" | Plus => str "+" end
      ++ (if greedy then [] else str "?")
  | Grp r1 => str "(" ++ show_in false r1 ++ str ")"
  | Eos => str "$"
  end.

Definition show (r : re) : text := show_in false r.

(** Lower case of a character as far as it can reach an ASCII letter:
    the ASCII capitals, U+0130 and U+212A. *)
Definition lower (c : char) : char :=
  (if (65 <=? c) && (c <=? 90) then c + 32
   else if c =? 304 then 105
   else if c =? 8490 then 107
   else c)%N.

(** A literal of the pattern against a character of the text under
    [IGNORECASE]: equal lower cases, or one of the two extra pairs that
    [re] adds for [i] (U+0131) and [s] (U+017F). *)
Definition ci_eq (l x : char) : bool :=
  let lo := lower l in
  let y := lower x in
  ((y =? lo) || (lo =? 105) && (y =? 305) || (lo =? 115) && (y =? 383))%N.

Definition lit_match (fl : flags) (l x : char) : bool :=
  if IGNORECASE fl then ci_eq l x else (x =? l)%N.

(** [xs] spells the literal [p], character by character. *)
Fixpoint lit_equal (fl : flags) (p xs : text) : bool :=
  match p, xs with
  | [], [] => true
  | l :: p', x :: xs' => lit_match fl l x && lit_equal fl p' xs'
  | _, _ => false
  end.

(** [s] starts by spelling the literal [p]. *)
Fixpoint lit_prefix (fl : flags) (p s : text) : bool :=
  match p, s with
  | [], _ => true
  | l :: p', x :: s' => lit_match fl l x && lit_prefix fl p' s'
  | _ :: _, [] => false
  end.

Definition cmatch (fl : flags) (cl : cclass) (x : char) : bool :=
  match cl with
  | CLit l => lit_match fl l x
  | CAny => DOTALL fl || negb (x =? NL)%N
  | CSpace => isspace x
  end.

(** [$] without [MULTILINE]: the end of the text, or just before a newline
    that ends the text. *)
Definition at_end (s : text) : bool :=
  match s with
  | [] => true
  | [x] => (x =? NL)%N
  | _ => false
  end.

Definition qmin (q : quant) : nat :=
  match q with Star => 0 | Plus => 1 end.

Section Engine.
Variable fl : flags.
Variable A : Type.

(** [n] more characters are required before the repetition may stop. *)
Fixpoint rep_greedy (cl : cclass) (n : nat) (s : text)
         (k : text -> option A) : option A :=
  match s with
  | [] => if Nat.eqb n 0 then k [] else None
  | x :: s' =>
      if cmatch fl cl x then
        match rep_greedy cl (pred n) s' k with
        | Some a => Some a
        | None => if Nat.eqb n 0 then k s else None
        end
      else if Nat.eqb n 0 then k s else None
  end.

Fixpoint rep_lazy (cl : cclass) (n : nat) (s : text)
         (k : text -> option A) : option A :=
  match s with
  | [] => if Nat.eqb n 0 then k [] else None
  | x :: s' =>
      match (if Nat.eqb n 0 then k s else None) with
      | Some a => Some a
      | None =>
          if cmatch fl cl x then rep_lazy cl (pred n) s' k else None
      end
  end.

(** [run r s c k]: match [r] at the head of [s] with capture [c], then
    hand the rest of the text and the capture to [k]; [None] asks the
    caller to backtrack. *)
Fixpoint run (r : re) (s : text) (c : option text)
         (k : text -> option text -> option A) : option A :=
  match r with
  | Eps => k s c
  | Chr cl =>
      match s with
      | x :: s' => if cmatch fl cl x then k s' c else None
      | [] => None
      end
  | Cat r1 r2 => run r1 s c (fun s1 c1 => run r2 s1 c1 k)
  | Alt r1 r2 =>
      match run r1 s c k with
      | Some a => Some a
      | None => run r2 s c k
      end
  | Rep cl q true => rep_greedy cl (qmin q) s (fun s1 => k s1 c)
  | Rep cl q false => rep_lazy cl (qmin q) s (fun s1 => k s1 c)
  | Grp r1 =>
      run r1 s c
          (fun s1 _ => k s1 (Some (firstn (length s - length s1) s)))
  | Eos => if at_end s then k s c else None
  end.
End Engine.

(** One attempt at the head of [s]: the rest after the match and the
    capture. *)
Definition attempt (fl : flags) (r : re) (s : text)
  : option (text * option text) :=
  run fl r s None (fun s1 c => Some (s1, c)).

(** [re.search]: the first start position, left to right, with a match. *)
Fixpoint search_from (fl : flags) (r : re) (s : text)
  : option (text * option text) :=
  match attempt fl r s with
  | Some m => Some m
  | None =>
      match s with
      | [] => None
      | _ :: s' => search_from fl r s'
      end
  end.

(** Truth value of [re.search(pattern, text, flags)]. *)
Definition search (fl : flags) (r : re) (s : text) : bool :=
  match search_from fl r s with Some _ => true | None => false end.

Definition group1 (c : option text) : text :=
  match c with Some m => m | None => [] end.

(** [pattern.findall(text)] for a pattern with one group: the captures of
    the successive non-overlapping matches.  [skip] counts the characters
    of the previous match still to step over.  (Patterns that match the
    empty string get extra care in [re]; the script has none.) *)
Fixpoint findall_from (fl : flags) (r : re) (s : text) (skip : nat)
  : list text :=
  match skip, s with
  | S _, [] => []
  | S n, _ :: t => findall_from fl r t n
  | 0, _ =>
      match attempt fl r s with
      | Some (s1, c) =>
          group1 c ::
          match s with
          | [] => []
          | _ :: t => findall_from fl r t (pred (length s - length s1))
          end
      | None =>
          match s with
          | [] => []
          | _ :: t => findall_from fl r t 0
          end
      end
  end.

Definition findall (fl : flags) (r : re) (s : text) : list text :=
  findall_from fl r s 0.

(** *** What a pattern denotes

    [matches fl r s c s1 c1]: [r] can match at the head of [s] leaving
    [s1], turning capture [c] into [c1].  The matcher above picks one such
    match; which one is fixed by its order of attempts. *)
Inductive matches (fl : flags)
  : re -> text -> option text -> text -> option text -> Prop :=
| M_Eps s c : matches fl Eps s c s c
| M_Chr cl x s c :
    cmatch fl cl x = true -> matches fl (Chr cl) (x :: s) c s c
| M_Cat r1 r2 s c s1 c1 s2 c2 :
    matches fl r1 s c s1 c1 -> matches fl r2 s1 c1 s2 c2 ->
    matches fl (Cat r1 r2) s c s2 c2
| M_AltL r1 r2 s c s1 c1 :
    matches fl r1 s c s1 c1 -> matches fl (Alt r1 r2) s c s1 c1
| M_AltR r1 r2 s c s1 c1 :
    matches fl r2 s c s1 c1 -> matches fl (Alt r1 r2) s c s1 c1
| M_Rep cl q g xs s c :
    forallb (cmatch fl cl) xs = true -> qmin q <= length xs ->
    matches fl (Rep cl q g) (xs ++ s) c s c
| M_Grp r xs s c c1 :
    matches fl r (xs ++ s) c s c1 ->
    matches fl (Grp r) (xs ++ s) c s (Some xs)
| M_Eos s c : at_end s = true -> matches fl Eos s c s c.

End Re.

(** ** The script *)

Module OpsKit.
Import Py Re.

(** *** Files

    What [Path.exists], [Path.read_text] and [Path.glob] see: a path leads
    to nothing, to a regular file with its bytes, or to something that
    cannot be read as a file (no permission, a directory): examining or
    opening it raises [OSError]. *)
Inductive fobj :=
| Regular (content : list byte)
| Unreadable.

(** [p.read_text(encoding="utf-8", errors="ignore")] *)
Definition read_text (f : fobj) : result text :=
  match f with
  | Regular content => Ok (TextMode.read_text_of content)
  | Unreadable => Raise OSError
  end.

(** The entries of a directory, by name, in the order the system lists
    them. *)
Definition directory := list (text * fobj).

(** [log_dir.glob("*.log")]; a directory that does not exist yields
    nothing. *)
Definition glob_log (log_dir : option directory) : list (text * fobj) :=
  match log_dir with
  | None => []
  | Some entries => filter (fun p => endswith (fst p) (str ".log")) entries
  end.

(** [name.rfind(".")] *)
Fixpoint rfind_dot (name : text) : option nat :=
  match name with
  | [] => None
  | x :: name' =>
      match rfind_dot name' with
      | Some i => Some (S i)
      | None => if (x =? 46)%N then Some 0 else None
      end
  end.

(** [p.stem] *)
Definition stem (name : text) : text :=
  match rfind_dot name with
  | Some i =>
      if (0 <? i) && (i <? length name - 1) then firstn i name else name
  | None => name
  end.

(** *** [runbook] *)

Definition RUNBOOK_FLAGS := {| IGNORECASE := true; DOTALL := true |}.

Definition rules : list (re * text) :=
  [ (Alt (lit "fallbackModels is empty")
         (lit "No fallback models configured"),
     str "Create project-local rate-limit-fallback.json in .opencode/ and repo root.");
    (lit "Model not found: anthropic/haiku",
     str "Replace with anthropic/claude-haiku-4-5.");
    (Cat (lit "Cannot find package 'react'")
         (Cat (Rep CAny Star true) (lit "zustand")),
     str "Upgrade/remove problematic plugin and retry with clean cache.");
    (Alt (lit "BunInstallFailedError") (lit "EBUSY"),
     str "Close concurrent opencode runs and retry once; lock contention on cache.");
    (Cat (lit "ENOENT: no such file or directory, mkdir")
         (Cat (Rep CAny Star true) (lit "opencode-token-monitor")),
     str "Disable opencode-token-monitor or switch analytics plugin.") ].

(** One turn of the loop over the rules: the hit counter and the lines
    printed so far. *)
Definition scan_step (txt : text) (st : nat * list text) (r : re * text)
  : nat * list text :=
  let '(hits, out) := st in
  let '(pattern, fix_) := r in
  if search RUNBOOK_FLAGS pattern txt
  then (hits + 1,
        out ++ [str "MATCH: " ++ show pattern; str "FIX:   " ++ fix_])
  else (hits, out).

Definition scan (rs : list (re * text)) (txt : text) : nat * list text :=
  fold_left (scan_step txt) rs (0, []).

(** [runbook(log_file)]: the printed lines and the return code. *)
Definition runbook (log_file : text) (f : option fobj)
  : result (list text * Z) :=
  match f with
  | None => Ok ([str "FAIL: missing log file " ++ log_file], 1%Z)
  | Some o =>
      bind (read_text o) (fun txt =>
        let '(hits, out) := scan rules txt in
        Ok (if Nat.eqb hits 0
            then out ++ [str "No known runbook signatures found."]
            else out,
            0%Z))
  end.

(** *** [memory_graph] *)

Inductive node_type := session | error.

(** The dictionaries stored in [nodes] and appended to [edges]. *)
Record node := { id : text; type : node_type; label : option text }.
Record edge := { from : text; to : text; etype : text }.
Record graph := { nodes : list node; edges : list edge }.

Definition ERR_FLAGS := {| IGNORECASE := true; DOTALL := false |}.

(** The end of [err_re]: [\s+(?:code=|fatal|$)] *)
Definition err_tail : re :=
  Cat (Rep CSpace Plus true)
      (Alt (lit "code=") (Alt (lit "fatal") Eos)).

(** [ERROR\s+.*message=(.+?)\s+(?:code=|fatal|$)] *)
Definition err_re : re :=
  Cat (lit "ERROR")
  (Cat (Rep CSpace Plus true)
  (Cat (Rep CAny Star true)
  (Cat (lit "message=")
  (Cat (Grp (Rep CAny Plus false))
       err_tail)))).

Definition WINDOW : nat := 200.
Definition KEY_LEN : nat := 200.

(** [sorted(log_dir.glob("*.log"))[-200:]]; the paths of one directory
    compare by their names, code point by code point (POSIX paths). *)
Definition selected (log_dir : option directory) : list (text * fobj) :=
  slice_last WINDOW (sorted (@fst text fobj) (glob_log log_dir)).

(** [m.strip()[:200]] *)
Definition normalize (m : text) : text := slice_to KEY_LEN (strip m).

Definition err_id (k : text) : text := str "err:" ++ k.

Definition state : Type := dict node * list edge.

Definition session_node (sid : text) : node :=
  {| id := sid; type := session; label := None |}.

Definition error_node (eid k : text) : node :=
  {| id := eid; type := error; label := Some k |}.

Definition has_error (sid eid : text) : edge :=
  {| from := sid; to := eid; etype := str "has_error" |}.

(** The body of the inner loop, for one capture [m]. *)
Definition add_error (sid : text) (st : state) (m : text) : state :=
  let k := normalize m in
  let eid := err_id k in
  (setdefault eid (error_node eid k) (fst st),
   snd st ++ [has_error sid eid]).

(** The body of the outer loop, for one selected path. *)
Definition process_file (st : state) (p : text * fobj) : result state :=
  bind (read_text (snd p)) (fun txt =>
    let sid := stem (fst p) in
    let nodes1 := setdefault sid (session_node sid) (fst st) in
    Ok (fold_left (add_error sid) (findall ERR_FLAGS err_re txt)
                  (nodes1, snd st))).

Fixpoint process_files (st : state) (ps : list (text * fobj))
  : result state :=
  match ps with
  | [] => Ok st
  | p :: ps' => bind (process_file st p) (fun st' => process_files st' ps')
  end.

(** What a finished run leaves: the document written to [out_file], the
    two counts of the [OK: wrote ...] line, and the return code. *)
Record report := {
  written : graph;
  node_count : nat;
  edge_count : nat;
  rc : Z
}.

(** [memory_graph(log_dir, out_file)]; [out_ok] tells whether the parent
    of [out_file] can be created and the file written. *)
Definition memory_graph (log_dir : option directory) (out_ok : bool)
  : result report :=
  bind (process_files ([], []) (selected log_dir)) (fun st =>
    let g := {| nodes := values (fst st); edges := snd st |} in
    if out_ok
    then Ok {| written := g;
               node_count := length (nodes g);
               edge_count := length (edges g);
               rc := 0%Z |}
    else Raise OSError).

End OpsKit.

(** ** The specification's vocabulary *)

Module Spec.
Import Py Re OpsKit.

(** The rules of a list that match a text, in the order of the list. *)
Definition firing (rs : list (re * text)) (txt : text) : list (re * text) :=
  filter (fun r => search RUNBOOK_FLAGS (fst r) txt) rs.

(** The two lines reported for a rule that matched. *)
Definition match_lines (r : re * text) : list text :=
  [str "MATCH: " ++ show (fst r); str "FIX:   " ++ snd r].

(** The lines of a text, cut at newlines. *)
Fixpoint lines (s : text) : list text :=
  match s with
  | [] => [[]]
  | x :: s' =>
      if (x =? NL)%N then [] :: lines s'
      else match lines s' with
           | l :: ls => (x :: l) :: ls
           | [] => [[x]]
           end
  end.

(** A line that begins with the error marker. *)
Definition starts_with_marker (l : text) : bool :=
  lit_prefix ERR_FLAGS (str "ERROR") l.

Definition no_newline (s : text) : bool :=
  forallb (fun x => negb (x =? NL)%N) s.

(** What may end a message, once the white space before it is passed:
    [code=], [fatal], or the end of the text. *)
Definition terminated (tl : text) : bool :=
  lit_prefix ERR_FLAGS (str "code=") tl
  || lit_prefix ERR_FLAGS (str "fatal") tl
  || at_end tl.

(** [s] starts with white space that leads to a terminator. *)
Fixpoint boundary (s : text) : bool :=
  match s with
  | x :: s' => isspace x && (terminated s' || boundary s')
  | [] => false
  end.

(** An error occurrence in [T]: after [pre], the marker, white space,
    anything on one line, [message=], the message [m] on one line, and
    then a boundary at the head of [rest]. *)
Definition occurs_at (T pre m rest : text) : Prop :=
  exists e ws mid msg,
    T = pre ++ e ++ ws ++ mid ++ msg ++ m ++ rest /\
    lit_equal ERR_FLAGS (str "ERROR") e = true /\
    ws <> [] /\ forallb isspace ws = true /\
    no_newline mid = true /\
    lit_equal ERR_FLAGS (str "message=") msg = true /\
    m <> [] /\ no_newline m = true /\
    boundary rest = true.

(** The message stops at the first boundary: no boundary starts inside
    it. *)
Definition shortest (m rest : text) : Prop :=
  forall m1 m2, m = m1 ++ m2 -> m1 <> [] -> m2 <> [] ->
                boundary (m2 ++ rest) = false.

(** Of the occurrences that begin the text [s], the one the pattern
    takes: its message begins last (after the last [message=] of the
    line that has a message and a boundary after it) and stops first. *)
Definition taken (s m rest : text) : Prop :=
  occurs_at s [] m rest
  /\ (forall m' rest', occurs_at s [] m' rest' ->
                       length (m ++ rest) <= length (m' ++ rest'))
  /\ shortest m rest.

(** Where the match of an occurrence ends: after the longest white space
    at the head of [rest] that leads to a terminator, and after that
    terminator; [s1] is the text left. *)
Definition ends (rest s1 : text) : Prop :=
  exists ws term,
    rest = ws ++ term ++ s1
    /\ ws <> [] /\ forallb isspace ws = true
    /\ (lit_equal ERR_FLAGS (str "code=") term = true
        \/ lit_equal ERR_FLAGS (str "fatal") term = true
        \/ (term = [] /\ at_end s1 = true))
    /\ (forall ws' tl, rest = ws' ++ tl -> forallb isspace ws' = true ->
                       terminated tl = true -> length ws' <= length ws).

(** Reading the text from left to right: the first occurrence that
    begins in it gives the first capture, and the reading goes on after
    the end of its match. *)
Inductive extraction : text -> list text -> Prop :=
| ex_none T :
    (forall pre m rest, ~ occurs_at T pre m rest) -> extraction T []
| ex_next pre s m rest s1 ms :
    (forall pre' m' rest',
        occurs_at (pre ++ s) pre' m' rest' -> length pre <= length pre') ->
    taken s m rest -> ends rest s1 -> extraction s1 ms ->
    extraction (pre ++ s) (m :: ms).

(** The pattern from [message=] on, and from the [.*] before it on. *)
Definition from_message : re :=
  Cat (lit "message=") (Cat (Grp (Rep CAny Plus false)) err_tail).

Definition from_line : re := Cat (Rep CAny Star true) from_message.

(** The node an identifier leads to in the written document. *)
Definition node_of (g : graph) (i : text) : option node :=
  find (fun n => text_eqb (id n) i) (nodes g).

Definition is_type (t : node_type) (n : node) : bool :=
  match t, type n with
  | session, session => true
  | error, error => true
  | _, _ => false
  end.

(** The Error nodes of a graph that stand for the message text [k]. *)
Definition error_nodes_for (g : graph) (k : text) : list node :=
  filter (fun n => is_type error n
                   && match label n with
                      | Some l => text_eqb l k
                      | None => false
                      end) (nodes g).

(** An edge runs from a Session node to an Error node. *)
Definition bipartite_edge (g : graph) (e : edge) : bool :=
  match node_of g (from e), node_of g (to e) with
  | Some a, Some b => is_type session a && is_type error b
  | _, _ => false
  end.

(** The captures of a file, in order: those of the text read from it. *)
Definition captures (p : text * fobj) : list text :=
  match snd p with
  | Regular content =>
      findall ERR_FLAGS err_re (TextMode.read_text_of content)
  | Unreadable => []
  end.

(** The edges a file is due: one per capture. *)
Definition edges_of (p : text * fobj) : list edge :=
  List.map (fun m => has_error (stem (fst p)) (err_id (normalize m)))
           (captures p).

(** No file among [ps] is named like the identity of an Error node. *)
Definition no_collision (ps : list (text * fobj)) : Prop :=
  forall p k, In p ps -> stem (fst p) <> err_id k.

End Spec.

(** ** UTF-8

    The encoding as the Unicode standard has it, to say what the tolerant
    decoder keeps of a file. *)

Module Utf8.
Import Py OpsKit.

(** A Unicode scalar value: a code point up to 10FFFF that is no
    surrogate. *)
Definition scalar (c : char) : bool :=
  ((c <? 55296) || (57343 <? c) && (c <=? 1114111))%N.

(** The UTF-8 form of a scalar value. *)
Definition encode (c : char) : list N :=
  (if c <? 128 then [c]
   else if c <? 2048 then [192 + c / 64; 128 + c mod 64]
   else if c <? 65536 then
     [224 + c / 4096; 128 + (c / 64) mod 64; 128 + c mod 64]
   else [240 + c / 262144; 128 + (c / 4096) mod 64;
         128 + (c / 64) mod 64; 128 + c mod 64])%N.

(** [s] is [l] with some elements left out. *)
Inductive subsequence {A : Type} : list A -> list A -> Prop :=
| sub_nil : subsequence [] []
| sub_keep x s l : subsequence s l -> subsequence (x :: s) (x :: l)
| sub_drop x s l : subsequence s l -> subsequence s (x :: l).

(** A byte that can begin a sequence: any byte but a continuation
    byte. *)
Definition starts_sequence (bs : list N) : bool :=
  match bs with
  | [] => false
  | b :: _ => negb (is_cont b)
  end.

(** The byte with a given value. *)
Definition to_byte (n : N) : byte :=
  match Byte.of_N n with Some b => b | None => x00 end.

(** What is left of a file once the bytes the decoder drops are taken
    out: the UTF-8 form of the text decoded from it. *)
Definition decodable_part (content : list byte) : list byte :=
  List.map to_byte (flat_map encode (utf8_ignore content)).

Definition without_undecodable (o : fobj) : fobj :=
  match o with
  | Regular content => Regular (decodable_part content)
  | Unreadable => Unreadable
  end.

(** A directory in which every file is cut down to its decodable part. *)
Definition cleaned (log_dir : option directory) : option directory :=
  option_map (List.map (fun p => (fst p, without_undecodable (snd p))))
             log_dir.

End Utf8.

(** ** Sample inputs *)

Module Demo.
Import Py Re OpsKit.

Definition newline : string := String (ascii_of_nat 10) EmptyString.

(** Two sessions that met the same error, and a file that is no log. *)
Definition two_sessions : option directory :=
  Some [ (str "b.log",
          Regular (bytes_of "ERROR 12:00 service=fs message=disk full fatal"));
         (str "a.log",
          Regular (bytes_of "ERROR  message=disk full code=E1"));
         (str "notes.txt", Unreadable) ].

Definition two_sessions_report : report :=
  Eval vm_compute in
    match memory_graph two_sessions true with
    | Ok rep => rep
    | Raise _ => {| written := {| nodes := []; edges := [] |};
                    node_count := 0; edge_count := 0; rc := 1%Z |}
    end.

(** A log whose base name starts like the identity of an Error node. *)
Definition colliding : option directory :=
  Some [ (str "err:x.log",
          Regular (bytes_of "ERROR  message=x code=1")) ].

(** The same, with a second occurrence on a second line. *)
Definition colliding_twice : option directory :=
  Some [ (str "err:x.log",
          Regular (bytes_of ("ERROR  message=x code=1" ++ newline
                             ++ "ERROR  message=x code=2"))) ].

(** A log whose lines end in a carriage return. *)
Definition carriage_return : string := String (ascii_of_nat 13) EmptyString.

Definition old_mac_log : option directory :=
  Some [ (str "a.log",
          Regular (bytes_of ("ERROR message=x code=1" ++ carriage_return
                             ++ "ERROR message=y code=2" ++ carriage_return))) ].

(** A directory where one log cannot be read. *)
Definition one_unreadable : option directory :=
  Some [ (str "a.log", Unreadable);
         (str "b.log", Regular (bytes_of "ERROR  message=x code=1")) ].

(** [n] logs named [s000.log], [s001.log], ... listed latest first. *)
Definition digit (d : nat) : char := N.of_nat (48 + d).

Definition numbered (i : nat) : text :=
  str "s" ++ [digit (i / 100); digit ((i / 10) mod 10); digit (i mod 10)]
  ++ str ".log".

Definition many_logs (n : nat) : option directory :=
  Some (List.map (fun i => (numbered i, Regular [])) (rev (seq 0 n))).

(** The marker in the middle of a line. *)
Definition marker_inside : text := str "xx ERROR  message=a code=1".

(** One line that begins with the marker and holds two messages. *)
Definition two_messages : text :=
  str "ERROR a message=x code=1 message=y code=2".

(** A message of 201 characters, two of them leading blanks. *)
Definition padded_message : text := str "  " ++ repeat 120%N 199.

Definition padded_log : text :=
  str "ERROR  message=" ++ padded_message ++ str " code=1".

(** The haiku signature, whole and cut by a newline. *)
Definition haiku_rule : re * text :=
  (lit "Model not found: anthropic/haiku",
   str "Replace with anthropic/claude-haiku-4-5.").

Definition haiku_newline_for_blank : text :=
  str "Model not found:" ++ [NL] ++ str "anthropic/haiku".

Definition haiku_newline_inserted : text :=
  str "Model not found: " ++ [NL] ++ str "anthropic/haiku".

Definition haiku_on_second_line : text :=
  str "12:00 INFO start" ++ [NL]
  ++ str "12:01 ERROR model NOT found: Anthropic/Haiku" ++ [NL].

End Demo.

(** ** The configuration checks and the proof check

    [fallback_doctor], [plugin_health] and [proofcheck] of the script.
    What [json.load] returns is a value of [json]; what the checks print
    is kept as structured lines, the formatting of paths, lists and
    numbers being Python's. *)

Module Json.
Import Py.

(** A Python [float]: not-a-number, an infinity, or [m * 2 ^ e]. *)
Inductive pyfloat :=
| FNan
| FInf (negative : bool)
| FFin (m e : Z).

(** The values [json.load] builds. *)
#[warnings="-register-all"]
Inductive json :=
| JNull
| JBool (b : bool)
| JInt (z : Z)
| JFloat (f : pyfloat)
| JStr (s : text)
| JArr (items : list json)
| JObj (members : list (text * json)).

(** The exceptions met here: [OSError], [ValueError] (a file that is not
    UTF-8 or not JSON), [AttributeError], [TypeError], [RuntimeError] (no
    home directory, a JSON text nested too deep). *)
Inductive exc :=
| ExOSError | ExValueError | ExAttributeError | ExTypeError | ExRuntimeError.

Inductive computation (A : Type) :=
| Return (a : A)
| Raises (e : exc).
Arguments Return {A} a.
Arguments Raises {A} e.

Definition and_then {A B} (r : computation A) (f : A -> computation B) : computation B :=
  match r with
  | Return a => f a
  | Raises e => Raises e
  end.

(** The finite numbers, [bool] included, as [m * 2 ^ e]. *)
Definition number (v : json) : option (Z * Z) :=
  match v with
  | JBool b => Some (if b then 1%Z else 0%Z, 0%Z)
  | JInt z => Some (z, 0%Z)
  | JFloat (FFin m e) => Some (m, e)
  | _ => None
  end.

Definition dyadic_eqb (a b : Z * Z) : bool :=
  let '(m1, e1) := a in
  let '(m2, e2) := b in
  if (e1 <=? e2)%Z then (m1 =? m2 * 2 ^ (e2 - e1))%Z
  else (m1 * 2 ^ (e1 - e2) =? m2)%Z.

(** [x is y or x == y] on values that can be hashed, as a [set] tests
    membership ([json] has one NaN object). *)
Definition py_eq (x y : json) : bool :=
  match number x, number y with
  | Some a, Some b => dyadic_eqb a b
  | _, _ =>
      match x, y with
      | JNull, JNull => true
      | JFloat FNan, JFloat FNan => true
      | JFloat (FInf a), JFloat (FInf b) => Bool.eqb a b
      | JStr a, JStr b => text_eqb a b
      | _, _ => false
      end
  end.

Definition hashable (v : json) : bool :=
  match v with
  | JArr _ | JObj _ => false
  | _ => true
  end.

(** [bool(v)] *)
Definition truthy (v : json) : bool :=
  match v with
  | JNull => false
  | JBool b => b
  | JInt z => negb (z =? 0)%Z
  | JFloat (FFin m _) => negb (m =? 0)%Z
  | JFloat _ => true
  | JStr s => match s with [] => false | _ => true end
  | JArr l => match l with [] => false | _ => true end
  | JObj d => match d with [] => false | _ => true end
  end.

(** [data.get(key, default)]; only a [dict] has [get]. *)
Definition dict_get (data : json) (key : text) (default : json) : computation json :=
  match data with
  | JObj d =>
      Return (match Py.get key d with Some v => v | None => default end)
  | _ => Raises ExAttributeError
  end.

(** [s.startswith(prefix)] *)
Fixpoint startswith (s prefix : text) : bool :=
  match prefix, s with
  | [], _ => true
  | c :: prefix', x :: s' => (x =? c)%N && startswith s' prefix'
  | _ :: _, [] => false
  end.

End Json.

Module Config.
Import Py Json.

(** A path, by its components; [p / name] adds one. *)
Definition path := list text.

(** What a path leads to for [exists] and [load_json]: nothing; a place
    that cannot be examined ([stat] fails with an error other than "no
    such file": no permission on a directory above, a name too long); a
    file that cannot be loaded; or a file with its JSON value. *)
Inductive fstate :=
| Absent
| Unreachable
| Fails (e : exc)
| Holds (v : json).

Record env := {
  home : option path;                (* [Path.home()], when there is one *)
  XDG_CONFIG_HOME : option path;     (* the variable, when set *)
  fs : path -> fstate
}.

(** [p.exists()]: false when there is no such file; the other errors of
    [stat] are raised. *)
Definition exists_ (e : env) (p : path) : computation bool :=
  match fs e p with
  | Absent => Return false
  | Unreachable => Raises ExOSError
  | Fails _ | Holds _ => Return true
  end.

Definition load_json (e : env) (p : path) : computation json :=
  match fs e p with
  | Holds v => Return v
  | Fails x => Raises x
  | Absent | Unreachable => Raises ExOSError
  end.

Definition FALLBACK : text := str "rate-limit-fallback.json".

(** [Path.home()] raises [RuntimeError] when no home directory can be
    found. *)
Definition find_fallback_candidates (e : env) (cwd : path)
  : computation (list path) :=
  match home e with
  | None => Raises ExRuntimeError
  | Some h =>
      let xdg :=
        match XDG_CONFIG_HOME e with
        | Some p => p
        | None => h ++ [str ".config"]
        end in
      Return [ cwd ++ [str ".opencode"; FALLBACK];
               cwd ++ [FALLBACK];
               h ++ [str ".opencode"; FALLBACK];
               xdg ++ [str "opencode"; FALLBACK] ]
  end.

(** [[p for p in candidates if p.exists()]]: every candidate is tested,
    in order. *)
Fixpoint existing (e : env) (ps : list path) : computation (list path) :=
  match ps with
  | [] => Return []
  | p :: ps' =>
      and_then (exists_ e p) (fun b =>
      and_then (existing e ps') (fun l =>
        Return (if b then p :: l else l)))
  end.

(** The lines [fallback_doctor] prints. *)
Inductive doctor_line :=
| NoConfig                                   (* FAIL: no fallback config found *)
| Candidate (p : path)                       (*   - p *)
| EmptyModels (p : path)                     (* FAIL: fallbackModels empty in p *)
| InvalidEntries (bad : list nat) (p : path) (* FAIL: invalid fallback entries ... *)
| OkConfig (p : path)                        (* OK: fallback config p *)
| OkCount (n : nat).                         (* OK: fallbackModels count = n *)

(** [m.get(key)] *)
Definition member (key : text) (d : list (text * json)) : json :=
  match Py.get key d with Some v => v | None => JNull end.

(** [not isinstance(m, dict) or not m.get("providerID") or not
    m.get("modelID")] *)
Definition bad_entry (m : json) : bool :=
  match m with
  | JObj d =>
      negb (truthy (member (str "providerID") d))
      || negb (truthy (member (str "modelID") d))
  | _ => true
  end.

(** The indexes of the bad entries, counting from [i]. *)
Fixpoint bad_indexes (i : nat) (models : list json) : list nat :=
  match models with
  | [] => []
  | m :: ms =>
      if bad_entry m then i :: bad_indexes (S i) ms
      else bad_indexes (S i) ms
  end.

Definition fallback_doctor (e : env) (cwd : path)
  : computation (list doctor_line * Z) :=
  and_then (find_fallback_candidates e cwd) (fun candidates =>
  and_then (existing e candidates) (fun found =>
  match found with
  | [] => Return (NoConfig :: List.map Candidate candidates, 1%Z)
  | selected :: _ =>
      and_then (load_json e selected) (fun data =>
      and_then (dict_get data (str "fallbackModels") (JArr [])) (fun models =>
        match models with
        | JArr (m :: ms) =>
            match bad_indexes 0 (m :: ms) with
            | [] => Return ([OkConfig selected; OkCount (length (m :: ms))],
                            0%Z)
            | bad => Return ([InvalidEntries bad selected], 1%Z)
            end
        | _ => Return ([EmptyModels selected], 1%Z)
        end))
  end)).

(** The lines [plugin_health] prints. *)
Inductive plugin_line :=
| MissingFile (p : path)          (* FAIL: missing p *)
| NotAList                        (* FAIL: plugin field is not a list *)
| Duplicates (dup : list json)    (* FAIL: duplicate plugins: dup *)
| WarnTokenMonitor                (* WARN: opencode-token-monitor has ... *)
| Item (p : text)                 (*   - p *)
| OkPlugins (n : nat).            (* OK: plugin list valid (n entries) *)

(** The loop over [plugins]; [seen] is the set, [dup] the list. *)
Fixpoint dup_loop (plugins seen dup : list json) : computation (list json) :=
  match plugins with
  | [] => Return dup
  | p :: ps =>
      if hashable p
      then dup_loop ps (p :: seen)
                    (if existsb (py_eq p) seen then dup ++ [p] else dup)
      else Raises ExTypeError
  end.

Definition TOKEN_MONITOR : text := str "opencode-token-monitor@".

(** [[p for p in plugins if p.startswith("opencode-token-monitor@")]] *)
Fixpoint known_bad (plugins : list json) : computation (list text) :=
  match plugins with
  | [] => Return []
  | JStr s :: ps =>
      if startswith s TOKEN_MONITOR
      then and_then (known_bad ps) (fun l => Return (s :: l))
      else known_bad ps
  | _ :: _ => Raises ExAttributeError
  end.

Definition plugin_health (e : env) (opencode_json : path)
  : computation (list plugin_line * Z) :=
  and_then (exists_ e opencode_json) (fun present =>
  if negb present
  then Return ([MissingFile opencode_json], 1%Z)
  else
    and_then (load_json e opencode_json) (fun data =>
    and_then (dict_get data (str "plugin") (JArr [])) (fun plugins =>
      match plugins with
      | JArr ps =>
          and_then (dup_loop ps [] []) (fun dup =>
            match dup with
            | _ :: _ => Return ([Duplicates dup], 1%Z)
            | [] =>
                and_then (known_bad ps) (fun bad =>
                  Return ((match bad with
                           | [] => []
                           | _ :: _ => WarnTokenMonitor :: List.map Item bad
                           end) ++ [OkPlugins (length ps)], 0%Z))
            end)
      | _ => Return ([NotAList], 1%Z)
      end))).

End Config.

Module ProofCheck.
Import Py.

(** What [subprocess.run] gives for a command: a completed process, or an
    exception (the command is missing, it timed out). *)
Inductive spawned :=
| Completed (returncode : Z) (stdout : option text)
| Threw (message : text).

(** The lines [proofcheck] prints. *)
Inductive proof_line :=
| ExitLine (name : text) (returncode : Z)    (* [name] exit=returncode *)
| ChangedFiles (name : text) (n : nat)       (* [name] changed_files=n *)
| ErrorLine (name : text) (message : text).  (* [name] error=e *)

Definition is_linebreak (c : char) : bool :=
  ((10 <=? c) && (c <=? 13) || (28 <=? c) && (c <=? 30)
   || (c =? 133) || (c =? 8232) || (c =? 8233))%N.

(** [s.splitlines()] *)
Fixpoint splitlines (s : text) : list text :=
  match s with
  | [] => []
  | x :: s' =>
      if is_linebreak x then
        [] :: match s' with
              | y :: s'' =>
                  if (x =? 13)%N && (y =? 10)%N then splitlines s''
                  else splitlines s'
              | [] => []
              end
      else
        match splitlines s' with
        | [] => [[x]]
        | l :: ls => (x :: l) :: ls
        end
  end.

(** [[l for l in (proc.stdout or "").splitlines() if l.strip()]] *)
Definition changed_lines (stdout : option text) : list text :=
  filter (fun l => match strip l with [] => false | _ => true end)
         (splitlines (match stdout with Some s => s | None => [] end)).

Definition checks : list (list text * text) :=
  [ ([str "git"; str "status"; str "--short"], str "git_status");
    ([str "python"; str "-m"; str "pytest"; str "-q"], str "tests") ].

(** One turn of the loop over the checks. *)
Definition check_step (run_cmd : list text -> spawned)
           (st : Z * list proof_line) (c : list text * text)
  : Z * list proof_line :=
  let '(rc, out) := st in
  let '(cmd, name) := c in
  match run_cmd cmd with
  | Completed returncode stdout =>
      let out1 := out ++ [ExitLine name returncode] in
      let out2 :=
        if text_eqb name (str "git_status") && (returncode =? 0)%Z
        then out1 ++ [ChangedFiles name (length (changed_lines stdout))]
        else out1 in
      (if text_eqb name (str "tests") && negb (returncode =? 0)%Z
       then 1%Z else rc, out2)
  | Threw message =>
      (if text_eqb name (str "tests") then 1%Z else rc,
       out ++ [ErrorLine name message])
  end.

Definition run_checks (run_cmd : list text -> spawned)
           (cs : list (list text * text)) : Z * list proof_line :=
  fold_left (check_step run_cmd) cs (0%Z, []).

(** [proofcheck(cwd)], [run_cmd] being what the commands do in [cwd]:
    the return code and the printed lines. *)
Definition proofcheck (run_cmd : list text -> spawned)
  : Z * list proof_line :=
  run_checks run_cmd checks.

End ProofCheck.

(** ** Sample configurations *)

Module Samples.
Import Py Json Config ProofCheck.

Fixpoint path_eqb (p q : path) : bool :=
  match p, q with
  | [], [] => true
  | a :: p', b :: q' => text_eqb a b && path_eqb p' q'
  | _, _ => false
  end.

Definition project : path := [str "work"; str "proj"].
Definition user_home : path := [str "home"; str "u"].

Definition local_config : path :=
  project ++ [str ".opencode"; FALLBACK].
Definition home_config : path :=
  user_home ++ [str ".opencode"; FALLBACK].

Definition haiku_entry : json :=
  JObj [ (str "providerID", JStr (str "anthropic"));
         (str "modelID", JStr (str "claude-haiku-4-5")) ].

Definition good_config : json :=
  JObj [ (str "fallbackModels", JArr [haiku_entry]) ].

(** Entries 1 and 3 are bad: a model without provider, and a string. *)
Definition mixed_config : json :=
  JObj [ (str "fallbackModels",
          JArr [ haiku_entry;
                 JObj [ (str "providerID", JStr []);
                        (str "modelID", JStr (str "m")) ];
                 haiku_entry;
                 JStr (str "anthropic/claude-haiku-4-5") ]) ].

(** Only the configuration in the home directory exists. *)
Definition home_only : env :=
  {| home := Some user_home; XDG_CONFIG_HOME := None;
     fs := fun p => if path_eqb p home_config then Holds good_config
                    else Absent |}.

(** A project file that is no JSON hides the good one of the home. *)
Definition broken_local : env :=
  {| home := Some user_home; XDG_CONFIG_HOME := None;
     fs := fun p => if path_eqb p local_config then Fails ExValueError
                    else if path_eqb p home_config then Holds good_config
                    else Absent |}.

(** The project file is in order, and the home directory cannot be
    searched. *)
Definition locked_home : env :=
  {| home := Some user_home; XDG_CONFIG_HOME := None;
     fs := fun p => if path_eqb p local_config then Holds good_config
                    else if path_eqb p home_config then Unreachable
                    else Absent |}.

Definition mixed_local : env :=
  {| home := Some user_home; XDG_CONFIG_HOME := None;
     fs := fun p => if path_eqb p local_config then Holds mixed_config
                    else Absent |}.

Definition opencode_json : path :=
  user_home ++ [str ".config"; str "opencode"; str "opencode.json"].

Definition with_plugins (plugins : json) : env :=
  {| home := Some user_home; XDG_CONFIG_HOME := None;
     fs := fun p => if path_eqb p opencode_json
                    then Holds (JObj [(str "plugin", plugins)])
                    else Absent |}.

Definition GIT : list text := [str "git"; str "status"; str "--short"].
Definition PYTEST : list text :=
  [str "python"; str "-m"; str "pytest"; str "-q"].

(** No git at hand, and the tests pass. *)
Definition no_git_tests_pass (cmd : list text) : spawned :=
  if path_eqb cmd PYTEST then Completed 0%Z (Some (str "3 passed"))
  else Threw (str "No such file or directory: git").

End Samples.

(** ** Further vocabulary *)

Module Notions.
Import Py Re OpsKit Json.

(** Two texts that differ in the case of their letters only. *)
Fixpoint same_up_to_case (a b : text) : bool :=
  match a, b with
  | [], [] => true
  | x :: a', y :: b' => (lower x =? lower y)%N && same_up_to_case a' b'
  | _, _ => false
  end.

(** A pattern without [$]. *)
Fixpoint eos_free (r : re) : bool :=
  match r with
  | Eos => false
  | Cat r1 r2 | Alt r1 r2 => eos_free r1 && eos_free r2
  | Grp r1 => eos_free r1
  | Eps | Chr _ | Rep _ _ _ => true
  end.

(** Code points that UTF-8 can carry beyond ASCII. *)
Definition beyond_ascii (c : char) : bool :=
  ((128 <=? c) && (c <=? 1114111) && negb ((55296 <=? c) && (c <=? 57343)))%N.

Definition is_ascii (c : N) : bool := (c <? 128)%N.

(** Letters and the two characters that lower to a letter. *)
Definition cased (c : char) : bool :=
  ((65 <=? c) && (c <=? 90) || (97 <=? c) && (c <=? 122)
   || (c =? 304) || (c =? 8490))%N.

Definition is_some {A} (o : option A) : bool :=
  match o with Some _ => true | None => false end.

(** The entries of [names] that repeat an earlier entry or one of
    [seen], in order. *)
Fixpoint repeats (names seen : list text) : list text :=
  match names with
  | [] => []
  | n :: ns =>
      if existsb (text_eqb n) seen then n :: repeats ns (n :: seen)
      else repeats ns (n :: seen)
  end.

(** Something is found at a path. *)
Definition present (e : Config.env) (p : Config.path) : bool :=
  match Config.fs e p with
  | Config.Absent => false
  | _ => true
  end.

(** Every path of a list can be examined. *)
Definition examinable (e : Config.env) (ps : list Config.path) : Prop :=
  forall p, In p ps -> Config.fs e p <> Config.Unreachable.

(** [isinstance(v, str)] *)
Definition is_str (v : json) : bool :=
  match v with JStr _ => true | _ => false end.

(** The lines [plugin_health] prints for the plugins [bad] it warns
    about. *)
Definition warning (bad : list text) : list Config.plugin_line :=
  match bad with
  | [] => []
  | _ :: _ => Config.WarnTokenMonitor :: List.map Config.Item bad
  end.

(** A check named [tests] whose command exits with a non-zero code or
    cannot be run. *)
Definition tests_fail (run_cmd : list text -> ProofCheck.spawned)
           (c : list text * text) : bool :=
  text_eqb (snd c) (str "tests")
  && match run_cmd (fst c) with
     | ProofCheck.Completed returncode _ => negb (returncode =? 0)%Z
     | ProofCheck.Threw _ => true
     end.

(** ASCII characters other than the two line ends. *)
Definition plain_ascii (c : N) : bool :=
  (c <? 128)%N && negb (c =? 10)%N && negb (c =? 13)%N.

End Notions.

(** * Properties *)

(** Boolean tests on numbers, as propositions. *)
Ltac to_props :=
  repeat rewrite ?orb_true_iff, ?andb_true_iff, ?orb_false_iff,
                 ?andb_false_iff, ?negb_true_iff, ?negb_false_iff,
                 ?N.leb_le, ?N.ltb_lt, ?N.eqb_eq, ?N.leb_gt, ?N.ltb_ge,
                 ?N.eqb_neq in *.

(** ** Facts about the Python layer *)

Module PyFacts.
Import Py.

Lemma text_eqb_eq (a b : text) : text_eqb a b = true <-> a = b.
Proof.
  revert b; induction a as [|x a IH]; intros [|y b]; simpl;
    try (split; [discriminate | intros H; discriminate H]);
    try (split; reflexivity).
  rewrite andb_true_iff, N.eqb_eq, IH.
  split; [intros [-> ->]; reflexivity | intros H; inversion H; auto].
Qed.

Lemma text_eqb_refl (a : text) : text_eqb a a = true.
Proof. apply text_eqb_eq; reflexivity. Qed.

Lemma text_leb_total (a b : text) :
  text_leb a b = false -> text_leb b a = true.
Proof.
  revert b; induction a as [|x a IH]; intros [|y b]; simpl; auto;
    try discriminate.
  destruct (N.ltb_spec x y) as [Hlt0|Hge]; [discriminate|].
  destruct (N.eqb_spec x y) as [->|Hne].
  - intros Hab. rewrite N.ltb_irrefl, N.eqb_refl. auto.
  - intros _. assert (Hlt : (y < x)%N) by lia.
    apply N.ltb_lt in Hlt. rewrite Hlt. reflexivity.
Qed.

Lemma text_leb_trans (a b c : text) :
  text_leb a b = true -> text_leb b c = true -> text_leb a c = true.
Proof.
  revert b c; induction a as [|x a IH]; intros [|y b] [|z c]; simpl; auto;
    try discriminate.
  destruct (N.ltb_spec x y) as [Hxy|Hxy].
  - intros _. destruct (N.ltb_spec y z) as [Hyz|Hyz].
    + intros _. assert (H : (x < z)%N) by lia.
      apply N.ltb_lt in H; rewrite H; reflexivity.
    + destruct (N.eqb_spec y z) as [->|]; [|discriminate].
      intros _. apply N.ltb_lt in Hxy; rewrite Hxy; reflexivity.
  - destruct (N.eqb_spec x y) as [->|]; [|discriminate].
    intros Hab. destruct (N.ltb_spec y z); [reflexivity|].
    destruct (N.eqb_spec y z); [|discriminate].
    intros Hbc. eapply IH; eassumption.
Qed.

Section SortedFacts.
Variable A : Type.
Variable key : A -> text.

Definition key_le (x y : A) : Prop := text_leb (key x) (key y) = true.

Lemma insert_sorted_perm (x : A) (l : list A) :
  Permutation (insert_sorted key x l) (x :: l).
Proof.
  induction l as [|y l IH]; simpl; [reflexivity|].
  destruct (text_leb (key x) (key y)); [reflexivity|].
  rewrite IH. apply perm_swap.
Qed.

Lemma sorted_perm (l : list A) : Permutation (sorted key l) l.
Proof.
  induction l as [|x l IH]; [reflexivity|].
  change (sorted key (x :: l)) with (insert_sorted key x (sorted key l)).
  rewrite insert_sorted_perm, IH. reflexivity.
Qed.

Lemma insert_sorted_keeps (x : A) (l : list A) :
  StronglySorted key_le l -> StronglySorted key_le (insert_sorted key x l).
Proof.
  induction 1 as [|y l Hl IH Hy]; simpl.
  - constructor; constructor.
  - destruct (text_leb (key x) (key y)) eqn:E.
    + constructor; [constructor; assumption|].
      constructor; [exact E|].
      eapply Forall_impl; [|exact Hy].
      intros z Hz. unfold key_le in *. eapply text_leb_trans; eassumption.
    + constructor; [assumption|].
      apply (Permutation_Forall (Permutation_sym (insert_sorted_perm x l))).
      constructor; [|assumption].
      apply text_leb_total; exact E.
Qed.

Lemma sorted_sorted (l : list A) : StronglySorted key_le (sorted key l).
Proof.
  induction l as [|x l IH]; [constructor|].
  change (sorted key (x :: l)) with (insert_sorted key x (sorted key l)).
  apply insert_sorted_keeps; exact IH.
Qed.

(** Sorting a list that is in order changes nothing. *)
Lemma sorted_id (l : list A) : StronglySorted key_le l -> sorted key l = l.
Proof.
  induction 1 as [|x l Hl IH Hx]; [reflexivity|].
  change (sorted key (x :: l)) with (insert_sorted key x (sorted key l)).
  rewrite IH.
  destruct l as [|y l']; simpl; [reflexivity|].
  inversion Hx as [|? ? Hxy _]; subst. unfold key_le in Hxy.
  rewrite Hxy. reflexivity.
Qed.

Lemma StronglySorted_skipn (n : nat) (l : list A) :
  StronglySorted key_le l -> StronglySorted key_le (skipn n l).
Proof.
  revert l; induction n as [|n IH]; intros l Hl; simpl; [assumption|].
  destruct l; [constructor|]. inversion Hl; subst. apply IH; assumption.
Qed.

(** In a sorted list whatever comes earlier is below whatever comes
    later. *)
Lemma StronglySorted_app_le (l1 l2 : list A) :
  StronglySorted key_le (l1 ++ l2) ->
  forall x y, In x l1 -> In y l2 -> key_le x y.
Proof.
  induction l1 as [|a l1 IH]; simpl; intros Hs x y Hx Hy; [contradiction|].
  inversion Hs as [|? ? Hs' Ha]; subst.
  destruct Hx as [<-|Hx].
  - rewrite Forall_forall in Ha. apply Ha. apply in_or_app; auto.
  - eapply IH; eassumption.
Qed.
End SortedFacts.

Lemma slice_last_split {A} (n : nat) (l : list A) :
  l = firstn (length l - n) l ++ slice_last n l.
Proof. unfold slice_last. symmetry. apply firstn_skipn. Qed.

Lemma slice_last_length {A} (n : nat) (l : list A) :
  length (slice_last n l) = Nat.min n (length l).
Proof. unfold slice_last. rewrite length_skipn. lia. Qed.

Lemma slice_last_all {A} (n : nat) (l : list A) :
  length l <= n -> slice_last n l = l.
Proof.
  intros H. unfold slice_last.
  replace (length l - n) with 0 by lia. reflexivity.
Qed.

(** *** Dictionaries *)

Section DictFacts.
Variable V : Type.
Implicit Types (d : dict V) (k : text) (v : V).

Lemma get_Some_In k d v : get k d = Some v -> In (k, v) d.
Proof.
  induction d as [|[k' v'] d IH]; simpl; [discriminate|].
  destruct (text_eqb k k') eqn:E.
  - apply text_eqb_eq in E; subst. intros H; inversion H; auto.
  - auto.
Qed.

Lemma contains_In k d : contains k d = true <-> In k (keys d).
Proof.
  unfold contains, keys.
  induction d as [|[k' v'] d IH]; simpl.
  - split; [discriminate|contradiction].
  - destruct (text_eqb k k') eqn:E.
    + apply text_eqb_eq in E; subst. split; auto.
    + rewrite IH. split; auto. intros [H|H]; auto.
      subst. rewrite text_eqb_refl in E. discriminate.
Qed.

Lemma setdefault_keys_mono k k' v d :
  In k (keys d) -> In k (keys (setdefault k' v d)).
Proof.
  unfold setdefault. destruct (contains k' d); auto.
  unfold keys. rewrite map_app. intros H. apply in_or_app; auto.
Qed.

Lemma setdefault_keys_self k v d : In k (keys (setdefault k v d)).
Proof.
  unfold setdefault. destruct (contains k d) eqn:E.
  - apply contains_In; exact E.
  - unfold keys. rewrite map_app. apply in_or_app; right; simpl; auto.
Qed.

Lemma setdefault_In k v d kv :
  In kv (setdefault k v d) -> In kv d \/ (kv = (k, v) /\ ~ In k (keys d)).
Proof.
  unfold setdefault. destruct (contains k d) eqn:E; auto.
  intros H. apply in_app_or in H. destruct H as [H|[H|[]]]; auto.
  right. split; auto. rewrite <- contains_In, E. discriminate.
Qed.

Lemma setdefault_In_mono k v d kv : In kv d -> In kv (setdefault k v d).
Proof.
  unfold setdefault. destruct (contains k d); auto.
  intros H; apply in_or_app; auto.
Qed.

(** Inserting under a key already present is a no-op. *)
Lemma setdefault_present k v d : In k (keys d) -> setdefault k v d = d.
Proof.
  intros H. apply contains_In in H. unfold setdefault. rewrite H.
  reflexivity.
Qed.

Lemma setdefault_new k v d :
  ~ In k (keys d) -> setdefault k v d = d ++ [(k, v)].
Proof.
  intros H. unfold setdefault.
  destruct (contains k d) eqn:E; auto.
  apply contains_In in E. contradiction.
Qed.

Lemma setdefault_NoDup k v d :
  NoDup (keys d) -> NoDup (keys (setdefault k v d)).
Proof.
  intros H. unfold setdefault. destruct (contains k d) eqn:E; auto.
  unfold keys. rewrite map_app. simpl.
  apply NoDup_app; auto.
  - constructor; [intros []|constructor].
  - intros x Hx [<-|[]].
    apply contains_In in Hx. congruence.
Qed.
End DictFacts.

(** *** Trimming and decoding *)

Lemma lstrip_nospace (s : text) (c : char) :
  isspace c = false -> lstrip (c :: s) = c :: s.
Proof. simpl. intros ->. reflexivity. Qed.

Lemma decode_n_ascii (a bs : list N) :
  Forall (fun b => (b < 128)%N) a -> decode_n (a ++ bs) = a ++ decode_n bs.
Proof.
  induction 1 as [|b a Hb _ IH]; simpl; [reflexivity|].
  apply N.ltb_lt in Hb. rewrite Hb, IH. reflexivity.
Qed.

(** A byte that can start no sequence is dropped. *)
Lemma decode_n_bad_start (b : N) (bs : list N) :
  (128 <= b < 194 \/ 245 <= b)%N -> decode_n (b :: bs) = decode_n bs.
Proof.
  intros H. simpl.
  destruct (N.ltb_spec b 128); [lia|].
  destruct (N.ltb_spec b 194); [reflexivity|].
  destruct (N.ltb_spec b 224); [lia|].
  destruct (N.ltb_spec b 240); [lia|].
  destruct (N.ltb_spec b 245); [lia|].
  reflexivity.
Qed.

End PyFacts.

(** ** Facts about the decoder *)

Module DecodeFacts.
Import Py Utf8.
Local Unset Implicit Arguments.

Lemma decode_n_unfold (b0 : N) (r0 : list N) :
  decode_n (b0 :: r0)
  = if (b0 <? 128)%N then b0 :: decode_n r0
    else if (b0 <? 194)%N then decode_n r0
    else if (b0 <? 224)%N then
      match r0 with
      | [] => []
      | b1 :: r1 =>
          if is_cont b1
          then ((b0 - 192) * 64 + low6 b1)%N :: decode_n r1
          else decode_n r0
      end
    else if (b0 <? 240)%N then
      match r0 with
      | [] => []
      | b1 :: r1 =>
          if ok3 b0 b1 then
            match r1 with
            | [] => []
            | b2 :: r2 =>
                if is_cont b2
                then ((b0 - 224) * 4096 + low6 b1 * 64 + low6 b2)%N
                       :: decode_n r2
                else decode_n r1
            end
          else decode_n r0
      end
    else if (b0 <? 245)%N then
      match r0 with
      | [] => []
      | b1 :: r1 =>
          if ok4 b0 b1 then
            match r1 with
            | [] => []
            | b2 :: r2 =>
                if is_cont b2 then
                  match r2 with
                  | [] => []
                  | b3 :: r3 =>
                      if is_cont b3
                      then ((b0 - 240) * 262144 + low6 b1 * 4096
                            + low6 b2 * 64 + low6 b3)%N :: decode_n r3
                      else decode_n r2
                  end
                else decode_n r1
            end
          else decode_n r0
      end
    else decode_n r0.
Proof. reflexivity. Qed.

Lemma is_cont_range (b : N) : is_cont b = true -> (128 <= b <= 191)%N.
Proof. unfold is_cont. to_props. lia. Qed.

Lemma is_cont_intro (b : N) : (128 <= b <= 191)%N -> is_cont b = true.
Proof. unfold is_cont. to_props. lia. Qed.

Lemma ok3_range (b0 b1 : N) :
  ok3 b0 b1 = true ->
  (128 <= b1 <= 191 /\ (b0 = 224 -> 160 <= b1) /\ (b0 = 237 -> b1 < 160))%N.
Proof.
  unfold ok3, is_cont. destruct (b1 <? 160)%N eqn:E; to_props; lia.
Qed.

Lemma ok3_intro (b0 b1 : N) :
  (128 <= b1 <= 191)%N -> (b0 = 224 -> 160 <= b1)%N ->
  (b0 = 237 -> b1 < 160)%N -> ok3 b0 b1 = true.
Proof.
  unfold ok3, is_cont. destruct (b1 <? 160)%N eqn:E; to_props; lia.
Qed.

Lemma ok4_range (b0 b1 : N) :
  ok4 b0 b1 = true ->
  (128 <= b1 <= 191 /\ (b0 = 240 -> 144 <= b1) /\ (b0 = 244 -> b1 < 144))%N.
Proof.
  unfold ok4, is_cont. destruct (b1 <? 144)%N eqn:E; to_props; lia.
Qed.

Lemma ok4_intro (b0 b1 : N) :
  (128 <= b1 <= 191)%N -> (b0 = 240 -> 144 <= b1)%N ->
  (b0 = 244 -> b1 < 144)%N -> ok4 b0 b1 = true.
Proof.
  unfold ok4, is_cont. destruct (b1 <? 144)%N eqn:E; to_props; lia.
Qed.

(** *** The decoder on a complete sequence *)

Ltac range_tests :=
  repeat match goal with
         | |- context [(?a <? ?b)%N] =>
             destruct (N.ltb_spec a b); try lia
         end.

Lemma decode_1 (b0 : N) (r : list N) :
  (b0 < 128)%N -> decode_n (b0 :: r) = b0 :: decode_n r.
Proof. intros H. rewrite decode_n_unfold. range_tests. reflexivity. Qed.

Lemma decode_2 (b0 b1 : N) (r : list N) :
  (194 <= b0 < 224)%N -> (128 <= b1 <= 191)%N ->
  decode_n (b0 :: b1 :: r) = ((b0 - 192) * 64 + low6 b1)%N :: decode_n r.
Proof.
  intros H0 H1. rewrite decode_n_unfold, (is_cont_intro b1 H1).
  range_tests. reflexivity.
Qed.

Lemma decode_3 (b0 b1 b2 : N) (r : list N) :
  (224 <= b0 < 240)%N -> (128 <= b1 <= 191)%N ->
  (b0 = 224 -> 160 <= b1)%N -> (b0 = 237 -> b1 < 160)%N ->
  (128 <= b2 <= 191)%N ->
  decode_n (b0 :: b1 :: b2 :: r)
  = ((b0 - 224) * 4096 + low6 b1 * 64 + low6 b2)%N :: decode_n r.
Proof.
  intros H0 H1 Ha Hb H2.
  rewrite decode_n_unfold, (ok3_intro b0 b1 H1 Ha Hb), (is_cont_intro b2 H2).
  range_tests. reflexivity.
Qed.

Lemma decode_4 (b0 b1 b2 b3 : N) (r : list N) :
  (240 <= b0 < 245)%N -> (128 <= b1 <= 191)%N ->
  (b0 = 240 -> 144 <= b1)%N -> (b0 = 244 -> b1 < 144)%N ->
  (128 <= b2 <= 191)%N -> (128 <= b3 <= 191)%N ->
  decode_n (b0 :: b1 :: b2 :: b3 :: r)
  = ((b0 - 240) * 262144 + low6 b1 * 4096 + low6 b2 * 64 + low6 b3)%N
    :: decode_n r.
Proof.
  intros H0 H1 Ha Hb H2 H3.
  rewrite decode_n_unfold, (ok4_intro b0 b1 H1 Ha Hb), (is_cont_intro b2 H2),
    (is_cont_intro b3 H3).
  range_tests. reflexivity.
Qed.

(** *** The encoder on the code point of a complete sequence *)

Lemma div_mod_64 (q r : N) : (r < 64)%N ->
  ((q * 64 + r) / 64 = q /\ (q * 64 + r) mod 64 = r)%N.
Proof.
  intros H. split.
  - symmetry. apply (N.div_unique _ 64 q r); lia.
  - symmetry. apply (N.mod_unique _ 64 q r); lia.
Qed.

Lemma encode_2 (b0 b1 : N) :
  (194 <= b0 < 224)%N -> (128 <= b1 <= 191)%N ->
  encode ((b0 - 192) * 64 + low6 b1)%N = [b0; b1]
  /\ scalar ((b0 - 192) * 64 + low6 b1)%N = true
  /\ (128 <= (b0 - 192) * 64 + low6 b1)%N.
Proof.
  intros H0 H1. unfold encode, scalar, low6.
  destruct (div_mod_64 (b0 - 192) (b1 - 128) ltac:(lia)) as [D M].
  rewrite D, M. range_tests. cbv beta iota.
  split; [f_equal; [lia|f_equal; lia]|]. split; [|lia].
  to_props. lia.
Qed.

Lemma encode_3 (b0 b1 b2 : N) :
  (224 <= b0 < 240)%N -> (128 <= b1 <= 191)%N ->
  (b0 = 224 -> 160 <= b1)%N -> (b0 = 237 -> b1 < 160)%N ->
  (128 <= b2 <= 191)%N ->
  encode ((b0 - 224) * 4096 + low6 b1 * 64 + low6 b2)%N = [b0; b1; b2]
  /\ scalar ((b0 - 224) * 4096 + low6 b1 * 64 + low6 b2)%N = true
  /\ (128 <= (b0 - 224) * 4096 + low6 b1 * 64 + low6 b2)%N.
Proof.
  intros H0 H1 Ha Hb H2. unfold low6.
  remember ((b0 - 224) * 64 + (b1 - 128))%N as x1 eqn:X1.
  assert (E : ((b0 - 224) * 4096 + (b1 - 128) * 64 + (b2 - 128)
               = x1 * 64 + (b2 - 128))%N) by lia.
  rewrite E. clear E.
  destruct (div_mod_64 x1 (b2 - 128) ltac:(lia)) as [D1 M1].
  destruct (div_mod_64 (b0 - 224) (b1 - 128) ltac:(lia)) as [D2 M2].
  rewrite <- X1 in D2, M2.
  remember (x1 * 64 + (b2 - 128))%N as c eqn:C.
  assert (D3 : (c / 4096 = b0 - 224)%N).
  { change 4096%N with (64 * 64)%N. rewrite <- N.Div0.div_div.
    rewrite D1. exact D2. }
  unfold encode, scalar. rewrite D3, D1, M1, M2.
  range_tests; cbv beta iota;
    (split; [repeat (f_equal; try lia)|]; split; [|lia]);
    to_props; lia.
Qed.

Lemma encode_4 (b0 b1 b2 b3 : N) :
  (240 <= b0 < 245)%N -> (128 <= b1 <= 191)%N ->
  (b0 = 240 -> 144 <= b1)%N -> (b0 = 244 -> b1 < 144)%N ->
  (128 <= b2 <= 191)%N -> (128 <= b3 <= 191)%N ->
  encode ((b0 - 240) * 262144 + low6 b1 * 4096 + low6 b2 * 64 + low6 b3)%N
  = [b0; b1; b2; b3]
  /\ scalar ((b0 - 240) * 262144 + low6 b1 * 4096 + low6 b2 * 64 + low6 b3)%N
     = true
  /\ (128 <= (b0 - 240) * 262144 + low6 b1 * 4096 + low6 b2 * 64 + low6 b3)%N.
Proof.
  intros H0 H1 Ha Hb H2 H3. unfold low6.
  remember ((b0 - 240) * 64 + (b1 - 128))%N as x2 eqn:X2.
  remember (x2 * 64 + (b2 - 128))%N as x1 eqn:X1.
  assert (E : ((b0 - 240) * 262144 + (b1 - 128) * 4096 + (b2 - 128) * 64
               + (b3 - 128) = x1 * 64 + (b3 - 128))%N) by lia.
  rewrite E. clear E.
  destruct (div_mod_64 x1 (b3 - 128) ltac:(lia)) as [D1 M1].
  destruct (div_mod_64 x2 (b2 - 128) ltac:(lia)) as [D2 M2].
  destruct (div_mod_64 (b0 - 240) (b1 - 128) ltac:(lia)) as [D3 M3].
  rewrite <- X1 in D2, M2. rewrite <- X2 in D3, M3.
  remember (x1 * 64 + (b3 - 128))%N as c eqn:C.
  assert (D4 : (c / 4096 = x2)%N).
  { change 4096%N with (64 * 64)%N. rewrite <- N.Div0.div_div.
    rewrite D1. exact D2. }
  assert (D5 : (c / 262144 = b0 - 240)%N).
  { change 262144%N with (4096 * 64)%N. rewrite <- N.Div0.div_div.
    rewrite D4. exact D3. }
  unfold encode, scalar. rewrite D5, D4, D1, M1, M2, M3.
  range_tests; cbv beta iota;
    (split; [repeat (f_equal; try lia)|]; split; [|lia]);
    to_props; lia.
Qed.

(** *** The decoder, case by case *)

(** The decoder keeps an ASCII byte, drops a run of bytes that are not
    ASCII, or turns such a run, the UTF-8 form of a scalar value, into
    that value. *)
Lemma decode_n_cases (P : list N -> text -> Prop) :
  P [] [] ->
  (forall b r, (b < 128)%N -> P r (decode_n r) ->
               P (b :: r) (b :: decode_n r)) ->
  (forall dropped r, dropped <> [] ->
                     Forall (fun b => (128 <= b)%N) dropped ->
                     P r (decode_n r) -> P (dropped ++ r) (decode_n r)) ->
  (forall bytes cp r, bytes <> [] ->
                      Forall (fun b => (128 <= b)%N) bytes ->
                      (128 <= cp)%N -> scalar cp = true ->
                      encode cp = bytes ->
                      P r (decode_n r) -> P (bytes ++ r) (cp :: decode_n r)) ->
  forall bs, P bs (decode_n bs).
Proof.
  intros Pnil Pascii Pdrop Pchar bs.
  remember (length bs) as n eqn:Hn.
  assert (Hle : length bs <= n) by lia. clear Hn.
  revert bs Hle. induction n as [|n IH]; intros bs Hle.
  { destruct bs; [exact Pnil|simpl in Hle; lia]. }
  destruct bs as [|b0 r0]; [exact Pnil|]. simpl in Hle.
  assert (End : forall dropped, dropped <> [] ->
                  Forall (fun b => (128 <= b)%N) dropped -> P dropped []).
  { intros d Hd Hf. rewrite <- (app_nil_r d).
    apply (Pdrop d [] Hd Hf). exact Pnil. }
  rewrite decode_n_unfold.
  destruct (b0 <? 128)%N eqn:E1.
  { apply Pascii; [to_props; lia|apply IH; lia]. }
  destruct (b0 <? 194)%N eqn:E2.
  { apply (Pdrop [b0] r0); [discriminate| |apply IH; lia].
    repeat constructor. to_props. lia. }
  assert (H0 : (128 <= b0)%N) by (to_props; lia).
  destruct (b0 <? 224)%N eqn:E3.
  { destruct r0 as [|b1 r1]; [apply End; [discriminate|repeat constructor; exact H0]|].
    simpl in Hle.
    destruct (is_cont b1) eqn:C1.
    - apply is_cont_range in C1.
      destruct (encode_2 b0 b1) as (En & Sc & Lo); [to_props; lia|lia|].
      apply (Pchar [b0; b1] _ r1);
        [discriminate| |exact Lo|exact Sc|exact En|apply IH; lia].
      repeat constructor; lia.
    - apply (Pdrop [b0] (b1 :: r1)); [discriminate| |apply IH; simpl; lia].
      repeat constructor. exact H0. }
  destruct (b0 <? 240)%N eqn:E4.
  { destruct r0 as [|b1 r1]; [apply End; [discriminate|repeat constructor; exact H0]|].
    simpl in Hle.
    destruct (ok3 b0 b1) eqn:C1.
    - apply ok3_range in C1.
      destruct r1 as [|b2 r2];
        [apply End; [discriminate|repeat constructor; lia]|].
      simpl in Hle.
      destruct (is_cont b2) eqn:C2.
      + apply is_cont_range in C2.
        destruct (encode_3 b0 b1 b2) as (En & Sc & Lo);
          [to_props; lia|lia|lia|lia|lia|].
        apply (Pchar [b0; b1; b2] _ r2);
          [discriminate| |exact Lo|exact Sc|exact En|apply IH; lia].
        repeat constructor; lia.
      + apply (Pdrop [b0; b1] (b2 :: r2));
          [discriminate| |apply IH; simpl; lia].
        repeat constructor; lia.
    - apply (Pdrop [b0] (b1 :: r1)); [discriminate| |apply IH; simpl; lia].
      repeat constructor. exact H0. }
  destruct (b0 <? 245)%N eqn:E5.
  { destruct r0 as [|b1 r1]; [apply End; [discriminate|repeat constructor; exact H0]|].
    simpl in Hle.
    destruct (ok4 b0 b1) eqn:C1.
    - apply ok4_range in C1.
      destruct r1 as [|b2 r2];
        [apply End; [discriminate|repeat constructor; lia]|].
      simpl in Hle.
      destruct (is_cont b2) eqn:C2.
      + apply is_cont_range in C2.
        destruct r2 as [|b3 r3];
          [apply End; [discriminate|repeat constructor; lia]|].
        simpl in Hle.
        destruct (is_cont b3) eqn:C3.
        * apply is_cont_range in C3.
          destruct (encode_4 b0 b1 b2 b3) as (En & Sc & Lo);
            [to_props; lia|lia|lia|lia|lia|lia|].
          apply (Pchar [b0; b1; b2; b3] _ r3);
            [discriminate| |exact Lo|exact Sc|exact En|apply IH; lia].
          repeat constructor; lia.
        * apply (Pdrop [b0; b1; b2] (b3 :: r3));
            [discriminate| |apply IH; simpl; lia].
          repeat constructor; lia.
      + apply (Pdrop [b0; b1] (b2 :: r2));
          [discriminate| |apply IH; simpl; lia].
        repeat constructor; lia.
    - apply (Pdrop [b0] (b1 :: r1)); [discriminate| |apply IH; simpl; lia].
      repeat constructor. exact H0. }
  apply (Pdrop [b0] r0); [discriminate| |apply IH; lia].
  repeat constructor. exact H0.
Qed.


(** *** Encoding, then decoding *)

Lemma encode_head (c : char) :
  exists b0 rest, encode c = b0 :: rest /\ is_cont b0 = false.
Proof.
  unfold encode, is_cont.
  generalize (c / 64)%N (c / 4096)%N (c / 262144)%N. intros q1 q2 q3.
  destruct (N.ltb_spec c 128); [|destruct (N.ltb_spec c 2048);
                                  [|destruct (N.ltb_spec c 65536)]];
    eexists; eexists; (split; [reflexivity|]); to_props; lia.
Qed.

Lemma decode_encode (c : char) (r : list N) :
  scalar c = true -> decode_n (encode c ++ r) = c :: decode_n r.
Proof.
  unfold scalar, encode. intros Hs.
  assert (Sc : (c < 55296 \/ 57343 < c <= 1114111)%N) by (to_props; lia).
  clear Hs.
  pose proof (N.Div0.div_mod c 64) as E1.
  pose proof (N.mod_lt c 64 ltac:(lia)) as L1.
  pose proof (N.Div0.div_mod (c / 64) 64) as E2.
  pose proof (N.mod_lt (c / 64) 64 ltac:(lia)) as L2.
  pose proof (N.Div0.div_mod (c / 64 / 64) 64) as E3.
  pose proof (N.mod_lt (c / 64 / 64) 64 ltac:(lia)) as L3.
  change 4096%N with (64 * 64)%N.
  change 262144%N with (64 * 64 * 64)%N.
  rewrite <- !N.Div0.div_div.
  revert E1 L1 E2 L2 E3 L3.
  generalize (c mod 64)%N ((c / 64) mod 64)%N ((c / 64 / 64) mod 64)%N.
  generalize (c / 64 / 64 / 64)%N (c / 64 / 64)%N (c / 64)%N.
  intros q3 q2 q1 m1 m2 m3 E1 L1 E2 L2 E3 L3.
  destruct (N.ltb_spec c 128) as [C1|C1].
  { apply decode_1. exact C1. }
  destruct (N.ltb_spec c 2048) as [C2|C2].
  { cbn [app]. rewrite decode_2 by lia. f_equal. unfold low6. lia. }
  destruct (N.ltb_spec c 65536) as [C3|C3].
  { cbn [app]. rewrite decode_3 by lia. f_equal. unfold low6. lia. }
  cbn [app]. rewrite decode_4 by lia. f_equal. unfold low6. lia.
Qed.

Lemma decode_encode_all (cs : text) (r : list N) :
  Forall (fun c => scalar c = true) cs ->
  decode_n (flat_map encode cs ++ r) = cs ++ decode_n r.
Proof.
  induction 1 as [|c cs Hc _ IH]; [reflexivity|].
  cbn [flat_map]. rewrite <- !app_assoc, (decode_encode c _ Hc), IH.
  reflexivity.
Qed.

(** *** Decoding resumes at any byte that can begin a sequence *)

Lemma decode_resync (y : list N) :
  starts_sequence y = true ->
  forall a, decode_n (a ++ y) = decode_n a ++ decode_n y.
Proof.
  destruct y as [|l y']; [discriminate|]. cbn [starts_sequence].
  intros Hl. apply negb_true_iff in Hl.
  assert (K3 : forall b, ok3 b l = false) by (intros b; unfold ok3; rewrite Hl; reflexivity).
  assert (K4 : forall b, ok4 b l = false) by (intros b; unfold ok4; rewrite Hl; reflexivity).
  intros a. remember (length a) as n eqn:Hn.
  assert (Hle : length a <= n) by lia. clear Hn.
  revert a Hle. induction n as [|n IH]; intros a Hle.
  { destruct a; [reflexivity|simpl in Hle; lia]. }
  destruct a as [|b0 r0]; [reflexivity|]. simpl in Hle.
  rewrite <- app_comm_cons.
  rewrite (decode_n_unfold b0 (r0 ++ l :: y')), (decode_n_unfold b0 r0).
  destruct (b0 <? 128)%N.
  { rewrite IH by lia. reflexivity. }
  destruct (b0 <? 194)%N; [apply IH; lia|].
  destruct (b0 <? 224)%N.
  { destruct r0 as [|b1 r1]; cbn [app]; [rewrite Hl; reflexivity|].
    simpl in Hle.
    destruct (is_cont b1).
    - rewrite IH by lia. reflexivity.
    - apply (IH (b1 :: r1)). simpl; lia. }
  destruct (b0 <? 240)%N.
  { destruct r0 as [|b1 r1]; cbn [app]; [rewrite K3; reflexivity|].
    simpl in Hle.
    destruct (ok3 b0 b1); [|apply (IH (b1 :: r1)); simpl; lia].
    destruct r1 as [|b2 r2]; cbn [app]; [rewrite Hl; reflexivity|].
    simpl in Hle.
    destruct (is_cont b2).
    - rewrite IH by lia. reflexivity.
    - apply (IH (b2 :: r2)). simpl; lia. }
  destruct (b0 <? 245)%N; [|apply IH; lia].
  destruct r0 as [|b1 r1]; cbn [app]; [rewrite K4; reflexivity|].
  simpl in Hle.
  destruct (ok4 b0 b1); [|apply (IH (b1 :: r1)); simpl; lia].
  destruct r1 as [|b2 r2]; cbn [app]; [rewrite Hl; reflexivity|].
  simpl in Hle.
  destruct (is_cont b2); [|apply (IH (b2 :: r2)); simpl; lia].
  destruct r2 as [|b3 r3]; cbn [app]; [rewrite Hl; reflexivity|].
  simpl in Hle.
  destruct (is_cont b3).
  - rewrite IH by lia. reflexivity.
  - apply (IH (b3 :: r3)). simpl; lia.
Qed.

(** A well-formed stretch is decoded as it stands, wherever it stands. *)
Lemma decode_embedded (a b : list N) (cs : text) :
  cs <> [] -> Forall (fun c => scalar c = true) cs ->
  decode_n (a ++ flat_map encode cs ++ b) = decode_n a ++ cs ++ decode_n b.
Proof.
  intros Hne Hs. rewrite decode_resync.
  - rewrite decode_encode_all by exact Hs. reflexivity.
  - destruct cs as [|c cs]; [congruence|]. cbn [flat_map].
    destruct (encode_head c) as (b0 & rest & -> & Hb).
    simpl. rewrite Hb. reflexivity.
Qed.

(** *** Decoding only leaves bytes out *)

Lemma subsequence_refl {A} (l : list A) : subsequence l l.
Proof. induction l; constructor; assumption. Qed.

Lemma subsequence_app {A} (s1 l1 s2 l2 : list A) :
  subsequence s1 l1 -> subsequence s2 l2 -> subsequence (s1 ++ s2) (l1 ++ l2).
Proof.
  induction 1; intros H2; simpl; [exact H2| |]; constructor; auto.
Qed.

Lemma subsequence_nil {A} (l : list A) : subsequence [] l.
Proof. induction l; constructor; assumption. Qed.

Lemma subsequence_map_inv {A B} (f : A -> B) (l : list A) : forall ks,
  subsequence ks (List.map f l) ->
  exists kept, ks = List.map f kept /\ subsequence kept l.
Proof.
  induction l as [|x l IH]; intros ks H; simpl in H.
  - inversion H; subst. exists []. split; [reflexivity|constructor].
  - inversion H as [|y s l' Hs|y s l' Hs]; subst.
    + destruct (IH _ Hs) as (kept & -> & Hk).
      exists (x :: kept). split; [reflexivity|constructor; exact Hk].
    + destruct (IH _ Hs) as (kept & -> & Hk).
      exists kept. split; [reflexivity|constructor; exact Hk].
Qed.

(** The text decoded from any bytes is made of scalar values, and its
    UTF-8 form is what is left of the bytes once the bytes that belong
    to no sequence are left out. *)
Lemma decode_n_keeps (bs : list N) :
  Forall (fun c => scalar c = true) (decode_n bs)
  /\ subsequence (flat_map encode (decode_n bs)) bs.
Proof.
  apply (decode_n_cases
           (fun bs t => Forall (fun c => scalar c = true) t
                        /\ subsequence (flat_map encode t) bs)).
  - split; constructor.
  - intros b r Hb [F S]. split.
    + constructor; [|exact F]. unfold scalar. to_props. lia.
    + cbn [flat_map]. unfold encode at 1.
      destruct (N.ltb_spec b 128); [|lia]. simpl. constructor. exact S.
  - intros d r _ _ [F S]. split; [exact F|].
    change (flat_map encode (decode_n r))
      with ([] ++ flat_map encode (decode_n r)).
    apply subsequence_app; [apply subsequence_nil|exact S].
  - intros bytes cp r _ _ _ Hs He [F S]. split; [constructor; assumption|].
    cbn [flat_map]. rewrite He.
    apply subsequence_app; [apply subsequence_refl|exact S].
Qed.

End DecodeFacts.

(** ** Facts about the matcher *)

Module ReFacts.
Import Py Re.

Lemma lit_match_refl (fl : flags) (c : char) : lit_match fl c c = true.
Proof.
  unfold lit_match, ci_eq. destruct (IGNORECASE fl).
  - rewrite N.eqb_refl. reflexivity.
  - apply N.eqb_refl.
Qed.

Lemma lit_equal_refl (fl : flags) (p : text) : lit_equal fl p p = true.
Proof.
  induction p as [|c p IH]; simpl; [reflexivity|].
  rewrite lit_match_refl, IH. reflexivity.
Qed.

Lemma lit_equal_length (fl : flags) (p xs : text) :
  lit_equal fl p xs = true -> length xs = length p.
Proof.
  revert xs; induction p as [|c p IH]; intros [|x xs]; simpl;
    try discriminate; auto.
  rewrite andb_true_iff. intros [_ H]. f_equal. auto.
Qed.

Lemma lit_prefix_split (fl : flags) (p s : text) :
  lit_prefix fl p s = true <->
  exists xs rest, s = xs ++ rest /\ lit_equal fl p xs = true.
Proof.
  revert s; induction p as [|c p IH]; intros s; simpl.
  - split; [intros _; exists [], s; auto | reflexivity].
  - destruct s as [|x s].
    + split; [discriminate|].
      intros (xs & rest & E & H). destruct xs; discriminate.
    + rewrite andb_true_iff, IH. split.
      * intros (Hc & xs & rest & -> & H). exists (x :: xs), rest.
        simpl. rewrite Hc, H. auto.
      * intros (xs & rest & E & H). destruct xs as [|x' xs]; [discriminate|].
        simpl in E. inversion E; subst.
        apply andb_true_iff in H. destruct H as [Hc H].
        split; [exact Hc|]. exists xs, rest. auto.
Qed.

Section EngineFacts.
Variable fl : flags.

(** What a literal matches. *)
Lemma matches_lit (p xs s : text) (c : option text) :
  lit_equal fl p xs = true -> matches fl (lit_text p) (xs ++ s) c s c.
Proof.
  revert xs; induction p as [|l p IH]; intros [|x xs]; simpl;
    try discriminate.
  - intros _. constructor.
  - rewrite andb_true_iff. intros [Hc H].
    econstructor; [constructor; exact Hc | apply IH; exact H].
Qed.

Lemma matches_lit_inv (p s s1 : text) (c c1 : option text) :
  matches fl (lit_text p) s c s1 c1 ->
  exists xs, s = xs ++ s1 /\ lit_equal fl p xs = true /\ c1 = c.
Proof.
  revert s c; induction p as [|l p IH]; intros s c H; simpl in H.
  - inversion H; subst. exists []. auto.
  - inversion H as [| |? ? ? ? s2 c2 ? ? H1 H2| | | | |]; subst.
    inversion H1; subst.
    destruct (IH _ _ H2) as (xs & -> & Hxs & ->).
    exists (x :: xs). simpl. split; [reflexivity|].
    split; [|reflexivity]. apply andb_true_iff; auto.
Qed.

(** Inversion, one lemma per constructor of the pattern. *)
Lemma matches_cat_inv r1 r2 s c s2 c2 :
  matches fl (Cat r1 r2) s c s2 c2 ->
  exists s1 c1, matches fl r1 s c s1 c1 /\ matches fl r2 s1 c1 s2 c2.
Proof. intros M. inversion M; subst. eauto. Qed.

Lemma matches_alt_inv r1 r2 s c s1 c1 :
  matches fl (Alt r1 r2) s c s1 c1 ->
  matches fl r1 s c s1 c1 \/ matches fl r2 s c s1 c1.
Proof. intros M. inversion M; subst; auto. Qed.

Lemma matches_rep_inv cl q g s c s1 c1 :
  matches fl (Rep cl q g) s c s1 c1 ->
  exists xs, s = xs ++ s1 /\ forallb (cmatch fl cl) xs = true
             /\ qmin q <= length xs /\ c1 = c.
Proof. intros M. inversion M; subst. eauto. Qed.

Lemma matches_eos_inv s c s1 c1 :
  matches fl Eos s c s1 c1 -> at_end s = true /\ s1 = s /\ c1 = c.
Proof. intros M. inversion M; subst. auto. Qed.

(** A match consumes a prefix of the text. *)
Lemma matches_suffix r s c s1 c1 :
  matches fl r s c s1 c1 -> exists xs, s = xs ++ s1.
Proof.
  induction 1.
  - exists []; reflexivity.
  - exists [x]; reflexivity.
  - destruct IHmatches1 as [xs1 ->]. destruct IHmatches2 as [xs2 ->].
    exists (xs1 ++ xs2). apply app_assoc.
  - assumption.
  - assumption.
  - exists xs; reflexivity.
  - exists xs; reflexivity.
  - exists []; reflexivity.
Qed.

Section Continuations.
Variable A : Type.
Implicit Types (k : text -> option A).

Lemma rep_greedy_sound cl n s k a :
  rep_greedy fl cl n s k = Some a ->
  exists xs s1, s = xs ++ s1 /\ forallb (cmatch fl cl) xs = true /\
                n <= length xs /\ k s1 = Some a.
Proof.
  revert n; induction s as [|x s IH]; intros n; simpl.
  - destruct n; simpl; [|discriminate].
    intros H. exists [], []. auto.
  - assert (Stop : (if Nat.eqb n 0 then k (x :: s) else None) = Some a ->
                   exists xs s1, x :: s = xs ++ s1 /\
                     forallb (cmatch fl cl) xs = true /\
                     n <= length xs /\ k s1 = Some a).
    { destruct n; simpl; [|discriminate].
      intros H. exists [], (x :: s). auto. }
    destruct (cmatch fl cl x) eqn:Hx; [|exact Stop].
    destruct (rep_greedy fl cl (pred n) s k) eqn:Hr; [|exact Stop].
    intros H; inversion H; subst.
    destruct (IH _ Hr) as (xs & s1 & -> & Hxs & Hn & Hk).
    exists (x :: xs), s1. simpl. rewrite Hx, Hxs.
    repeat split; auto. lia.
Qed.

Lemma rep_greedy_complete cl n xs s1 k a :
  forallb (cmatch fl cl) xs = true -> n <= length xs ->
  k s1 = Some a ->
  exists b, rep_greedy fl cl n (xs ++ s1) k = Some b.
Proof.
  revert n; induction xs as [|x xs IH]; intros n Hxs Hn Hk; simpl in *.
  - assert (n = 0) by lia; subst.
    destruct s1 as [|y s1]; simpl; [eauto|].
    destruct (cmatch fl cl y); [|eauto].
    destruct (rep_greedy fl cl 0 s1 k); eauto.
  - apply andb_true_iff in Hxs. destruct Hxs as [Hx Hxs].
    rewrite Hx.
    destruct (IH (pred n) Hxs ltac:(lia) Hk) as [b Hb].
    rewrite Hb. eauto.
Qed.

(** The lazy repetition stops at the first length the continuation
    accepts: it has refused every shorter one. *)
Lemma rep_lazy_sound cl n s k a :
  rep_lazy fl cl n s k = Some a ->
  exists xs s1, s = xs ++ s1 /\ forallb (cmatch fl cl) xs = true /\
                n <= length xs /\ k s1 = Some a /\
                forall ys zs, xs = ys ++ zs -> zs <> [] ->
                              n <= length ys -> k (zs ++ s1) = None.
Proof.
  revert n; induction s as [|x s IH]; intros n; simpl.
  - destruct n; simpl; [|discriminate].
    intros H. exists [], []. repeat split; auto.
    intros ys zs E Hz. destruct ys, zs; try discriminate. congruence.
  - destruct (if Nat.eqb n 0 then k (x :: s) else None) eqn:Hstop.
    + destruct n; simpl in Hstop; [|discriminate].
      intros H; inversion H; subst.
      exists [], (x :: s). repeat split; auto.
      intros ys zs E Hz. destruct ys, zs; try discriminate. congruence.
    + destruct (cmatch fl cl x) eqn:Hx; [|discriminate].
      intros Hr.
      destruct (IH _ Hr) as (xs & s1 & -> & Hxs & Hn & Hk & Hmin).
      exists (x :: xs), s1. simpl. rewrite Hx, Hxs.
      repeat split; auto; [lia|].
      intros ys zs E Hz Hys.
      destruct ys as [|y ys]; simpl in E.
      * subst zs. simpl in *. destruct n; [exact Hstop|lia].
      * inversion E; subst. apply (Hmin ys zs); auto.
        simpl in Hys. lia.
Qed.

Lemma rep_lazy_complete cl n xs s1 k a :
  forallb (cmatch fl cl) xs = true -> n <= length xs ->
  k s1 = Some a ->
  exists b, rep_lazy fl cl n (xs ++ s1) k = Some b.
Proof.
  revert n; induction xs as [|x xs IH]; intros n Hxs Hn Hk; simpl in *.
  - assert (n = 0) by lia; subst.
    destruct s1 as [|y s1]; simpl; [eauto|].
    rewrite Hk. eauto.
  - apply andb_true_iff in Hxs. destruct Hxs as [Hx Hxs].
    destruct (if Nat.eqb n 0 then k (x :: xs ++ s1) else None); [eauto|].
    rewrite Hx. apply IH; auto. lia.
Qed.

(** Whatever the matcher returns comes from a match the pattern
    denotes. *)
Lemma run_sound r :
  forall s c (k : text -> option text -> option A) a,
    run fl r s c k = Some a ->
    exists s1 c1, matches fl r s c s1 c1 /\ k s1 c1 = Some a.
Proof.
  induction r as [|cl|r1 IH1 r2 IH2|r1 IH1 r2 IH2|cl q g|r IH|];
    intros s c k a; simpl.
  - intros H. exists s, c. split; [constructor|exact H].
  - destruct s as [|x s]; [discriminate|].
    destruct (cmatch fl cl x) eqn:Hx; [|discriminate].
    intros H. exists s, c. split; [constructor; exact Hx|exact H].
  - intros H.
    destruct (IH1 _ _ _ _ H) as (s1 & c1 & M1 & H1).
    destruct (IH2 _ _ _ _ H1) as (s2 & c2 & M2 & H2).
    exists s2, c2. split; [econstructor; eassumption|exact H2].
  - destruct (run fl r1 s c k) eqn:E1.
    + intros H; inversion H; subst.
      destruct (IH1 _ _ _ _ E1) as (s1 & c1 & M1 & H1).
      exists s1, c1. split; [apply M_AltL; exact M1|exact H1].
    + intros H.
      destruct (IH2 _ _ _ _ H) as (s1 & c1 & M1 & H1).
      exists s1, c1. split; [apply M_AltR; exact M1|exact H1].
  - destruct g; intros H.
    + apply rep_greedy_sound in H.
      destruct H as (xs & s1 & -> & Hxs & Hn & Hk).
      exists s1, c. split; [constructor; assumption|exact Hk].
    + apply rep_lazy_sound in H.
      destruct H as (xs & s1 & -> & Hxs & Hn & Hk & _).
      exists s1, c. split; [constructor; assumption|exact Hk].
  - intros H.
    destruct (IH _ _ _ _ H) as (s1 & c1 & M1 & H1).
    destruct (matches_suffix M1) as [xs ->].
    rewrite length_app, Nat.add_sub, firstn_app, Nat.sub_diag in H1.
    rewrite firstn_all, firstn_O, app_nil_r in H1.
    exists s1, (Some xs). split; [econstructor; exact M1|exact H1].
  - destruct (at_end s) eqn:E; [|discriminate].
    intros H. exists s, c. split; [constructor; exact E|exact H].
Qed.

(** Backtracking is exhaustive: when the pattern denotes a match that
    the continuation accepts, the matcher returns some result. *)
Lemma run_complete r s c s1 c1 :
  matches fl r s c s1 c1 ->
  forall (k : text -> option text -> option A) a,
    k s1 c1 = Some a -> exists b, run fl r s c k = Some b.
Proof.
  induction 1 as [s c|cl x s c Hx|r1 r2 s c s1 c1 s2 c2 _ IH1 _ IH2
                  |r1 r2 s c s1 c1 _ IH|r1 r2 s c s1 c1 _ IH
                  |cl q g xs s c Hxs Hn|r xs s c c1 _ IH|s c He];
    intros k a Hk; simpl.
  - eauto.
  - rewrite Hx. eauto.
  - destruct (IH2 _ _ Hk) as [b Hb].
    exact (IH1 (fun s1 c1 => run fl r2 s1 c1 k) b Hb).
  - destruct (IH _ _ Hk) as [b Hb]. rewrite Hb. eauto.
  - destruct (run fl r1 s c k); eauto.
  - destruct g.
    + eapply rep_greedy_complete with (k := fun s1 => k s1 c); eauto.
    + eapply rep_lazy_complete with (k := fun s1 => k s1 c); eauto.
  - apply (IH (fun s1 _ =>
                 k s1 (Some (firstn (length (xs ++ s) - length s1)
                                    (xs ++ s)))) a).
    rewrite length_app, Nat.add_sub, firstn_app, Nat.sub_diag.
    rewrite firstn_all, firstn_O, app_nil_r. exact Hk.
  - rewrite He. eauto.
Qed.
Lemma run_cat r1 r2 s c (k : text -> option text -> option A) :
  run fl (Cat r1 r2) s c k
  = run fl r1 s c (fun s1 c1 => run fl r2 s1 c1 k).
Proof. reflexivity. Qed.

Lemma run_grp_lazy cl q s c (k : text -> option text -> option A) :
  run fl (Grp (Rep cl q false)) s c k
  = rep_lazy fl cl (qmin q) s
      (fun s1 => k s1 (Some (firstn (length s - length s1) s))).
Proof. reflexivity. Qed.
End Continuations.

Lemma attempt_sound r s s1 c1 :
  attempt fl r s = Some (s1, c1) -> matches fl r s None s1 c1.
Proof.
  unfold attempt. intros H. apply run_sound in H.
  destruct H as (s2 & c2 & M & E). inversion E; subst. exact M.
Qed.

Lemma attempt_complete r s s1 c1 :
  matches fl r s None s1 c1 -> exists m, attempt fl r s = Some m.
Proof.
  intros M. unfold attempt.
  eapply run_complete with (k := fun s1 c => Some (s1, c)); eauto.
Qed.

(** [re.search] succeeds exactly when the pattern matches somewhere. *)
Lemma search_true_iff r s :
  search fl r s = true <->
  exists pre rest s1 c1, s = pre ++ rest /\ matches fl r rest None s1 c1.
Proof.
  unfold search. split.
  - induction s as [|x s IH]; simpl.
    + destruct (attempt fl r []) as [[s1 c1]|] eqn:E; [|discriminate].
      intros _. exists [], [], s1, c1. split; [reflexivity|].
      apply attempt_sound; exact E.
    + destruct (attempt fl r (x :: s)) as [[s1 c1]|] eqn:E.
      * intros _. exists [], (x :: s), s1, c1. split; [reflexivity|].
        apply attempt_sound; exact E.
      * intros H. destruct (IH H) as (pre & rest & s1 & c1 & -> & M).
        exists (x :: pre), rest, s1, c1. auto.
  - intros (pre & rest & s1 & c1 & -> & M).
    destruct (attempt_complete M) as [m Hm].
    induction pre as [|x pre IH]; simpl.
    + destruct rest; simpl; rewrite Hm; reflexivity.
    + destruct (attempt fl r (x :: pre ++ rest)); [reflexivity|exact IH].
Qed.

(** Every capture of [findall] is the capture of an attempt that
    succeeded at some position. *)
Lemma findall_from_sound r s :
  forall skip m,
    In m (findall_from fl r s skip) ->
    exists pre rest s1 c1,
      s = pre ++ rest /\ attempt fl r rest = Some (s1, c1) /\ m = group1 c1.
Proof.
  induction s as [|x s IH]; intros skip m.
  - destruct skip; simpl; [|contradiction].
    destruct (attempt fl r []) as [[s1 c1]|] eqn:E; [|contradiction].
    intros [<-|[]]. exists [], [], s1, c1. auto.
  - assert (Tail : forall n, In m (findall_from fl r s n) ->
              exists pre rest s1 c1, x :: s = pre ++ rest /\
                attempt fl r rest = Some (s1, c1) /\ m = group1 c1).
    { intros n H. destruct (IH _ _ H) as (pre & rest & s1 & c1 & -> & M & E).
      exists (x :: pre), rest, s1, c1. auto. }
    destruct skip; simpl; [|apply Tail].
    destruct (attempt fl r (x :: s)) as [[s1 c1]|] eqn:E; [|apply Tail].
    intros [<-|H]; [|eapply Tail; exact H].
    exists [], (x :: s), s1, c1. auto.
Qed.

Lemma findall_complete r pre rest s1 c1 :
  matches fl r rest None s1 c1 -> findall fl r (pre ++ rest) <> [].
Proof.
  intros M. destruct (attempt_complete M) as [[s2 c2] Hm].
  unfold findall. induction pre as [|x pre IH]; simpl.
  - destruct rest; simpl; rewrite Hm; discriminate.
  - destruct (attempt fl r (x :: pre ++ rest)) as [[s3 c3]|];
      [discriminate|exact IH].
Qed.
End EngineFacts.

Section GreedyFirst.
Variable fl : flags.
Variable A : Type.
Implicit Types (k : text -> option A).

(** The greedy repetition stops at the longest run the continuation
    accepts: it has refused every longer one. *)
Lemma rep_greedy_first cl n s k a :
  rep_greedy fl cl n s k = Some a ->
  exists xs s1, s = xs ++ s1 /\ forallb (cmatch fl cl) xs = true /\
                n <= length xs /\ k s1 = Some a /\
                forall zs s2, s1 = zs ++ s2 -> zs <> [] ->
                              forallb (cmatch fl cl) zs = true ->
                              k s2 = None.
Proof.
  revert n; induction s as [|x s IH]; intros n; simpl.
  - destruct n; simpl; [|discriminate].
    intros H. exists [], []. repeat split; auto.
    intros zs s2 E Hz. destruct zs; [congruence|discriminate].
  - assert (Stop : (if Nat.eqb n 0 then k (x :: s) else None) = Some a ->
                   (forall zs s2, x :: s = zs ++ s2 -> zs <> [] ->
                                  forallb (cmatch fl cl) zs = true ->
                                  k s2 = None) ->
                   exists xs s1, x :: s = xs ++ s1 /\
                     forallb (cmatch fl cl) xs = true /\
                     n <= length xs /\ k s1 = Some a /\
                     forall zs s2, s1 = zs ++ s2 -> zs <> [] ->
                                   forallb (cmatch fl cl) zs = true ->
                                   k s2 = None).
    { destruct n; simpl; [|discriminate].
      intros H Hmax. exists [], (x :: s). repeat split; auto. }
    destruct (cmatch fl cl x) eqn:Hx.
    + destruct (rep_greedy fl cl (pred n) s k) eqn:Hr.
      * intros H; inversion H; subst.
        destruct (IH _ Hr) as (xs & s1 & -> & Hxs & Hn & Hk & Hmax).
        exists (x :: xs), s1. simpl. rewrite Hx, Hxs.
        repeat split; auto. lia.
      * intros H. apply Stop; [exact H|].
        intros zs s2 E Hz Hzs. destruct zs as [|z zs]; [congruence|].
        simpl in E. inversion E; subst. simpl in Hzs.
        apply andb_true_iff in Hzs. destruct Hzs as [_ Hzs].
        destruct (k s2) as [b|] eqn:Hk; [|reflexivity]. exfalso.
        destruct n; simpl in H; [|discriminate].
        destruct (@rep_greedy_complete fl A cl 0 zs s2 k b Hzs
                    ltac:(simpl; lia) Hk) as [b' Hb'].
        simpl in Hr. rewrite Hb' in Hr. discriminate.
    + intros H. apply Stop; [exact H|].
      intros zs s2 E Hz Hzs. destruct zs as [|z zs]; [congruence|].
      simpl in E. inversion E; subst. simpl in Hzs.
      rewrite Hx in Hzs. discriminate.
Qed.

Lemma run_rep_greedy cl q s c (k : text -> option text -> option A) :
  run fl (Rep cl q true) s c k
  = rep_greedy fl cl (qmin q) s (fun s1 => k s1 c).
Proof. reflexivity. Qed.

End GreedyFirst.

(** After a match [findall] goes on with the text the match left. *)
Lemma findall_from_skip fl r (zs s1 : text) :
  findall_from fl r (zs ++ s1) (length zs) = findall_from fl r s1 0.
Proof.
  induction zs as [|z zs IH]; simpl; [|exact IH].
  destruct s1; reflexivity.
Qed.

Lemma findall_at_match fl r (zs s1 : text) c :
  zs <> [] -> attempt fl r (zs ++ s1) = Some (s1, c) ->
  findall fl r (zs ++ s1) = group1 c :: findall fl r s1.
Proof.
  intros Hz Ha. unfold findall.
  destruct zs as [|z zs]; [congruence|]. simpl app in *.
  cbn [findall_from]. rewrite Ha. f_equal.
  cbn [length]. rewrite length_app.
  replace (pred (S (length zs + length s1) - length s1)) with (length zs) by lia.
  apply findall_from_skip.
Qed.

Lemma findall_no_match fl r (x : char) (s : text) :
  attempt fl r (x :: s) = None ->
  findall fl r (x :: s) = findall fl r s.
Proof. intros Ha. unfold findall. cbn [findall_from]. rewrite Ha. reflexivity. Qed.

(** Positions where no attempt succeeds are stepped over. *)
Lemma findall_skip_failures fl r (pre s : text) :
  (forall p1 p2, pre = p1 ++ p2 -> p2 <> [] -> attempt fl r (p2 ++ s) = None) ->
  findall fl r (pre ++ s) = findall fl r s.
Proof.
  induction pre as [|x pre IH]; intros H; [reflexivity|].
  simpl app. rewrite findall_no_match.
  - apply IH. intros p1 p2 E Hp. apply (H (x :: p1) p2); [|exact Hp].
    simpl. rewrite E. reflexivity.
  - apply (H [] (x :: pre)); [reflexivity|discriminate].
Qed.

(** Either no attempt succeeds anywhere in a text, or there is a first
    position where one does. *)
Lemma scan_for_attempt fl r (T : text) :
  (forall pre s, T = pre ++ s -> attempt fl r s = None)
  \/ exists pre s s1 c,
       T = pre ++ s /\ attempt fl r s = Some (s1, c)
       /\ forall p1 p2, pre = p1 ++ p2 -> p2 <> [] ->
                        attempt fl r (p2 ++ s) = None.
Proof.
  induction T as [|x T IH].
  - destruct (attempt fl r []) as [[s1 c]|] eqn:E.
    + right. exists [], [], s1, c. split; [reflexivity|]. split; [exact E|].
      intros p1 p2 Ep Hp. destruct p1, p2; try discriminate. congruence.
    + left. intros pre s Ep. symmetry in Ep. apply app_eq_nil in Ep.
      destruct Ep as [_ ->]. exact E.
  - destruct (attempt fl r (x :: T)) as [[s1 c]|] eqn:E.
    + right. exists [], (x :: T), s1, c. split; [reflexivity|].
      split; [exact E|].
      intros p1 p2 Ep Hp. destruct p1, p2; try discriminate. congruence.
    + destruct IH as [IH|(pre & s & s1 & c & -> & Ha & Hf)].
      * left. intros pre s Ep. destruct pre as [|y pre]; simpl in Ep.
        -- subst s. exact E.
        -- inversion Ep; subst. eapply IH. reflexivity.
      * right. exists (x :: pre), s, s1, c. split; [reflexivity|].
        split; [exact Ha|].
        intros p1 p2 Ep Hp. destruct p1 as [|y p1]; simpl in Ep.
        -- subst p2. exact E.
        -- inversion Ep; subst. eapply Hf; [reflexivity|exact Hp].
Qed.

End ReFacts.

(** ** Facts about the graph builder *)

Module KitFacts.
Import Py Re OpsKit Spec PyFacts ReFacts.

Lemma add_error_nodes sid st m :
  fst (add_error sid st m)
  = setdefault (err_id (normalize m))
               (error_node (err_id (normalize m)) (normalize m)) (fst st).
Proof. reflexivity. Qed.

(** The inner loop appends one edge per capture, in order. *)
Lemma fold_add_error_edges sid ms : forall st,
  snd (fold_left (add_error sid) ms st)
  = snd st
    ++ List.map (fun m => has_error sid (err_id (normalize m))) ms.
Proof.
  induction ms as [|m ms IH]; intros st; simpl.
  - symmetry; apply app_nil_r.
  - rewrite IH. simpl. rewrite <- app_assoc. reflexivity.
Qed.

Lemma fold_add_error_keys_mono sid ms : forall st k,
  In k (keys (fst st)) -> In k (keys (fst (fold_left (add_error sid) ms st))).
Proof.
  induction ms as [|m ms IH]; intros st k H; simpl; [exact H|].
  apply IH. rewrite add_error_nodes. apply setdefault_keys_mono; exact H.
Qed.

Lemma fold_add_error_keys_new sid ms : forall st m,
  In m ms ->
  In (err_id (normalize m)) (keys (fst (fold_left (add_error sid) ms st))).
Proof.
  induction ms as [|m0 ms IH]; intros st m; simpl; [contradiction|].
  intros [->|H]; [|apply IH; exact H].
  apply fold_add_error_keys_mono. rewrite add_error_nodes.
  apply setdefault_keys_self.
Qed.

(** *** The invariant of the two loops

    Keys are distinct, every node is stored under its own [id], and both
    ends of every edge are keys. *)
Record well_formed (st : state) : Prop := {
  wf_nodup : NoDup (keys (fst st));
  wf_ids : forall k v, In (k, v) (fst st) -> id v = k;
  wf_edges : forall e, In e (snd st) ->
                       In (from e) (keys (fst st)) /\ In (to e) (keys (fst st))
}.

Lemma well_formed_init : well_formed ([], []).
Proof. split; simpl; [constructor|contradiction|contradiction]. Qed.

Lemma setdefault_ids (d : dict node) k v :
  id v = k ->
  (forall k' v', In (k', v') d -> id v' = k') ->
  forall k' v', In (k', v') (setdefault k v d) -> id v' = k'.
Proof.
  intros Hv Hd k' v' H. apply setdefault_In in H.
  destruct H as [H|[H _]]; [eauto|]. inversion H; subst; reflexivity.
Qed.

Lemma add_error_wf sid st m :
  In sid (keys (fst st)) -> well_formed st -> well_formed (add_error sid st m).
Proof.
  intros Hsid [Hnd Hids Hed]. split.
  - rewrite add_error_nodes. apply setdefault_NoDup; exact Hnd.
  - rewrite add_error_nodes. apply setdefault_ids; auto.
  - rewrite add_error_nodes. simpl. intros e He.
    apply in_app_or in He. destruct He as [He|[<-|[]]].
    + destruct (Hed _ He). split; apply setdefault_keys_mono; assumption.
    + simpl. split; [apply setdefault_keys_mono; exact Hsid|].
      apply setdefault_keys_self.
Qed.

Lemma fold_add_error_wf sid ms : forall st,
  In sid (keys (fst st)) -> well_formed st ->
  well_formed (fold_left (add_error sid) ms st).
Proof.
  induction ms as [|m ms IH]; intros st Hsid Hwf; simpl; [exact Hwf|].
  apply IH.
  - rewrite add_error_nodes. apply setdefault_keys_mono; exact Hsid.
  - apply add_error_wf; assumption.
Qed.

(** A readable file, step by step. *)
Lemma process_file_regular st name content :
  process_file st (name, Regular content)
  = Ok (fold_left (add_error (stem name))
                  (findall ERR_FLAGS err_re (TextMode.read_text_of content))
                  (setdefault (stem name) (session_node (stem name)) (fst st),
                   snd st)).
Proof. reflexivity. Qed.

Lemma process_file_unreadable st name :
  process_file st (name, Unreadable) = Raise OSError.
Proof. reflexivity. Qed.

Lemma process_file_wf st p st' :
  process_file st p = Ok st' -> well_formed st -> well_formed st'.
Proof.
  destruct p as [name [content|]]; [|discriminate].
  rewrite process_file_regular. intros H [Hnd Hids Hed]. inversion H; subst.
  apply fold_add_error_wf.
  - simpl. apply setdefault_keys_self.
  - split; simpl.
    + apply setdefault_NoDup; exact Hnd.
    + apply setdefault_ids; auto.
    + intros e He. destruct (Hed _ He).
      split; apply setdefault_keys_mono; assumption.
Qed.

Lemma process_files_wf ps : forall st st',
  process_files st ps = Ok st' -> well_formed st -> well_formed st'.
Proof.
  induction ps as [|p ps IH]; intros st st'; simpl.
  - intros H; inversion H; subst; auto.
  - destruct (process_file st p) as [st1|e] eqn:E; simpl; [|discriminate].
    intros H Hwf. eapply IH; [exact H|].
    eapply process_file_wf; eassumption.
Qed.

(** What a file adds: nothing is lost, its stem becomes a key, and the
    new edges leave from its stem. *)
Lemma process_file_grows st p st' :
  process_file st p = Ok st' ->
  (forall k, In k (keys (fst st)) -> In k (keys (fst st'))) /\
  In (stem (fst p)) (keys (fst st')) /\
  (forall e, In e (snd st') -> In e (snd st) \/ from e = stem (fst p)).
Proof.
  destruct p as [name [content|]]; [|discriminate].
  rewrite process_file_regular. intros H; inversion H; subst; clear H.
  repeat split.
  - intros k Hk. apply fold_add_error_keys_mono. simpl.
    apply setdefault_keys_mono; exact Hk.
  - apply fold_add_error_keys_mono. simpl. apply setdefault_keys_self.
  - intros e. rewrite fold_add_error_edges. simpl. intros He.
    apply in_app_or in He. destruct He as [He|He]; [auto|].
    apply in_map_iff in He. destruct He as (m & <- & _). auto.
Qed.

Lemma process_files_grows ps : forall st st',
  process_files st ps = Ok st' ->
  (forall k, In k (keys (fst st)) -> In k (keys (fst st'))) /\
  (forall p, In p ps -> In (stem (fst p)) (keys (fst st'))) /\
  (forall e, In e (snd st') ->
             In e (snd st) \/ exists p, In p ps /\ from e = stem (fst p)).
Proof.
  induction ps as [|p ps IH]; intros st st'; simpl.
  - intros H; inversion H; subst. repeat split; auto. contradiction.
  - destruct (process_file st p) as [st1|e] eqn:E; simpl; [|discriminate].
    intros H. destruct (process_file_grows _ _ E) as (G1 & G2 & G3).
    destruct (IH _ _ H) as (I1 & I2 & I3).
    repeat split.
    + auto.
    + intros q [<-|Hq]; auto.
    + intros e He. destruct (I3 _ He) as [He1|(q & Hq & Hf)].
      * destruct (G3 _ He1); eauto.
      * eauto.
Qed.

(** The run stops at the first file that cannot be read, and only
    there. *)
Lemma process_files_ok ps : forall st,
  (forall p, In p ps -> exists content, snd p = Regular content) ->
  exists st', process_files st ps = Ok st'.
Proof.
  induction ps as [|[name o] ps IH]; intros st Hall; simpl; [eauto|].
  destruct (Hall (name, o) (or_introl eq_refl)) as [content Ho].
  simpl in Ho; subst o. rewrite process_file_regular. simpl.
  apply IH. intros p Hp. apply Hall. right; exact Hp.
Qed.

Lemma process_files_raise ps : forall st p,
  In p ps -> snd p = Unreadable -> process_files st ps = Raise OSError.
Proof.
  induction ps as [|[name o] ps IH]; intros st p; simpl; [contradiction|].
  intros [<-|Hp] Hu.
  - simpl in Hu; subst o. reflexivity.
  - destruct o as [content|]; [|reflexivity].
    rewrite process_file_regular. simpl. eapply IH; eassumption.
Qed.

Lemma memory_graph_ok log_dir out_ok rep :
  memory_graph log_dir out_ok = Ok rep ->
  exists st, process_files ([], []) (selected log_dir) = Ok st /\
             out_ok = true /\
             written rep = {| nodes := values (fst st); edges := snd st |}.
Proof.
  unfold memory_graph.
  destruct (process_files ([], []) (selected log_dir)) as [st|e]; simpl;
    [|discriminate].
  destruct out_ok; [|discriminate].
  intros H; inversion H; subst. exists st. auto.
Qed.

Lemma key_has_node (st : state) k :
  well_formed st -> In k (keys (fst st)) ->
  exists n, In n (values (fst st)) /\ id n = k.
Proof.
  intros [_ Hids _] Hk. unfold keys in Hk. apply in_map_iff in Hk.
  destruct Hk as ([k' v] & <- & Hin). exists v. split.
  - unfold values. apply in_map_iff. exists (k', v). auto.
  - eapply Hids; exact Hin.
Qed.

(** *** Selection *)

Lemma glob_log_names log_dir p :
  In p (glob_log log_dir) -> endswith (fst p) (str ".log") = true.
Proof.
  destruct log_dir as [entries|]; simpl; [|contradiction].
  intros H. apply filter_In in H. tauto.
Qed.

Lemma glob_log_all entries :
  (forall p, In p entries -> endswith (fst p) (str ".log") = true) ->
  glob_log (Some entries) = entries.
Proof.
  intros H. simpl. induction entries as [|p ps IH]; simpl; [reflexivity|].
  rewrite (H p (or_introl eq_refl)). f_equal. apply IH.
  intros q Hq. apply H. right; exact Hq.
Qed.

Lemma selected_incl log_dir p :
  In p (selected log_dir) -> In p (glob_log log_dir).
Proof.
  unfold selected, slice_last. intros H.
  apply (Permutation_in _ (sorted_perm (@fst text fobj) (glob_log log_dir))).
  rewrite <- (firstn_skipn (length (sorted (@fst text fobj) (glob_log log_dir))
                            - WINDOW)).
  apply in_or_app; right; exact H.
Qed.

(** Selecting again among the selected files changes nothing. *)
Lemma selected_idem log_dir :
  selected (Some (selected log_dir)) = selected log_dir.
Proof.
  unfold selected at 1.
  rewrite glob_log_all.
  - rewrite sorted_id.
    + apply slice_last_all. unfold selected.
      rewrite slice_last_length. apply Nat.le_min_l.
    + unfold selected, slice_last. apply StronglySorted_skipn.
      apply sorted_sorted.
  - intros p Hp. eapply glob_log_names. eapply selected_incl; exact Hp.
Qed.

(** *** Kinds

    Every stored node is either the Session node of a file among [ps],
    under the stem of that file, or an Error node under [err:] and its
    key. *)
Definition typed (ps : list (text * fobj)) (st : state) : Prop :=
  forall k v, In (k, v) (fst st) ->
    (v = session_node k /\ exists p, In p ps /\ k = stem (fst p))
    \/ (exists key, k = err_id key /\ v = error_node k key).

Lemma fold_add_error_typed ps sid ms : forall st,
  typed ps st -> typed ps (fold_left (add_error sid) ms st).
Proof.
  induction ms as [|m ms IH]; intros st Ht; simpl; [exact Ht|].
  apply IH. intros k v. rewrite add_error_nodes. intros Hin.
  apply setdefault_In in Hin. destruct Hin as [Hin|[Hin _]]; [auto|].
  inversion Hin; subst. right. eauto.
Qed.

Lemma process_files_typed ps qs : forall st st',
  incl qs ps -> typed ps st -> process_files st qs = Ok st' -> typed ps st'.
Proof.
  induction qs as [|[name o] qs IH]; intros st st' Hincl Ht; simpl.
  - intros H; inversion H; subst; exact Ht.
  - destruct o as [content|]; [|discriminate].
    rewrite process_file_regular. simpl. apply IH.
    + intros q Hq. apply Hincl. right; exact Hq.
    + apply fold_add_error_typed. intros k v Hin. simpl in Hin.
      apply setdefault_In in Hin. destruct Hin as [Hin|[Hin _]]; [auto|].
      inversion Hin; subst. left. split; [reflexivity|].
      exists (name, Regular content). split; [|reflexivity].
      apply Hincl. left; reflexivity.
Qed.

(** The edges of a run: those of each file, file after file. *)
Lemma process_files_edges qs : forall st st',
  process_files st qs = Ok st' -> snd st' = snd st ++ flat_map edges_of qs.
Proof.
  induction qs as [|[name o] qs IH]; intros st st'; simpl.
  - intros H; inversion H; subst. symmetry; apply app_nil_r.
  - destruct o as [content|]; [|discriminate].
    rewrite process_file_regular. simpl. intros H.
    rewrite (IH _ _ H), fold_add_error_edges. simpl.
    unfold edges_of at 2, captures. simpl. symmetry; apply app_assoc.
Qed.

Lemma find_key (st : state) k :
  well_formed st -> In k (keys (fst st)) ->
  exists v, find (fun n => text_eqb (id n) k) (values (fst st)) = Some v
            /\ In (k, v) (fst st).
Proof.
  intros Hwf Hk. destruct (@key_has_node st k Hwf Hk) as (n & Hn & Hid).
  destruct (find (fun n => text_eqb (id n) k) (values (fst st))) as [v|] eqn:F.
  - exists v. split; [reflexivity|].
    apply find_some in F. destruct F as [Hv Hv'].
    apply text_eqb_eq in Hv'. unfold values in Hv. apply in_map_iff in Hv.
    destruct Hv as ([k' v'] & <- & Hin). simpl in Hv'.
    rewrite (@wf_ids st Hwf _ _ Hin) in Hv'. subst k'. exact Hin.
  - pose proof (find_none _ _ F n Hn) as C. simpl in C.
    rewrite Hid, text_eqb_refl in C. discriminate.
Qed.

Lemma filter_single (d : dict node) (f : node -> bool) k v :
  NoDup (keys d) -> In (k, v) d -> f v = true ->
  (forall k' v', In (k', v') d -> f v' = true -> k' = k) ->
  filter f (values d) = [v].
Proof.
  induction d as [|[k0 v0] d IH]; simpl; [contradiction|].
  intros Hnd Hin Hf Hall. inversion Hnd as [|? ? Hnotin Hnd']; subst.
  assert (Rest : forall v', In v' (values d) -> k0 = k -> f v' = false).
  { intros v' Hv' ->. destruct (f v') eqn:E; [|reflexivity]. exfalso.
    unfold values in Hv'. apply in_map_iff in Hv'.
    destruct Hv' as ([k' v''] & <- & Hin'). simpl in E.
    assert (k' = k) by (eapply Hall; [right; exact Hin'|exact E]).
    subst k'. apply Hnotin. unfold keys. apply in_map_iff.
    exists (k, v''). auto. }
  destruct Hin as [Hin|Hin].
  - inversion Hin; subst. rewrite Hf. f_equal.
    clear - Rest. induction (values d) as [|v' l IHl]; simpl; [reflexivity|].
    rewrite (Rest v' (or_introl eq_refl) eq_refl).
    apply IHl. intros v'' Hv'' E. apply Rest; [right; exact Hv''|exact E].
  - destruct (f v0) eqn:E0.
    + exfalso. assert (k0 = k) by (eapply Hall; [left; reflexivity|exact E0]).
      subst k0. apply Hnotin. unfold keys. apply in_map_iff.
      exists (k, v). auto.
    + apply IH; auto. intros k' v' Hin' Hf'. eapply Hall; [right|]; eassumption.
Qed.

Lemma err_id_inj k k' : err_id k = err_id k' -> k = k'.
Proof. unfold err_id. apply app_inv_head. Qed.

(** Apart from the collision of names, the graph is bipartite: every
    edge runs from a Session node to an Error node. *)
Theorem bipartite_without_collision log_dir out_ok rep :
  memory_graph log_dir out_ok = Ok rep ->
  no_collision (selected log_dir) ->
  forall e, In e (edges (written rep)) ->
            bipartite_edge (written rep) e = true.
Proof.
  intros Hrun Hnc e He.
  destruct (@memory_graph_ok _ _ _ Hrun) as (st & Hst & _ & Hw).
  rewrite Hw in *. simpl in He.
  pose proof (@process_files_wf _ _ _ Hst well_formed_init) as Hwf.
  assert (Ht : typed (selected log_dir) st).
  { eapply process_files_typed; [apply incl_refl| |exact Hst].
    intros k v []. }
  destruct (@wf_edges st Hwf e He) as [Hf Hto].
  rewrite (@process_files_edges _ _ _ Hst) in He. simpl in He.
  apply in_flat_map in He. destruct He as (p & Hp & He).
  unfold edges_of in He. apply in_map_iff in He.
  destruct He as (m & <- & _). simpl in Hf, Hto.
  destruct (@find_key st _ Hwf Hf) as (a & Fa & Ha).
  destruct (@find_key st _ Hwf Hto) as (b & Fb & Hb).
  unfold bipartite_edge, node_of. simpl. rewrite Fa, Fb.
  destruct (Ht _ _ Ha) as [[-> _]|(key & E & _)];
    [|exfalso; exact (Hnc p key Hp E)].
  destruct (Ht _ _ Hb) as [[_ (q & Hq & E)]|(key & _ & ->)];
    [exfalso; exact (Hnc q _ Hq (eq_sym E))|].
  reflexivity.
Qed.

(** Apart from the collision of names, a message text that was met, once
    or many times, in one file or several, has exactly one Error node;
    and the edges are one per capture, in all cases. *)
Theorem error_node_registered_once log_dir out_ok rep :
  memory_graph log_dir out_ok = Ok rep ->
  edges (written rep) = flat_map edges_of (selected log_dir)
  /\ NoDup (List.map id (nodes (written rep)))
  /\ forall k,
       In (err_id k) (List.map to (edges (written rep))) ->
       (forall p, In p (selected log_dir) -> stem (fst p) <> err_id k) ->
       error_nodes_for (written rep) k = [error_node (err_id k) k].
Proof.
  intros Hrun.
  destruct (@memory_graph_ok _ _ _ Hrun) as (st & Hst & _ & Hw).
  rewrite Hw in *. simpl.
  pose proof (@process_files_wf _ _ _ Hst well_formed_init) as Hwf.
  assert (Ht : typed (selected log_dir) st).
  { eapply process_files_typed; [apply incl_refl| |exact Hst].
    intros k v []. }
  split; [exact (@process_files_edges _ _ _ Hst)|]. split.
  - assert (E : List.map id (values (fst st)) = keys (fst st)).
    { unfold values, keys. rewrite map_map. apply map_ext_in.
      intros [k v] Hin. simpl. eapply wf_ids; eassumption. }
    rewrite E. apply (@wf_nodup st Hwf).
  - intros k Hin Hnc. apply in_map_iff in Hin.
    destruct Hin as (e & Hto & He).
    destruct (@wf_edges st Hwf e He) as [_ Hkey]. rewrite Hto in Hkey.
    unfold keys in Hkey. apply in_map_iff in Hkey.
    destruct Hkey as ([k0 v] & Hk0 & Hv). simpl in Hk0. subst k0.
    assert (v = error_node (err_id k) k) as ->.
    { destruct (Ht _ _ Hv) as [[_ (q & Hq & E)]|(key & E & ->)].
      - exfalso. exact (Hnc q Hq (eq_sym E)).
      - apply err_id_inj in E. subst key. reflexivity. }
    unfold error_nodes_for. simpl.
    eapply filter_single; [apply (@wf_nodup st Hwf)|exact Hv| |].
    + simpl. apply text_eqb_refl.
    + intros k' v' Hin' Hf.
      destruct (Ht _ _ Hin') as [[-> _]|(key & -> & ->)];
        [discriminate Hf|].
      simpl in Hf. apply text_eqb_eq in Hf. subst key. reflexivity.
Qed.

End KitFacts.

(** ** The model on known inputs *)

Module Checks.
Import Py Re OpsKit Spec.

Definition nl : string := Demo.newline.

Definition found (s : string) : list text :=
  findall ERR_FLAGS err_re (str s).

Example show_err_re :
  show err_re = str "ERROR\s+.*message=(.+?)\s+(?:code=|fatal|$)".
Proof. reflexivity. Qed.

Example show_rules :
  List.map (fun r => show (fst r)) rules
  = [ str "fallbackModels is empty|No fallback models configured";
      str "Model not found: anthropic/haiku";
      str "Cannot find package 'react'.*zustand";
      str "BunInstallFailedError|EBUSY";
      str "ENOENT: no such file or directory, mkdir.*opencode-token-monitor" ].
Proof. reflexivity. Qed.

(** The greedy [.*] goes to the last [message=] of the line. *)
Example last_message_of_the_line :
  found "ERROR a message=x message=y code=1" = [str "y"]
  /\ found "ERROR m message=a code=1 ERROR n message=b code=2" = [str "b"].
Proof. vm_compute. auto. Qed.

Example one_capture_per_line :
  found ("ERROR m message=a code=1" ++ nl ++ "ERROR n message=b code=2")
  = [str "a"; str "b"].
Proof. vm_compute. reflexivity. Qed.

(** [$] is the end of the text, not the end of a line. *)
Example end_of_text_only :
  found ("ERROR message=foo" ++ nl ++ "next line" ++ nl) = []
  /\ found ("ERROR message=foo" ++ nl) = [str "foo"]
  /\ found ("ERROR message=foo " ++ nl) = [str "foo"]
  /\ found "ERROR message=foo" = [].
Proof. vm_compute. auto. Qed.

(** White space may be a newline: the marker and the message may sit on
    different lines, and so may the message and its terminator. *)
Example white_space_spans_lines :
  found ("ERROR" ++ nl ++ " foo message=x code=") = [str "x"]
  /\ found ("ERROR message=foo" ++ nl ++ "code=1") = [str "foo"].
Proof. vm_compute. auto. Qed.

Example any_letter_case :
  found "error x MESSAGE=q FATAL" = [str "q"].
Proof. vm_compute. reflexivity. Qed.

Example inner_blanks_are_kept :
  found "ERROR message=a b  c fatalx" = [str "a b  c"]
  /\ found "ERROR message=  code=" = [str " "].
Proof. vm_compute. auto. Qed.

Example stems :
  List.map stem [str "a.log"; str "a.b.log"; str ".log"; str "err:x.log"]
  = [str "a"; str "a.b"; str ".log"; str "err:x"].
Proof. reflexivity. Qed.

(** Hidden files match [*.log]; the match is on the end of the name. *)
Example glob_by_suffix :
  List.map (@fst text fobj)
    (glob_log (Some [ (str ".log", Unreadable); (str "a.log", Unreadable);
                      (str "b.LOG", Unreadable); (str "c.log.txt", Unreadable);
                      (str "log", Unreadable) ]))
  = [str ".log"; str "a.log"].
Proof. reflexivity. Qed.

(** [a], a stray FF, [b], a cut sequence before [z], the euro sign, an
    overlong form, a surrogate, and a sequence cut by the end. *)
Example decode_ignores :
  utf8_ignore [x61; xff; x62; xe2; x82; x7a; xe2; x82; xac; xc0; x80;
               xed; xa0; x80; xf0; x9f]
  = [97; 98; 122; 8364]%N.
Proof. reflexivity. Qed.

(** Text mode turns each carriage return into a newline, so both errors
    of this log are captured. *)
Example carriage_returns_end_lines :
  List.map captures (selected Demo.old_mac_log) = [[str "x"; str "y"]]
  /\ match memory_graph Demo.old_mac_log true with
     | Ok rep => node_count rep = 3 /\ edge_count rep = 2
     | Raise _ => False
     end.
Proof. vm_compute. auto. Qed.

Example strip_both_ends :
  strip ([32; 28] ++ str "a b" ++ [9; 12288; 10])%N = str "a b".
Proof. reflexivity. Qed.

Example two_sessions_share_an_error :
  written Demo.two_sessions_report
  = {| nodes := [ session_node (str "a");
                  error_node (str "err:disk full") (str "disk full");
                  session_node (str "b") ];
       edges := [ has_error (str "a") (str "err:disk full");
                  has_error (str "b") (str "err:disk full") ] |}
  /\ memory_graph Demo.two_sessions true = Ok Demo.two_sessions_report.
Proof. vm_compute. auto. Qed.

End Checks.

(** * The claims *)

Import Py Re OpsKit Spec Utf8 PyFacts DecodeFacts ReFacts KitFacts.

(** ** The signature matcher *)

Lemma scan_fold (T : text) (R : list (re * text)) : forall hits out,
  fold_left (scan_step T) R (hits, out)
  = (hits + length (firing R T), out ++ flat_map match_lines (firing R T)).
Proof.
  induction R as [|[pattern fix_] R IH]; intros hits out; simpl.
  - rewrite Nat.add_0_r, app_nil_r. reflexivity.
  - destruct (search RUNBOOK_FLAGS pattern T); simpl.
    + rewrite IH. f_equal; [lia|]. rewrite <- app_assoc. reflexivity.
    + apply IH.
Qed.

Lemma scan_firing (R : list (re * text)) (T : text) :
  scan R T = (length (firing R T), flat_map match_lines (firing R T)).
Proof. unfold scan. rewrite scan_fold. reflexivity. Qed.

(** C5: for every ordered rule list [R] and text [T] the matcher reports
    exactly the rules of [R] whose pattern is found in [T], in the order
    of [R]; whether a rule is reported depends on that rule and the text
    alone, not on the rules before it.  [runbook] prints these reports
    for its own rule list. *)
Theorem C5_matches_in_declared_order (R : list (re * text)) (T : text) :
  scan R T = (length (firing R T), flat_map match_lines (firing R T))
  /\ (forall r, In r (firing R T)
                <-> In r R /\ search RUNBOOK_FLAGS (fst r) T = true)
  /\ (forall R1 R2, R = R1 ++ R2 -> firing R T = firing R1 T ++ firing R2 T)
  /\ (forall log_file content,
         read_text (Regular content) = Ok T ->
         runbook log_file (Some (Regular content))
         = Ok (match firing rules T with
               | [] => [str "No known runbook signatures found."]
               | _ :: _ => flat_map match_lines (firing rules T)
               end, 0%Z)).
Proof.
  split; [apply scan_firing|]. split; [|split].
  - intros r. unfold firing. rewrite filter_In. reflexivity.
  - intros R1 R2 ->. unfold firing. apply filter_app.
  - intros log_file content E. unfold runbook. rewrite E. unfold bind.
    rewrite scan_firing.
    destruct (firing rules T); reflexivity.
Qed.

Lemma C5_witness :
  runbook (str "run.log")
          (Some (Regular (bytes_of "EBUSY then Model not found: anthropic/haiku")))
  = Ok ([str "MATCH: Model not found: anthropic/haiku";
         str "FIX:   Replace with anthropic/claude-haiku-4-5.";
         str "MATCH: BunInstallFailedError|EBUSY";
         str "FIX:   Close concurrent opencode runs and retry once; lock contention on cache."],
        0%Z).
Proof.
  rewrite (proj2 (proj2 (proj2
            (C5_matches_in_declared_order rules
               (str "EBUSY then Model not found: anthropic/haiku"))))
            (str "run.log")
            (bytes_of "EBUSY then Model not found: anthropic/haiku")
            eq_refl).
  vm_compute. reflexivity.
Defined.

Lemma search_lit (fl : flags) (p pre mid post : text) :
  lit_equal fl p mid = true ->
  search fl (lit_text p) (pre ++ mid ++ post) = true.
Proof.
  intros H. apply search_true_iff.
  exists pre, (mid ++ post), post, None. split; [reflexivity|].
  apply matches_lit; exact H.
Qed.

Example haiku_rule_is_second : nth_error rules 1 = Some Demo.haiku_rule.
Proof. reflexivity. Qed.

(** C2, as the code has it: given the rule with pattern
    [Model not found: anthropic/haiku] and that remediation, and a text
    (of any number of lines) that contains the signature unbroken, in any
    letter case, the matcher returns exactly one match, carrying that
    remediation, and [runbook]'s own rule list reports the rule too.  The
    pattern has no wild card, so its blank matches a blank only. *)
Theorem C2_haiku_signature_unbroken (pre mid post : text) :
  lit_equal RUNBOOK_FLAGS (str "Model not found: anthropic/haiku") mid = true ->
  scan [Demo.haiku_rule] (pre ++ mid ++ post)
  = (1, [str "MATCH: Model not found: anthropic/haiku";
         str "FIX:   Replace with anthropic/claude-haiku-4-5."])
  /\ In Demo.haiku_rule (firing rules (pre ++ mid ++ post)).
Proof.
  intros H.
  assert (S : search RUNBOOK_FLAGS (fst Demo.haiku_rule) (pre ++ mid ++ post)
              = true) by (apply search_lit; exact H).
  split.
  - rewrite scan_firing. unfold firing. cbn [filter]. rewrite S. reflexivity.
  - unfold firing. apply filter_In. split; [|exact S].
    right; left; reflexivity.
Qed.

Lemma C2_witness :
  scan [Demo.haiku_rule] Demo.haiku_on_second_line
  = (1, [str "MATCH: Model not found: anthropic/haiku";
         str "FIX:   Replace with anthropic/claude-haiku-4-5."])
  /\ In Demo.haiku_rule (firing rules Demo.haiku_on_second_line).
Proof.
  exact (C2_haiku_signature_unbroken
           (str "12:00 INFO start" ++ [NL] ++ str "12:01 ERROR ")
           (str "model NOT found: Anthropic/Haiku")
           [NL] eq_refl).
Defined.

(** C2 as stated fails: with a newline in the place of the blank, or put
    after it, the rule does not match and nothing is returned. *)
Lemma C2_counterexample :
  scan [Demo.haiku_rule] Demo.haiku_newline_for_blank = (0, [])
  /\ scan [Demo.haiku_rule] Demo.haiku_newline_inserted = (0, [])
  /\ firing rules Demo.haiku_newline_for_blank = [].
Proof. vm_compute. auto. Qed.

(** C7, as the code has it: a scanned source that does not exist makes
    the matcher report a failure (one FAIL line, return code 1); a source
    that exists and is empty is a success with no match (return code 0).
    A log directory that does not exist is not noticed by the graph
    builder: no file is selected and the run succeeds with an empty
    graph. *)
Theorem C7_absent_inputs (log_file : text) :
  runbook log_file None
  = Ok ([str "FAIL: missing log file " ++ log_file], 1%Z)
  /\ runbook log_file (Some (Regular []))
     = Ok ([str "No known runbook signatures found."], 0%Z)
  /\ scan rules [] = (0, [])
  /\ selected None = []
  /\ memory_graph None true
     = Ok {| written := {| nodes := []; edges := [] |};
             node_count := 0; edge_count := 0; rc := 0%Z |}.
Proof. repeat split. Qed.

(** C7 as stated fails on both halves: the matcher does not succeed on a
    missing source, and the builder does succeed on a missing
    directory. *)
Lemma C7_counterexample :
  (forall out, runbook (str "missing.log") None <> Ok (out, 0%Z))
  /\ (exists rep, memory_graph None true = Ok rep /\ rc rep = 0%Z
                  /\ nodes (written rep) = [] /\ edges (written rep) = []).
Proof.
  split.
  - intros out H. discriminate H.
  - eexists. repeat split.
Qed.

(** ** The session graph builder: reading *)

Lemma to_byte_to_N (b : byte) : to_byte (Byte.to_N b) = b.
Proof. unfold to_byte. rewrite Byte.of_to_N. reflexivity. Qed.

(** The decodable part of a file is the file with some bytes left out;
    it is the UTF-8 form of the text decoded from the file, and decodes
    to that text. *)
Lemma decodable_part_spec (content : list byte) :
  subsequence (decodable_part content) content
  /\ Forall (fun c => scalar c = true) (utf8_ignore content)
  /\ List.map Byte.to_N (decodable_part content)
     = flat_map encode (utf8_ignore content)
  /\ utf8_ignore (decodable_part content) = utf8_ignore content.
Proof.
  unfold decodable_part, utf8_ignore.
  destruct (decode_n_keeps (List.map Byte.to_N content)) as [F S].
  destruct (subsequence_map_inv Byte.to_N content _ S) as (kept & E & K).
  assert (D : List.map to_byte
                (flat_map encode (decode_n (List.map Byte.to_N content)))
              = kept).
  { rewrite E, map_map. rewrite <- (map_id kept) at 2.
    apply map_ext. apply to_byte_to_N. }
  rewrite D. split; [exact K|]. split; [exact F|]. split; [symmetry; exact E|].
  rewrite <- E, <- (app_nil_r (flat_map encode _)).
  rewrite (decode_encode_all _ [] F). apply app_nil_r.
Qed.

Lemma read_text_cleaned (o : fobj) :
  read_text (without_undecodable o) = read_text o.
Proof.
  destruct o as [content|]; [|reflexivity]. simpl.
  unfold TextMode.read_text_of.
  rewrite (proj2 (proj2 (proj2 (decodable_part_spec content)))).
  reflexivity.
Qed.

Lemma process_files_cleaned (ps : list (text * fobj)) : forall st,
  process_files st
    (List.map (fun p => (fst p, without_undecodable (snd p))) ps)
  = process_files st ps.
Proof.
  induction ps as [|p ps IH]; intros st; [reflexivity|].
  cbn [List.map process_files]. unfold process_file. cbn [fst snd].
  rewrite read_text_cleaned.
  destruct (read_text (snd p)) as [txt|e]; [|reflexivity].
  cbn [bind]. apply IH.
Qed.

Lemma insert_sorted_map {A} (key : A -> text) (g : A -> A) :
  (forall x, key (g x) = key x) ->
  forall x l, insert_sorted key (g x) (List.map g l)
              = List.map g (insert_sorted key x l).
Proof.
  intros Hk x l. induction l as [|y l IH]; [reflexivity|].
  cbn [List.map insert_sorted]. rewrite !Hk.
  destruct (text_leb (key x) (key y)); [reflexivity|].
  rewrite IH. reflexivity.
Qed.

Lemma sorted_map {A} (key : A -> text) (g : A -> A) :
  (forall x, key (g x) = key x) ->
  forall l, sorted key (List.map g l) = List.map g (sorted key l).
Proof.
  intros Hk l. induction l as [|x l IH]; [reflexivity|].
  cbn [List.map]. unfold sorted in *. cbn [fold_right].
  rewrite IH. apply insert_sorted_map. exact Hk.
Qed.

Lemma selected_cleaned (log_dir : option directory) :
  selected (cleaned log_dir)
  = List.map (fun p => (fst p, without_undecodable (snd p)))
             (selected log_dir).
Proof.
  destruct log_dir as [entries|]; [|reflexivity].
  unfold selected, slice_last, cleaned, glob_log, option_map.
  set (g := fun p : text * fobj => (fst p, without_undecodable (snd p))).
  assert (G : filter (fun p => endswith (fst p) (str ".log"))
                     (List.map g entries)
              = List.map g (filter (fun p => endswith (fst p) (str ".log"))
                                   entries)).
  { induction entries as [|p ps IH]; [reflexivity|].
    cbn [List.map filter]. rewrite IH. cbn [g fst].
    destruct (endswith (fst p) (str ".log")); reflexivity. }
  rewrite G, (sorted_map (@fst text fobj) g (fun x => eq_refl)).
  rewrite length_map, skipn_map. reflexivity.
Qed.

(** C8, as the code has it: bytes that cannot be decoded do not stop the
    run; they are dropped and the file is processed as if they were not
    there, so a run over files that can be read always finishes.  What
    is dropped of a file and what is kept: the text read is made of
    scalar values, its UTF-8 form is the file with some bytes left out,
    and every well-formed stretch of the file is in the text, wherever
    it stands; the run is the same on the files cut down to these
    bytes.  A selected file that cannot be read is not isolated: the
    read error leaves the loop and the run ends with it, nothing being
    written. *)
Theorem C8_decoding_tolerant_reading_not (log_dir : option directory) :
  ((forall p, In p (selected log_dir) -> exists content, snd p = Regular content)
   -> exists rep, memory_graph log_dir true = Ok rep)
  /\ (forall out_ok,
        (exists p, In p (selected log_dir) /\ snd p = Unreadable) ->
        memory_graph log_dir out_ok = Raise OSError)
  /\ (forall content,
        subsequence (decodable_part content) content
        /\ Forall (fun c => scalar c = true) (utf8_ignore content)
        /\ List.map Byte.to_N (decodable_part content)
           = flat_map encode (utf8_ignore content)
        /\ read_text (Regular (decodable_part content))
           = read_text (Regular content)
        /\ forall st name,
             process_file st (name, Regular (decodable_part content))
             = process_file st (name, Regular content))
  /\ (forall content a cs b,
        List.map Byte.to_N content = a ++ flat_map encode cs ++ b ->
        cs <> [] -> Forall (fun c => scalar c = true) cs ->
        utf8_ignore content = decode_n a ++ cs ++ decode_n b)
  /\ (forall out_ok,
        memory_graph (cleaned log_dir) out_ok = memory_graph log_dir out_ok).
Proof.
  split; [|split; [|split; [|split]]].
  - intros Hall. unfold memory_graph.
    destruct (@process_files_ok (selected log_dir) ([], []) Hall) as [st ->].
    simpl. eauto.
  - intros out_ok (p & Hp & Hu). unfold memory_graph.
    rewrite (@process_files_raise (selected log_dir) ([], []) p Hp Hu).
    reflexivity.
  - intros content.
    destruct (decodable_part_spec content) as (S & F & E & D).
    pose proof (read_text_cleaned (Regular content)) as R.
    split; [exact S|]. split; [exact F|]. split; [exact E|].
    split; [exact R|].
    intros st name. unfold process_file. cbn [fst snd].
    change (Regular (decodable_part content))
      with (without_undecodable (Regular content)).
    rewrite R. reflexivity.
  - intros content a cs b E Hne Hs. unfold utf8_ignore. rewrite E.
    apply decode_embedded; assumption.
  - intros out_ok. unfold memory_graph.
    rewrite selected_cleaned, process_files_cleaned. reflexivity.
Qed.

Lemma C8_witness :
  (exists rep, memory_graph Demo.two_sessions true = Ok rep)
  /\ memory_graph Demo.one_unreadable true = Raise OSError
  /\ utf8_ignore [xe2; x82; x45; xc3; xa9; xe2; x82; xac; xff; x21]
     = decode_n [226; 130; 69]%N ++ [233; 8364]%N ++ decode_n [255; 33]%N.
Proof.
  split; [|split].
  - apply (proj1 (C8_decoding_tolerant_reading_not Demo.two_sessions)).
    vm_compute. intros p [<-|[<-|[]]]; eexists; reflexivity.
  - apply (proj1 (proj2 (C8_decoding_tolerant_reading_not Demo.one_unreadable))).
    exists (str "a.log", Unreadable). vm_compute. auto.
  - apply (proj1 (proj2 (proj2 (proj2
             (C8_decoding_tolerant_reading_not None))))).
    + reflexivity.
    + discriminate.
    + repeat constructor.
Defined.

(** A stray byte, the start of a sequence that is not continued, and a
    sequence cut by the end of the file are what is left out. *)
Example decodable_part_of_a_file :
  decodable_part [x45; xff; x52; xe2; x82; x52; xc3; xa9; xf0; x9f]
  = [x45; x52; x52; xc3; xa9]
  /\ utf8_ignore [x45; xff; x52; xe2; x82; x52; xc3; xa9; xf0; x9f]
     = [69; 82; 82; 233]%N.
Proof. vm_compute. auto. Qed.

(** C8 as stated fails: one unreadable log among the selected ones ends
    the run, although the other log could have been processed. *)
Lemma C8_counterexample :
  memory_graph Demo.one_unreadable true = Raise OSError
  /\ In (str "a.log", Unreadable) (selected Demo.one_unreadable)
  /\ forall rep, memory_graph Demo.one_unreadable true <> Ok rep.
Proof.
  split; [reflexivity|]. split; [vm_compute; auto|].
  intros rep H. discriminate H.
Qed.

(** ** The session graph builder: keys *)

(** C6, as the code has it: the key of a captured message is its trimmed
    text cut to 200 characters, so its length is the smaller of 200 and
    the trimmed length; it is 200 as soon as the trimmed text has 200
    characters or more (a message of 201 characters without surrounding
    white space, say).  Two messages whose trimmed texts agree on the
    first 200 characters get the same key and the same node identity, and
    registering the second one adds no node. *)
Theorem C6_key_is_trimmed_and_cut (m : text) :
  normalize m = firstn 200 (strip m)
  /\ length (normalize m) = Nat.min 200 (length (strip m))
  /\ (200 <= length (strip m) -> length (normalize m) = 200)
  /\ (forall m',
        firstn 200 (strip m') = firstn 200 (strip m) ->
        normalize m' = normalize m
        /\ err_id (normalize m') = err_id (normalize m)
        /\ forall sid sid' st,
             fst (add_error sid' (add_error sid st m) m')
             = fst (add_error sid st m)).
Proof.
  assert (L : length (normalize m) = Nat.min 200 (length (strip m)))
    by (unfold normalize, slice_to, KEY_LEN; apply length_firstn).
  split; [reflexivity|]. split; [exact L|]. split; [lia|].
  intros m' E.
  assert (N : normalize m' = normalize m) by exact E.
  split; [exact N|]. split; [rewrite N; reflexivity|].
  intros sid sid' st. rewrite add_error_nodes, N.
  apply setdefault_present. rewrite add_error_nodes.
  apply setdefault_keys_self.
Qed.

Lemma C6_witness :
  length (normalize (repeat 120%N 201)) = 200
  /\ err_id (normalize (repeat 120%N 200 ++ str "A"))
     = err_id (normalize (repeat 120%N 200 ++ str "B  ")).
Proof.
  split.
  - apply (proj1 (proj2 (proj2 (C6_key_is_trimmed_and_cut (repeat 120%N 201))))).
    vm_compute. repeat constructor.
  - apply (proj2 (proj2 (proj2
             (C6_key_is_trimmed_and_cut (repeat 120%N 200 ++ str "B  "))))
             (repeat 120%N 200 ++ str "A")).
    vm_compute. reflexivity.
Defined.

(** C6 as stated fails: the pattern captures leading white space, and a
    captured message of 201 characters that starts with two blanks gets a
    key of 199 characters. *)
Lemma C6_counterexample :
  findall ERR_FLAGS err_re Demo.padded_log = [Demo.padded_message]
  /\ length Demo.padded_message = 201
  /\ length (normalize Demo.padded_message) = 199.
Proof. vm_compute. auto. Qed.

(** ** The session graph builder: selection *)

(** C3: the builder processes the files of the directory that match
    [*.log], sorted by name ascending, cut to the last 200: the sorted
    list is the matching files in order, the selected files are its end
    (whatever is left out sorts before them), there are as many as the
    smaller of 200 and the count, every file when there are at most 200,
    and the run is the run over the selected files alone: each of them
    gives a node, every edge leaves from one of them, and the files left
    out change nothing. *)
Theorem C3_last_window_of_sorted_logs (log_dir : option directory) :
  Permutation (sorted (@fst text fobj) (glob_log log_dir)) (glob_log log_dir)
  /\ StronglySorted (fun p q => text_leb (fst p) (fst q) = true)
                    (sorted (@fst text fobj) (glob_log log_dir))
  /\ (exists ignored,
        sorted (@fst text fobj) (glob_log log_dir)
        = ignored ++ selected log_dir
        /\ length ignored = length (glob_log log_dir) - WINDOW
        /\ forall p q, In p ignored -> In q (selected log_dir) ->
                       text_leb (fst p) (fst q) = true)
  /\ length (selected log_dir) = Nat.min WINDOW (length (glob_log log_dir))
  /\ (length (glob_log log_dir) <= WINDOW ->
      selected log_dir = sorted (@fst text fobj) (glob_log log_dir))
  /\ (forall out_ok,
        memory_graph log_dir out_ok
        = memory_graph (Some (selected log_dir)) out_ok)
  /\ (forall out_ok rep,
        memory_graph log_dir out_ok = Ok rep ->
        (forall p, In p (selected log_dir) ->
                   exists n, In n (nodes (written rep))
                             /\ id n = stem (fst p))
        /\ (forall e, In e (edges (written rep)) ->
                      exists p, In p (selected log_dir)
                                /\ from e = stem (fst p))).
Proof.
  pose proof (sorted_perm (@fst text fobj) (glob_log log_dir)) as HP.
  pose proof (sorted_sorted (@fst text fobj) (glob_log log_dir)) as HS.
  assert (HL : length (sorted (@fst text fobj) (glob_log log_dir))
               = length (glob_log log_dir))
    by (apply Permutation_length; exact HP).
  split; [exact HP|]. split; [exact HS|]. split; [|split; [|split; [|split]]].
  - exists (firstn (length (sorted (@fst text fobj) (glob_log log_dir)) - WINDOW)
                   (sorted (@fst text fobj) (glob_log log_dir))).
    split; [apply slice_last_split|]. split.
    + rewrite length_firstn, HL. lia.
    + intros p q Hp Hq.
      refine (@StronglySorted_app_le _ (@fst text fobj) _ _ _ p q Hp Hq).
      unfold selected. rewrite <- slice_last_split. exact HS.
  - unfold selected. rewrite slice_last_length, HL. reflexivity.
  - intros Hle. unfold selected. apply slice_last_all. rewrite HL. exact Hle.
  - intros out_ok. unfold memory_graph. rewrite selected_idem. reflexivity.
  - intros out_ok rep Hrun.
    destruct (@memory_graph_ok _ _ _ Hrun) as (st & Hst & _ & ->). simpl.
    pose proof (@process_files_wf _ _ _ Hst well_formed_init) as Hwf.
    destruct (@process_files_grows _ _ _ Hst) as (_ & G2 & G3).
    split.
    + intros p Hp. apply key_has_node; auto.
    + intros e He. destruct (G3 e He) as [[]|H]; exact H.
Qed.

Example selection_drops_the_oldest :
  length (glob_log (Demo.many_logs 201)) = 201
  /\ List.map (@fst text fobj) (selected (Demo.many_logs 201))
     = List.map Demo.numbered (seq 1 200).
Proof. vm_compute. auto. Qed.

Lemma C3_witness :
  selected Demo.two_sessions
  = sorted (@fst text fobj) (glob_log Demo.two_sessions)
  /\ (exists n, In n (nodes (written Demo.two_sessions_report))
                /\ id n = str "b").
Proof.
  pose proof (C3_last_window_of_sorted_logs Demo.two_sessions)
    as (_ & _ & _ & _ & Hall & _ & Hrun).
  split.
  - apply Hall. vm_compute. repeat constructor.
  - refine (proj1 (Hrun true Demo.two_sessions_report eq_refl)
                  (str "b.log", _) _).
    vm_compute. right; left; reflexivity.
Defined.

(** ** The session graph builder: the graph *)

(** C10: every edge of the written graph is referentially intact: its
    [from] and its [to] are each the [id] of a node of the written node
    list.  The session node is registered before the edges of its file,
    and each error node before the edge that points to it. *)
Theorem C10_edges_point_to_nodes (log_dir : option directory)
        (out_ok : bool) (rep : report) :
  memory_graph log_dir out_ok = Ok rep ->
  forall e, In e (edges (written rep)) ->
    (exists n, In n (nodes (written rep)) /\ id n = from e)
    /\ (exists n, In n (nodes (written rep)) /\ id n = to e).
Proof.
  intros Hrun e He.
  destruct (@memory_graph_ok _ _ _ Hrun) as (st & Hst & _ & Hw).
  rewrite Hw in *. simpl in *.
  pose proof (@process_files_wf _ _ _ Hst well_formed_init) as Hwf.
  destruct (wf_edges Hwf e He) as [Hf Ht].
  split; apply key_has_node; assumption.
Qed.

Lemma C10_witness :
  (exists n, In n (nodes (written Demo.two_sessions_report))
             /\ id n = str "b")
  /\ (exists n, In n (nodes (written Demo.two_sessions_report))
                /\ id n = str "err:disk full").
Proof.
  apply (@C10_edges_point_to_nodes Demo.two_sessions true
           Demo.two_sessions_report eq_refl
           (has_error (str "b") (str "err:disk full"))).
  vm_compute. right; left; reflexivity.
Defined.

(** ** The session graph builder: extraction *)

Lemma firstn_consumed {A} (xs s : list A) :
  firstn (length (xs ++ s) - length s) (xs ++ s) = xs.
Proof.
  rewrite length_app, Nat.add_sub, firstn_app, Nat.sub_diag.
  rewrite firstn_all, firstn_O. apply app_nil_r.
Qed.

Lemma boundary_iff (s : text) :
  boundary s = true <->
  exists ws tl, s = ws ++ tl /\ ws <> [] /\ forallb isspace ws = true
                /\ terminated tl = true.
Proof.
  split.
  - induction s as [|x s IH]; simpl; [discriminate|].
    rewrite andb_true_iff, orb_true_iff. intros [Hx [Ht|Hb]].
    + exists [x], s. simpl. rewrite Hx. repeat split; auto. discriminate.
    + destruct (IH Hb) as (ws & tl & -> & _ & Hws & Ht).
      exists (x :: ws), tl. simpl. rewrite Hx, Hws.
      repeat split; auto. discriminate.
  - intros (ws & tl & -> & Hne & Hws & Ht).
    induction ws as [|x ws IH]; [congruence|].
    simpl in *. apply andb_true_iff in Hws. destruct Hws as [Hx Hws].
    rewrite Hx. simpl. destruct ws as [|y ws].
    + simpl. rewrite Ht. reflexivity.
    + rewrite IH; [apply orb_true_r|discriminate|exact Hws].
Qed.

(** The end of the pattern matches exactly at a boundary, and captures
    nothing. *)
Lemma err_tail_sound s c s1 c1 :
  matches ERR_FLAGS err_tail s c s1 c1 -> boundary s = true /\ c1 = c.
Proof.
  unfold err_tail. intros M.
  apply matches_cat_inv in M. destruct M as (sa & ca & Msp & Malt).
  apply matches_rep_inv in Msp. destruct Msp as (ws & -> & Hws & Hn & ->).
  assert (T : terminated sa = true /\ c1 = c).
  { unfold terminated.
    apply matches_alt_inv in Malt. destruct Malt as [M1|M1].
    - apply matches_lit_inv in M1. destruct M1 as (xs & -> & Hx & ->).
      split; [|reflexivity].
      rewrite (proj2 (lit_prefix_split ERR_FLAGS (str "code=") (xs ++ s1)));
        [reflexivity|eauto].
    - apply matches_alt_inv in M1. destruct M1 as [M2|M2].
      + apply matches_lit_inv in M2. destruct M2 as (xs & -> & Hx & ->).
        split; [|reflexivity].
        rewrite (proj2 (lit_prefix_split ERR_FLAGS (str "fatal") (xs ++ s1)));
          [rewrite orb_true_r; reflexivity|eauto].
      + apply matches_eos_inv in M2. destruct M2 as (He & -> & ->).
        split; [|reflexivity].
        rewrite He. rewrite !orb_true_r. reflexivity. }
  destruct T as [Ht ->]. split; [|reflexivity].
  apply boundary_iff. exists ws, sa. repeat split; auto.
  intros ->. simpl in Hn. lia.
Qed.

Lemma err_tail_complete s c :
  boundary s = true -> exists s1, matches ERR_FLAGS err_tail s c s1 c.
Proof.
  intros H. apply boundary_iff in H.
  destruct H as (ws & tl & -> & Hne & Hws & Ht).
  assert (Sp : matches ERR_FLAGS (Rep CSpace Plus true) (ws ++ tl) c tl c).
  { constructor; [exact Hws|]. destruct ws; [congruence|simpl; lia]. }
  unfold terminated in Ht. rewrite !orb_true_iff in Ht.
  destruct Ht as [[Ht|Ht]|Ht].
  - apply lit_prefix_split in Ht. destruct Ht as (xs & rest & -> & Hx).
    exists rest. econstructor; [exact Sp|].
    apply M_AltL. apply matches_lit; exact Hx.
  - apply lit_prefix_split in Ht. destruct Ht as (xs & rest & -> & Hx).
    exists rest. econstructor; [exact Sp|].
    apply M_AltR, M_AltL. apply matches_lit; exact Hx.
  - exists tl. econstructor; [exact Sp|].
    apply M_AltR, M_AltR. constructor; exact Ht.
Qed.

(** One successful attempt of [err_re], taken apart. *)
Lemma attempt_err_re s s1 c1 :
  attempt ERR_FLAGS err_re s = Some (s1, c1) ->
  exists e ws mid msg m rest,
    s = e ++ ws ++ mid ++ msg ++ m ++ rest /\
    lit_equal ERR_FLAGS (str "ERROR") e = true /\
    ws <> [] /\ forallb isspace ws = true /\
    no_newline mid = true /\
    lit_equal ERR_FLAGS (str "message=") msg = true /\
    m <> [] /\ no_newline m = true /\
    boundary rest = true /\ shortest m rest /\ c1 = Some m.
Proof.
  unfold attempt, err_re. intros H.
  rewrite run_cat in H. apply run_sound in H.
  destruct H as (sa & ca & Ma & H).
  apply matches_lit_inv in Ma. destruct Ma as (e & -> & He & ->).
  rewrite run_cat in H. apply run_sound in H.
  destruct H as (sb & cb & Mb & H).
  apply matches_rep_inv in Mb. destruct Mb as (ws & -> & Hws & Hwn & ->).
  rewrite run_cat in H. apply run_sound in H.
  destruct H as (sc & cc & Mc & H).
  apply matches_rep_inv in Mc. destruct Mc as (mid & -> & Hmid & _ & ->).
  rewrite run_cat in H. apply run_sound in H.
  destruct H as (sd & cd & Md & H).
  apply matches_lit_inv in Md. destruct Md as (msg & -> & Hmsg & ->).
  rewrite run_cat, run_grp_lazy in H. apply rep_lazy_sound in H.
  destruct H as (m & rest & -> & Hm & Hmn & Hk & Hmin).
  cbv beta in Hk, Hmin.
  apply run_sound in Hk. destruct Hk as (s2 & c2 & Mt & Hk).
  inversion Hk; subst; clear Hk.
  apply err_tail_sound in Mt. destruct Mt as [Hb ->].
  rewrite firstn_consumed.
  exists e, ws, mid, msg, m, rest.
  split; [reflexivity|]. split; [exact He|].
  split; [intros ->; simpl in Hwn; lia|]. split; [exact Hws|].
  split; [exact Hmid|]. split; [exact Hmsg|].
  split; [intros ->; simpl in Hmn; lia|]. split; [exact Hm|].
  split; [exact Hb|]. split; [|reflexivity].
  intros m1 m2 -> Hm1 Hm2.
  destruct (boundary (m2 ++ rest)) eqn:B; [|reflexivity].
  exfalso.
  assert (L : qmin Plus <= length m1) by (destruct m1; [congruence|simpl; lia]).
  specialize (Hmin m1 m2 eq_refl Hm2 L).
  destruct (@err_tail_complete (m2 ++ rest)
              (Some (firstn (length ((m1 ++ m2) ++ rest)
                             - length (m2 ++ rest)) ((m1 ++ m2) ++ rest))) B)
    as [s3 M3].
  destruct (@run_complete _ _ _ _ _ _ _ M3
              (fun s1 c => Some (s1, c)) _ eq_refl) as [b Hb'].
  rewrite Hb' in Hmin. discriminate.
Qed.

Lemma occurrence_matches pre T m rest :
  occurs_at T pre m rest ->
  exists tl s1, T = pre ++ tl /\ matches ERR_FLAGS err_re tl None s1 (Some m).
Proof.
  intros (e & ws & mid & msg & -> & He & Hwn & Hws & Hmid & Hmsg & Hmn & Hm
          & Hb).
  destruct (@err_tail_complete rest (Some m) Hb) as [s1 Mt].
  exists (e ++ ws ++ mid ++ msg ++ m ++ rest), s1. split; [reflexivity|].
  unfold err_re.
  econstructor; [apply matches_lit; exact He|].
  econstructor;
    [constructor; [exact Hws | destruct ws; [congruence|simpl; lia]]|].
  econstructor; [constructor; [exact Hmid | simpl; lia]|].
  econstructor; [apply matches_lit; exact Hmsg|].
  econstructor; [|exact Mt].
  econstructor. constructor; [exact Hm|].
  destruct m; [congruence|simpl; lia].
Qed.


(** *** The occurrence the pattern takes *)

Lemma app_split_le {A} (a b c d : list A) :
  a ++ b = c ++ d -> length a <= length c ->
  exists z, c = a ++ z /\ b = z ++ d.
Proof.
  revert c; induction a as [|x a IH]; intros c E L; simpl in *.
  - exists c. auto.
  - destruct c as [|y c]; simpl in L; [lia|].
    simpl in E. inversion E; subst.
    destruct (IH c H1 ltac:(lia)) as (z & -> & ->).
    exists z. auto.
Qed.

Lemma from_message_complete msg m rest c :
  lit_equal ERR_FLAGS (str "message=") msg = true ->
  m <> [] -> no_newline m = true -> boundary rest = true ->
  exists s1, matches ERR_FLAGS from_message (msg ++ m ++ rest) c s1 (Some m).
Proof.
  intros Hmsg Hmn Hm Hb.
  destruct (@err_tail_complete rest (Some m) Hb) as [s1 Mt].
  exists s1. unfold from_message.
  econstructor; [apply matches_lit; exact Hmsg|].
  econstructor; [|exact Mt].
  econstructor. constructor; [exact Hm|].
  destruct m; [congruence|simpl; lia].
Qed.

Lemma from_line_complete mid msg m rest c :
  no_newline mid = true ->
  lit_equal ERR_FLAGS (str "message=") msg = true ->
  m <> [] -> no_newline m = true -> boundary rest = true ->
  exists s1, matches ERR_FLAGS from_line (mid ++ msg ++ m ++ rest) c s1 (Some m).
Proof.
  intros Hmid Hmsg Hmn Hm Hb.
  destruct (@from_message_complete msg m rest c Hmsg Hmn Hm Hb) as [s1 M].
  exists s1. unfold from_line.
  econstructor; [constructor; [exact Hmid | simpl; lia]|exact M].
Qed.

Lemma terminated_complete tl c :
  terminated tl = true ->
  exists s1, matches ERR_FLAGS (Alt (lit "code=") (Alt (lit "fatal") Eos))
                     tl c s1 c.
Proof.
  unfold terminated. rewrite !orb_true_iff. intros [[Ht|Ht]|Ht].
  - apply lit_prefix_split in Ht. destruct Ht as (xs & rest & -> & Hx).
    exists rest. apply M_AltL. apply matches_lit; exact Hx.
  - apply lit_prefix_split in Ht. destruct Ht as (xs & rest & -> & Hx).
    exists rest. apply M_AltR, M_AltL. apply matches_lit; exact Hx.
  - exists tl. apply M_AltR, M_AltR. constructor; exact Ht.
Qed.

Lemma occurs_at_head s m rest :
  occurs_at s [] m rest <->
  exists e ws mid msg,
    s = e ++ ws ++ mid ++ msg ++ m ++ rest /\
    lit_equal ERR_FLAGS (str "ERROR") e = true /\
    ws <> [] /\ forallb isspace ws = true /\
    no_newline mid = true /\
    lit_equal ERR_FLAGS (str "message=") msg = true /\
    m <> [] /\ no_newline m = true /\
    boundary rest = true.
Proof. unfold occurs_at. simpl. reflexivity. Qed.

(** One successful attempt of [err_re]: the occurrence it takes and
    where its match ends. *)
Lemma attempt_takes s s1 c1 :
  attempt ERR_FLAGS err_re s = Some (s1, c1) ->
  exists m rest, c1 = Some m /\ taken s m rest /\ ends rest s1.
Proof.
  unfold attempt, err_re. intros H.
  rewrite run_cat in H. apply run_sound in H.
  destruct H as (sa & ca & Ma & H).
  apply matches_lit_inv in Ma. destruct Ma as (e & -> & He & ->).
  rewrite run_cat, run_rep_greedy in H. apply rep_greedy_first in H.
  destruct H as (ws & sb & -> & Hws & Hwn & H & MaxWs).
  cbv beta in H, MaxWs.
  rewrite run_cat, run_rep_greedy in H. apply rep_greedy_first in H.
  destruct H as (mid & sc & -> & Hmid & _ & H & MaxMid).
  cbv beta in H, MaxMid.
  rewrite run_cat in H. apply run_sound in H.
  destruct H as (sd & cd & Md & H).
  apply matches_lit_inv in Md. destruct Md as (msg & -> & Hmsg & ->).
  rewrite run_cat, run_grp_lazy in H. apply rep_lazy_sound in H.
  destruct H as (m & rest & -> & Hm & Hmn & Hk & Hmin).
  cbv beta in Hk, Hmin. rewrite firstn_consumed in Hk.
  unfold err_tail in Hk. rewrite run_cat, run_rep_greedy in Hk.
  apply rep_greedy_first in Hk.
  destruct Hk as (ws2 & tl & -> & Hws2 & Hwn2 & Hk & MaxWs2).
  cbv beta in Hk, MaxWs2.
  apply run_sound in Hk. destruct Hk as (s2 & c2 & Malt & Hk).
  inversion Hk; subst s2 c2; clear Hk.
  assert (Term : c1 = Some m /\
                 exists term, tl = term ++ s1 /\
                   (lit_equal ERR_FLAGS (str "code=") term = true
                    \/ lit_equal ERR_FLAGS (str "fatal") term = true
                    \/ (term = [] /\ at_end s1 = true))).
  { apply matches_alt_inv in Malt. destruct Malt as [M1|M1].
    - apply matches_lit_inv in M1. destruct M1 as (xs & -> & Hx & ->).
      split; [reflexivity|]. exists xs. auto.
    - apply matches_alt_inv in M1. destruct M1 as [M2|M2].
      + apply matches_lit_inv in M2. destruct M2 as (xs & -> & Hx & ->).
        split; [reflexivity|]. exists xs. auto.
      + apply matches_eos_inv in M2. destruct M2 as (He' & -> & ->).
        split; [reflexivity|]. exists []. simpl. auto. }
  destruct Term as (-> & term & -> & Hterm). clear Malt.
  assert (Tt : terminated (term ++ s1) = true).
  { unfold terminated. destruct Hterm as [Ht|[Ht|[-> Ht]]].
    - rewrite (proj2 (lit_prefix_split ERR_FLAGS (str "code=") (term ++ s1)));
        [reflexivity|eauto].
    - rewrite (proj2 (lit_prefix_split ERR_FLAGS (str "fatal") (term ++ s1)));
        [rewrite orb_true_r; reflexivity|eauto].
    - simpl. rewrite Ht. rewrite !orb_true_r. reflexivity. }
  assert (Hwne : ws <> []) by (intros ->; simpl in Hwn; lia).
  assert (Hmne : m <> []) by (intros ->; simpl in Hmn; lia).
  assert (Hw2ne : ws2 <> []) by (intros ->; simpl in Hwn2; lia).
  assert (Hb : boundary (ws2 ++ term ++ s1) = true).
  { apply boundary_iff. exists ws2, (term ++ s1). auto. }
  exists m, (ws2 ++ term ++ s1). split; [reflexivity|].
  split; [split; [|split]|].
  - apply occurs_at_head. exists e, ws, mid, msg.
    repeat split; assumption.
  - intros m' rest' Hocc. apply occurs_at_head in Hocc.
    destruct Hocc as (e' & ws' & mid' & msg' & E & He' & Hwn' & Hws' & Hmid'
                      & Hmsg' & Hmn' & Hm' & Hb').
    rewrite app_nil_l in E.
    pose proof (@lit_equal_length _ _ _ He) as Le.
    pose proof (@lit_equal_length _ _ _ He') as Le'.
    pose proof (@lit_equal_length _ _ _ Hmsg) as Lm.
    pose proof (@lit_equal_length _ _ _ Hmsg') as Lm'.
    change (length (str "ERROR")) with 5 in Le, Le'.
    change (length (str "message=")) with 8 in Lm, Lm'.
    assert (Lee : length e <= length e') by lia.
    destruct (@app_split_le _ _ _ _ _ E Lee) as (z & Ez & E1).
    assert (z = []) as ->.
    { destruct z; [reflexivity|]. rewrite Ez, length_app in Le'.
      simpl in Le'. lia. }
    simpl in E1. clear Ez.
    pose proof (f_equal (@length char) E1) as LE.
    rewrite !length_app in LE.
    destruct (Nat.le_gt_cases (length (m ++ ws2 ++ term ++ s1))
                              (length (m' ++ rest'))) as [Hok|Hlt];
      [exact Hok|exfalso].
    rewrite !length_app in Hlt.
    destruct (Nat.le_gt_cases (length ws') (length ws)) as [Hle|Hgt].
    + destruct (@app_split_le _ _ _ _ _ (eq_sym E1) Hle) as (w2 & Ew & E2).
      symmetry in E2. rewrite app_assoc in E2.
      pose proof (f_equal (@length char) Ew) as LW.
      rewrite length_app in LW.
      assert (Lwm : length (w2 ++ mid) <= length mid')
        by (rewrite length_app; lia).
      destruct (@app_split_le _ _ _ _ _ E2 Lwm) as (zs & Em & E3).
      pose proof (f_equal (@length char) Em) as LM.
      rewrite !length_app in LM.
      assert (Hzs : zs <> []) by (intros ->; simpl in LM; lia).
      assert (Hzs' : forallb (cmatch ERR_FLAGS CAny) zs = true).
      { unfold no_newline in Hmid'. rewrite Em, !forallb_app in Hmid'.
        apply andb_true_iff in Hmid'. tauto. }
      specialize (MaxMid zs _ E3 Hzs Hzs').
      destruct (@from_message_complete msg' m' rest' None Hmsg' Hmn' Hm' Hb')
        as [s'' M].
      destruct (@run_complete _ _ _ _ _ _ _ M
                  (fun s1 c => Some (s1, c)) _ eq_refl) as [b Hb''].
      unfold from_message in Hb''. rewrite Hb'' in MaxMid. discriminate.
    + destruct (@app_split_le _ _ _ _ _ E1 (Nat.lt_le_incl _ _ Hgt))
        as (zs & Ew & E2).
      pose proof (f_equal (@length char) Ew) as LW.
      rewrite length_app in LW.
      assert (Hzs : zs <> []) by (intros ->; simpl in LW; lia).
      assert (Hzs' : forallb (cmatch ERR_FLAGS CSpace) zs = true).
      { rewrite Ew, forallb_app in Hws'.
        apply andb_true_iff in Hws'. tauto. }
      specialize (MaxWs zs _ E2 Hzs Hzs').
      destruct (@from_line_complete mid' msg' m' rest' None Hmid' Hmsg' Hmn'
                  Hm' Hb') as [s'' M].
      destruct (@run_complete _ _ _ _ _ _ _ M
                  (fun s1 c => Some (s1, c)) _ eq_refl) as [b Hb''].
      unfold from_line, from_message in Hb''.
      rewrite Hb'' in MaxWs. discriminate.
  - intros m1 m2 -> Hm1 Hm2.
    destruct (boundary (m2 ++ ws2 ++ term ++ s1)) eqn:B; [|reflexivity].
    exfalso.
    assert (L : qmin Plus <= length m1)
      by (destruct m1; [congruence|simpl; lia]).
    specialize (Hmin m1 m2 eq_refl Hm2 L).
    destruct (@err_tail_complete (m2 ++ ws2 ++ term ++ s1)
                (Some (firstn (length ((m1 ++ m2) ++ ws2 ++ term ++ s1)
                               - length (m2 ++ ws2 ++ term ++ s1))
                              ((m1 ++ m2) ++ ws2 ++ term ++ s1))) B)
      as [s3 M3].
    destruct (@run_complete _ _ _ _ _ _ _ M3
                (fun s1 c => Some (s1, c)) _ eq_refl) as [b Hb'].
    rewrite Hb' in Hmin. discriminate.
  - exists ws2, term. split; [reflexivity|]. split; [exact Hw2ne|].
    split; [exact Hws2|]. split; [exact Hterm|].
    intros ws' tl' E Hws' Ht'.
    destruct (Nat.le_gt_cases (length ws') (length ws2)) as [Hok|Hgt];
      [exact Hok|exfalso].
    destruct (@app_split_le _ _ _ _ _ E (Nat.lt_le_incl _ _ Hgt))
      as (zs & Ew & E2).
    pose proof (f_equal (@length char) Ew) as LW.
    rewrite length_app in LW.
    assert (Hzs : zs <> []) by (intros ->; simpl in LW; lia).
    assert (Hzs' : forallb (cmatch ERR_FLAGS CSpace) zs = true).
    { rewrite Ew, forallb_app in Hws'.
      apply andb_true_iff in Hws'. tauto. }
    specialize (MaxWs2 zs _ E2 Hzs Hzs').
    destruct (@terminated_complete tl' (Some m) Ht') as [s'' M].
    destruct (@run_complete _ _ _ _ _ _ _ M
                (fun s1 c => Some (s1, c)) _ eq_refl) as [b Hb''].
    rewrite Hb'' in MaxWs2. discriminate.
Qed.

Lemma app_suffix_eq {A} (a b c d : list A) :
  a ++ b = c ++ d -> length b = length d -> a = c /\ b = d.
Proof.
  intros E L.
  assert (La : length a = length c).
  { pose proof (f_equal (@length A) E) as LE.
    rewrite !length_app in LE. lia. }
  destruct (@app_split_le _ _ _ _ _ E ltac:(lia)) as (z & Ez & Eb).
  destruct z as [|x z].
  - rewrite app_nil_r in Ez. simpl in Eb. auto.
  - rewrite Ez, length_app in La. simpl in La. lia.
Qed.

Lemma occurs_at_parts T pre m rest :
  occurs_at T pre m rest ->
  exists body, T = pre ++ body ++ m ++ rest /\ body <> []
               /\ m <> [] /\ boundary rest = true
               /\ occurs_at (body ++ m ++ rest) [] m rest.
Proof.
  intros (e & ws & mid & msg & -> & He & Hwn & Hws & Hmid & Hmsg & Hmn & Hm
          & Hb).
  exists (e ++ ws ++ mid ++ msg). rewrite <- !app_assoc.
  split; [reflexivity|]. split.
  - intros E. apply app_eq_nil in E. destruct E as [_ E].
    apply app_eq_nil in E. tauto.
  - split; [exact Hmn|]. split; [exact Hb|].
    exists e, ws, mid, msg. simpl. repeat split; assumption.
Qed.

Lemma occurs_at_shift p T pre m rest :
  occurs_at T pre m rest -> occurs_at (p ++ T) (p ++ pre) m rest.
Proof.
  intros (e & ws & mid & msg & -> & H).
  exists e, ws, mid, msg. rewrite <- app_assoc. split; [reflexivity|exact H].
Qed.

Lemma occurs_at_cut pre pre' s m rest :
  occurs_at (pre ++ s) (pre ++ pre') m rest -> occurs_at s pre' m rest.
Proof.
  intros (e & ws & mid & msg & E & H).
  rewrite <- app_assoc in E. apply app_inv_head in E.
  exists e, ws, mid, msg. split; [exact E|exact H].
Qed.

Lemma terminated_intro term s1 :
  lit_equal ERR_FLAGS (str "code=") term = true
  \/ lit_equal ERR_FLAGS (str "fatal") term = true
  \/ (term = [] /\ at_end s1 = true) ->
  terminated (term ++ s1) = true.
Proof.
  unfold terminated. intros [Ht|[Ht|[-> Ht]]].
  - rewrite (proj2 (lit_prefix_split ERR_FLAGS (str "code=") (term ++ s1)));
      [reflexivity|eauto].
  - rewrite (proj2 (lit_prefix_split ERR_FLAGS (str "fatal") (term ++ s1)));
      [rewrite orb_true_r; reflexivity|eauto].
  - simpl. rewrite Ht. rewrite !orb_true_r. reflexivity.
Qed.

(** The occurrence taken at the head of a text, and the end of its
    match, are fixed by the text. *)
Lemma taken_unique s m rest m' rest' :
  taken s m rest -> taken s m' rest' -> m = m' /\ rest = rest'.
Proof.
  intros (O & L & S) (O' & L' & S').
  pose proof (L _ _ O') as L1. pose proof (L' _ _ O) as L2.
  destruct (@occurs_at_parts _ _ _ _ O) as (body & E & _ & Hmn & Hb & _).
  destruct (@occurs_at_parts _ _ _ _ O') as (body' & E' & _ & Hmn' & Hb' & _).
  simpl in E, E'. rewrite E in E'.
  destruct (@app_suffix_eq _ _ _ _ _ E' ltac:(lia)) as [_ Em].
  assert (Short : forall a ra b rb,
            a ++ ra = b ++ rb -> length a < length b -> a <> [] ->
            boundary ra = true -> shortest b rb -> False).
  { intros a ra b rb Eab Lab Ha Hra Sb.
    destruct (@app_split_le _ _ _ _ _ Eab (Nat.lt_le_incl _ _ Lab))
      as (z & Ez & Er).
    assert (Hz : z <> []).
    { intros ->. rewrite app_nil_r in Ez. subst b. lia. }
    specialize (Sb a z Ez Ha Hz). rewrite <- Er in Sb. congruence. }
  destruct (Nat.lt_trichotomy (length m) (length m')) as [Hlt|[Heq|Hgt]].
  - exfalso. exact (Short _ _ _ _ Em Hlt Hmn Hb S').
  - assert (Lr : length rest = length rest').
    { rewrite !length_app in L1, L2. lia. }
    destruct (@app_suffix_eq _ _ _ _ _ Em Lr). auto.
  - exfalso. exact (Short _ _ _ _ (eq_sym Em) Hgt Hmn' Hb' S).
Qed.

Lemma at_end_length s : at_end s = true -> length s <= 1.
Proof. destruct s as [|x [|y s]]; simpl; intros H; try lia; discriminate. Qed.

Lemma ends_unique rest s1 s1' : ends rest s1 -> ends rest s1' -> s1 = s1'.
Proof.
  intros (ws & term & E & _ & Hws & Ht & Max)
         (ws' & term' & E' & _ & Hws' & Ht' & Max').
  pose proof (Max' ws (term ++ s1) E Hws (@terminated_intro _ _ Ht)) as L1.
  pose proof (Max ws' (term' ++ s1') E' Hws' (@terminated_intro _ _ Ht')) as L2.
  rewrite E in E'.
  destruct (@app_split_le _ _ _ _ _ E' L1) as (z & Ez & Et).
  assert (z = []) as ->.
  { destruct z; [reflexivity|]. rewrite Ez, length_app in L2.
    simpl in L2. lia. }
  simpl in Et. clear Ez.
  assert (Lt5 : forall t, lit_equal ERR_FLAGS (str "code=") t = true
                          \/ lit_equal ERR_FLAGS (str "fatal") t = true ->
                          length t = 5).
  { intros t [H|H]; apply lit_equal_length in H; exact H. }
  pose proof (f_equal (@length char) Et) as LE. rewrite !length_app in LE.
  destruct Ht as [Ht|[Ht|[-> Ht]]], Ht' as [Ht'|[Ht'|[-> Ht']]];
    try (assert (length term = 5) by (apply Lt5; auto));
    try (assert (length term' = 5) by (apply Lt5; auto));
    try (apply at_end_length in Ht); try (apply at_end_length in Ht');
    simpl in LE;
    try (destruct (@app_suffix_eq _ _ _ _ _ Et ltac:(lia)) as [_ ->];
         reflexivity);
    try (exfalso; lia).
Qed.

(** *** Reading the text from left to right *)

Lemma occurrence_attempt s m rest :
  occurs_at s [] m rest -> exists r, attempt ERR_FLAGS err_re s = Some r.
Proof.
  intros Hocc. destruct (occurrence_matches Hocc) as (tl & s1 & E & M).
  simpl in E. subst tl. exact (attempt_complete M).
Qed.

Lemma consumed_by_match s m rest s1 :
  taken s m rest -> ends rest s1 ->
  exists zs, s = zs ++ s1 /\ zs <> [].
Proof.
  intros (O & _) (ws & term & -> & _).
  destruct (@occurs_at_parts _ _ _ _ O) as (body & E & Hbody & _).
  simpl in E. exists (body ++ m ++ ws ++ term).
  split; [rewrite E, <- !app_assoc; reflexivity|].
  intros Z. apply app_eq_nil in Z. tauto.
Qed.

Lemma findall_extraction_le (n : nat) : forall T,
  length T <= n -> extraction T (findall ERR_FLAGS err_re T).
Proof.
  induction n as [|n IH]; intros T Hle.
  - destruct T; [|simpl in Hle; lia].
    apply ex_none. intros pre m rest Hocc.
    destruct (@occurs_at_parts _ _ _ _ Hocc) as (body & E & Hb & _).
    destruct pre, body; try discriminate. congruence.
  - destruct (scan_for_attempt ERR_FLAGS err_re T)
      as [Hnone|(pre & s & s1 & c & -> & Ha & Hf)].
    + assert (E : findall ERR_FLAGS err_re T = []).
      { destruct (findall ERR_FLAGS err_re T) as [|m0 l] eqn:F;
          [reflexivity|exfalso].
        assert (Hin : In m0 (findall_from ERR_FLAGS err_re T 0))
          by (unfold findall in F; rewrite F; left; reflexivity).
        apply findall_from_sound in Hin.
        destruct Hin as (pre & rest & s1 & c1 & E & Ha & _).
        rewrite (Hnone _ _ E) in Ha. discriminate. }
      rewrite E. apply ex_none. intros pre m rest Hocc.
      destruct (@occurs_at_parts _ _ _ _ Hocc) as (body & E' & _ & _ & _ & Hh).
      destruct (@occurrence_attempt _ _ _ Hh) as [r Hr].
      rewrite (Hnone _ _ E') in Hr. discriminate.
    + destruct (@attempt_takes _ _ _ Ha) as (m & rest & -> & Ht & He).
      destruct (@consumed_by_match _ _ _ _ Ht He) as (zs & Es & Hz).
      rewrite (@findall_skip_failures _ _ _ _ Hf).
      assert (F : findall ERR_FLAGS err_re s
                  = m :: findall ERR_FLAGS err_re s1).
      { rewrite Es in Ha |- *. exact (@findall_at_match _ _ _ _ _ Hz Ha). }
      rewrite F. apply (@ex_next pre s m rest s1).
      * intros pre' m' rest' Hocc.
        destruct (Nat.le_gt_cases (length pre) (length pre')) as [Hok|Hgt];
          [exact Hok|exfalso].
        destruct (@occurs_at_parts _ _ _ _ Hocc) as (body & E' & _ & _ & _ & Hh).
        destruct (@app_split_le _ _ _ _ _ (eq_sym E') (Nat.lt_le_incl _ _ Hgt))
          as (p2 & Ep & Eb).
        assert (Hp2 : p2 <> []).
        { intros ->. rewrite app_nil_r in Ep. subst pre'. lia. }
        destruct (@occurrence_attempt _ _ _ Hh) as [r Hr].
        rewrite Eb, (Hf pre' p2 Ep Hp2) in Hr. discriminate.
      * exact Ht.
      * exact He.
      * apply IH. rewrite Es, !length_app in Hle.
        destruct zs; [congruence|]. simpl in Hle. lia.
Qed.

Lemma extraction_findall T ms :
  extraction T ms -> ms = findall ERR_FLAGS err_re T.
Proof.
  induction 1 as [T Hnone|pre s m rest s1 ms Hleft Ht He _ IH].
  - destruct (findall ERR_FLAGS err_re T) as [|m0 l] eqn:F;
      [reflexivity|exfalso].
    assert (Hin : In m0 (findall_from ERR_FLAGS err_re T 0))
      by (unfold findall in F; rewrite F; left; reflexivity).
    apply findall_from_sound in Hin.
    destruct Hin as (pre & rest & s1 & c1 & E & Ha & _).
    destruct (@attempt_takes _ _ _ Ha) as (m & rest' & _ & (Ho & _) & _).
    apply (Hnone pre m rest'). subst T.
    rewrite <- (app_nil_r pre) at 2. apply occurs_at_shift. exact Ho.
  - rewrite findall_skip_failures.
    + destruct Ht as (Ho & Hrest). pose proof (conj Ho Hrest) as Ht.
      destruct (@occurrence_attempt _ _ _ Ho) as [[s1' c'] Ha].
      destruct (@attempt_takes _ _ _ Ha) as (m' & rest' & -> & Ht' & He').
      destruct (@taken_unique _ _ _ _ _ Ht' Ht) as [-> ->].
      rewrite (@ends_unique _ _ _ He' He) in Ha.
      destruct (@consumed_by_match _ _ _ _ Ht He) as (zs & Es & Hz).
      rewrite Es in Ha |- *.
      rewrite (@findall_at_match _ _ _ _ _ Hz Ha), IH. reflexivity.
    + intros p1 p2 Ep Hp.
      destruct (attempt ERR_FLAGS err_re (p2 ++ s)) as [[s1' c']|] eqn:Ha;
        [exfalso|reflexivity].
      destruct (@attempt_takes _ _ _ Ha) as (m' & rest' & _ & (Ho & _) & _).
      assert (Hocc : occurs_at (pre ++ s) p1 m' rest').
      { rewrite Ep, <- app_assoc. rewrite <- (app_nil_r p1) at 2.
        apply occurs_at_shift. exact Ho. }
      pose proof (Hleft _ _ _ Hocc) as L.
      rewrite Ep, length_app in L.
      destruct p2; [congruence|]. simpl in L. lia.
Qed.

(** C4, as the code has it: the captures are exactly what reading the
    text from left to right gives.  An occurrence is the marker ERROR,
    white space, any characters of one line, [message=], a message (not
    empty, within one line), and then white space leading to [code=],
    [fatal] or the end of the text, all letters in any case; it may
    begin anywhere in the text, not only at the start of a line.  The
    first occurrence that begins in the text gives the first capture:
    the message after the last [message=] that completes an occurrence
    from that marker, up to the first boundary.  The reading goes on
    after the end of that match.  So every capture comes from an
    occurrence, a text with an occurrence has a capture, and each
    capture, in order, and nothing else, gives one edge of the file. *)
Theorem C4_captures_are_occurrences (T : text) :
  extraction T (findall ERR_FLAGS err_re T)
  /\ (forall ms, extraction T ms -> ms = findall ERR_FLAGS err_re T)
  /\ (forall m, In m (findall ERR_FLAGS err_re T) ->
                exists pre rest, occurs_at T pre m rest /\ shortest m rest)
  /\ (forall pre m rest,
        occurs_at T pre m rest -> findall ERR_FLAGS err_re T <> [])
  /\ (forall st name content,
        read_text (Regular content) = Ok T ->
        exists st',
          process_file st (name, Regular content) = Ok st'
          /\ snd st'
             = snd st
               ++ List.map (fun m => has_error (stem name)
                                               (err_id (normalize m)))
                           (findall ERR_FLAGS err_re T)).
Proof.
  split; [|split; [|split; [|split]]].
  - exact (@findall_extraction_le (length T) T (le_n _)).
  - apply extraction_findall.
  - intros m Hin. unfold findall in Hin.
    apply findall_from_sound in Hin.
    destruct Hin as (pre & tl & s1 & c1 & -> & Ha & ->).
    apply attempt_err_re in Ha.
    destruct Ha as (e & ws & mid & msg & m & rest & -> & He & Hwn & Hws
                    & Hmid & Hmsg & Hmn & Hm & Hb & Hs & ->).
    exists pre, rest. split; [|exact Hs].
    exists e, ws, mid, msg. simpl. repeat split; assumption.
  - intros pre m rest Hocc.
    destruct (occurrence_matches Hocc) as (tl & s1 & -> & M).
    eapply findall_complete; exact M.
  - intros st name content E. inversion E; subst T.
    eexists. split; [apply process_file_regular|].
    rewrite fold_add_error_edges. reflexivity.
Qed.

(** The line with two messages, read: one occurrence, one capture. *)
Example reading_two_messages : extraction Demo.two_messages [str "y"].
Proof.
  exact (@findall_extraction_le (length Demo.two_messages) Demo.two_messages
           (le_n _)).
Qed.

Lemma C4_witness :
  (exists pre rest, occurs_at Demo.marker_inside pre (str "a") rest
                    /\ shortest (str "a") rest)
  /\ findall ERR_FLAGS err_re (str "ERROR" ++ [NL] ++ str " at message=x y FATAL")
     <> []
  /\ exists st',
       process_file ([], [])
         (str "s.log", Regular (bytes_of "xx ERROR  message=a code=1"))
       = Ok st'
       /\ snd st'
          = [] ++ List.map (fun m => has_error (stem (str "s.log"))
                                               (err_id (normalize m)))
                           (findall ERR_FLAGS err_re Demo.marker_inside).
Proof.
  split; [|split].
  - apply (proj1 (proj2 (proj2 (C4_captures_are_occurrences Demo.marker_inside)))).
    vm_compute. left; reflexivity.
  - apply (proj1 (proj2 (proj2 (proj2 (C4_captures_are_occurrences
                           (str "ERROR" ++ [NL] ++ str " at message=x y FATAL")))))
                 [] (str "x y") (str " FATAL")).
    exists (str "ERROR"), [NL; 32%N], (str "at "), (str "message=").
    vm_compute. repeat split; discriminate.
  - apply (proj2 (proj2 (proj2 (proj2
             (C4_captures_are_occurrences Demo.marker_inside))))
             ([], []) (str "s.log") (bytes_of "xx ERROR  message=a code=1")).
    reflexivity.
Defined.

(** C4 as stated fails twice.  No line of the first text begins with the
    marker, and a message is captured all the same.  The line of the
    second text begins with the marker and holds two [message=] fields,
    each followed by a message that extends to the next [code=]; only
    the second message is captured. *)
Lemma C4_counterexample :
  findall ERR_FLAGS err_re Demo.marker_inside = [str "a"]
  /\ forallb (fun l => negb (starts_with_marker l)) (lines Demo.marker_inside)
     = true
  /\ findall ERR_FLAGS err_re Demo.two_messages = [str "y"]
  /\ forallb starts_with_marker (lines Demo.two_messages) = true
  /\ occurs_at Demo.two_messages [] (str "x")
               (str " code=1 message=y code=2").
Proof.
  split; [vm_compute; reflexivity|]. split; [vm_compute; reflexivity|].
  split; [vm_compute; reflexivity|]. split; [vm_compute; reflexivity|].
  exists (str "ERROR"), (str " "), (str "a "), (str "message=").
  vm_compute. repeat split; discriminate.
Qed.

(** ** The session graph builder: one name space for two kinds *)

(** C9 fails on the code: session and error identities live in one
    dictionary, and a log named [err:x.log] holding the error [x] takes
    the identity [err:x] for its Session node.  The error is then not
    registered, and its edge runs from the Session node to itself. *)
Theorem C9_edge_into_a_session_node :
  exists rep,
    memory_graph Demo.colliding true = Ok rep
    /\ nodes (written rep) = [session_node (str "err:x")]
    /\ edges (written rep) = [has_error (str "err:x") (str "err:x")]
    /\ node_of (written rep) (str "err:x") = Some (session_node (str "err:x"))
    /\ forallb (bipartite_edge (written rep)) (edges (written rep)) = false.
Proof. eexists. split; [reflexivity|]. vm_compute. auto. Qed.

(** C1 fails on the code for the same reason: the log [err:x.log] holds
    the error [x] twice; two edges are appended, and no Error node at all
    stands for [x] in the written graph. *)
Theorem C1_no_error_node_under_a_taken_identity :
  exists rep,
    memory_graph Demo.colliding_twice true = Ok rep
    /\ length (edges (written rep)) = 2
    /\ List.map to (edges (written rep)) = [str "err:x"; str "err:x"]
    /\ error_nodes_for (written rep) (str "x") = []
    /\ nodes (written rep) = [session_node (str "err:x")].
Proof. eexists. split; [reflexivity|]. vm_compute. auto. Qed.

(** * Further properties of the script *)

Import Json Config ProofCheck Notions.

(** ** Matching and letter case *)

Lemma lower_uncased (x : char) : cased x = false -> lower x = x.
Proof.
  unfold lower, cased. intros H.
  destruct ((65 <=? x)%N && (x <=? 90)%N) eqn:E1.
  { to_props. lia. }
  destruct (x =? 304)%N eqn:E2; [to_props; lia|].
  destruct (x =? 8490)%N eqn:E3; [to_props; lia|].
  reflexivity.
Qed.

Lemma lower_cased (x : char) : cased x = true -> cased (lower x) = true.
Proof.
  unfold lower. intros H.
  destruct ((65 <=? x)%N && (x <=? 90)%N) eqn:E1.
  { unfold cased. to_props. lia. }
  destruct (x =? 304)%N eqn:E2; [reflexivity|].
  destruct (x =? 8490)%N eqn:E3; [reflexivity|].
  exact H.
Qed.

Lemma lower_eq_cases (x y : char) :
  lower x = lower y -> x = y \/ (cased x = true /\ cased y = true).
Proof.
  intros H.
  destruct (cased x) eqn:Cx, (cased y) eqn:Cy; auto.
  - exfalso. rewrite (lower_uncased _ Cy) in H.
    apply lower_cased in Cx. rewrite H in Cx. congruence.
  - exfalso. rewrite (lower_uncased _ Cx) in H.
    apply lower_cased in Cy. rewrite <- H in Cy. congruence.
  - left. rewrite (lower_uncased _ Cx), (lower_uncased _ Cy) in H. exact H.
Qed.

Lemma cased_not_space (x : char) : cased x = true -> isspace x = false.
Proof.
  intros H. destruct (isspace x) eqn:E; [|reflexivity]. exfalso.
  unfold cased in H. unfold isspace in E. to_props. lia.
Qed.

Lemma cased_not_newline (x : char) : cased x = true -> (x =? NL)%N = false.
Proof.
  intros H. destruct (N.eqb_spec x NL) as [->|]; [discriminate H|reflexivity].
Qed.

Lemma cmatch_case (fl : flags) (cl : cclass) (x y : char) :
  IGNORECASE fl = true -> lower x = lower y ->
  cmatch fl cl x = cmatch fl cl y.
Proof.
  intros Hi Hxy. destruct cl as [l| |]; simpl.
  - unfold lit_match, ci_eq. rewrite Hi, Hxy. reflexivity.
  - destruct (lower_eq_cases _ _ Hxy) as [->|[Hx Hy]]; [reflexivity|].
    rewrite (cased_not_newline _ Hx), (cased_not_newline _ Hy). reflexivity.
  - destruct (lower_eq_cases _ _ Hxy) as [->|[Hx Hy]]; [reflexivity|].
    rewrite (cased_not_space _ Hx), (cased_not_space _ Hy). reflexivity.
Qed.

Lemma same_up_to_case_refl (a : text) : same_up_to_case a a = true.
Proof.
  induction a as [|x a IH]; simpl; [reflexivity|].
  rewrite N.eqb_refl, IH. reflexivity.
Qed.

Lemma at_end_case (s s' : text) :
  same_up_to_case s s' = true -> at_end s = at_end s'.
Proof.
  destruct s as [|x [|x2 s]], s' as [|y [|y2 s']]; simpl;
    try discriminate; try reflexivity.
  - rewrite andb_true_r. intros H. apply N.eqb_eq in H.
    destruct (lower_eq_cases _ _ H) as [->|[Hx Hy]]; [reflexivity|].
    rewrite (cased_not_newline _ Hx), (cased_not_newline _ Hy). reflexivity.
  - rewrite andb_false_r. discriminate.
  - rewrite !andb_false_r. discriminate.
Qed.

Section CaseBlind.
Variable fl : flags.
Hypothesis ignorecase : IGNORECASE fl = true.
Variable A B : Type.

(** Two continuations that succeed together on texts equal up to
    case. *)
Definition alike (k : text -> option A) (k' : text -> option B) : Prop :=
  forall t t', same_up_to_case t t' = true ->
               is_some (k t) = is_some (k' t').

Lemma rep_greedy_case cl : forall s s' n k k',
  same_up_to_case s s' = true -> alike k k' ->
  is_some (rep_greedy fl cl n s k) = is_some (rep_greedy fl cl n s' k').
Proof.
  induction s as [|x s IH]; intros [|y s'] n k k' Hs Hk; simpl in *;
    try discriminate.
  - destruct (Nat.eqb n 0); [apply Hk; reflexivity|reflexivity].
  - apply andb_true_iff in Hs. destruct Hs as [Hxy Hs].
    assert (Stop : is_some (if Nat.eqb n 0 then k (x :: s) else None)
                   = is_some (if Nat.eqb n 0 then k' (y :: s') else None)).
    { destruct (Nat.eqb n 0); [|reflexivity].
      apply Hk. simpl. rewrite Hs, Hxy. reflexivity. }
    apply N.eqb_eq in Hxy.
    rewrite (@cmatch_case fl cl x y ignorecase Hxy).
    destruct (cmatch fl cl y); [|exact Stop].
    pose proof (IH s' (pred n) k k' Hs Hk) as E.
    destruct (rep_greedy fl cl (pred n) s k),
             (rep_greedy fl cl (pred n) s' k');
      simpl in E; try discriminate; [reflexivity|exact Stop].
Qed.

Lemma rep_lazy_case cl : forall s s' n k k',
  same_up_to_case s s' = true -> alike k k' ->
  is_some (rep_lazy fl cl n s k) = is_some (rep_lazy fl cl n s' k').
Proof.
  induction s as [|x s IH]; intros [|y s'] n k k' Hs Hk; simpl in *;
    try discriminate.
  - destruct (Nat.eqb n 0); [apply Hk; reflexivity|reflexivity].
  - apply andb_true_iff in Hs. destruct Hs as [Hxy Hs].
    assert (Stop : is_some (if Nat.eqb n 0 then k (x :: s) else None)
                   = is_some (if Nat.eqb n 0 then k' (y :: s') else None)).
    { destruct (Nat.eqb n 0); [|reflexivity].
      apply Hk. simpl. rewrite Hs, Hxy. reflexivity. }
    apply N.eqb_eq in Hxy.
    rewrite (@cmatch_case fl cl x y ignorecase Hxy).
    pose proof (IH s' (pred n) k k' Hs Hk) as E.
    destruct (if Nat.eqb n 0 then k (x :: s) else None),
             (if Nat.eqb n 0 then k' (y :: s') else None);
      simpl in Stop; try discriminate; [reflexivity|].
    destruct (cmatch fl cl y); [exact E|reflexivity].
Qed.

Lemma run_case r : forall s s' c c' k k',
  same_up_to_case s s' = true ->
  (forall d d', alike (fun t => k t d) (fun t => k' t d')) ->
  is_some (run fl r s c k) = is_some (run fl r s' c' k').
Proof.
  induction r as [|cl|r1 IH1 r2 IH2|r1 IH1 r2 IH2|cl q g|r IH|];
    intros s s' c c' k k' Hs Hk; simpl.
  - apply (Hk c c'); exact Hs.
  - destruct s as [|x s], s' as [|y s']; simpl in Hs; try discriminate;
      [reflexivity|].
    apply andb_true_iff in Hs. destruct Hs as [Hxy Hs].
    apply N.eqb_eq in Hxy. rewrite (@cmatch_case fl cl x y ignorecase Hxy).
    destruct (cmatch fl cl y); [apply (Hk c c'); exact Hs|reflexivity].
  - apply IH1; [exact Hs|].
    intros d d' t t' Ht. apply IH2; [exact Ht|exact Hk].
  - pose proof (IH1 s s' c c' k k' Hs Hk) as E1.
    pose proof (IH2 s s' c c' k k' Hs Hk) as E2.
    destruct (run fl r1 s c k), (run fl r1 s' c' k');
      simpl in E1; try discriminate; [reflexivity|exact E2].
  - destruct g.
    + apply rep_greedy_case; [exact Hs|apply Hk].
    + apply rep_lazy_case; [exact Hs|apply Hk].
  - apply IH; [exact Hs|].
    intros d d' t t' Ht. apply Hk; exact Ht.
  - rewrite (at_end_case _ _ Hs).
    destruct (at_end s'); [apply (Hk c c'); exact Hs|reflexivity].
Qed.
End CaseBlind.

Lemma search_case (fl : flags) (r : re) (T T' : text) :
  IGNORECASE fl = true -> same_up_to_case T T' = true ->
  search fl r T = search fl r T'.
Proof.
  intros Hi. unfold search.
  enough (E : forall T T', same_up_to_case T T' = true ->
            is_some (search_from fl r T) = is_some (search_from fl r T')).
  { intros H. specialize (E T T' H).
    destruct (search_from fl r T), (search_from fl r T');
      simpl in E; congruence. }
  clear T T'.
  assert (Att : forall T T', same_up_to_case T T' = true ->
            is_some (attempt fl r T) = is_some (attempt fl r T')).
  { intros T T' H. unfold attempt. apply run_case; [exact Hi|exact H|].
    intros d d' t t' _. reflexivity. }
  induction T as [|x T IH]; intros [|y T'] H; simpl in H; try discriminate.
  - simpl. pose proof (Att [] [] eq_refl) as E.
    destruct (attempt fl r []); reflexivity.
  - apply andb_true_iff in H. destruct H as [Hxy H].
    assert (H' : same_up_to_case (x :: T) (y :: T') = true)
      by (simpl; rewrite Hxy, H; reflexivity).
    pose proof (Att _ _ H') as E. simpl.
    destruct (attempt fl r (x :: T)), (attempt fl r (y :: T'));
      simpl in E; try discriminate; [reflexivity|].
    apply IH; exact H.
Qed.

Lemma firing_case (R : list (re * text)) (T T' : text) :
  same_up_to_case T T' = true -> firing R T = firing R T'.
Proof.
  intros H. unfold firing. apply filter_ext.
  intros r. apply search_case; [reflexivity|exact H].
Qed.

(** X1: what [runbook] finds does not depend on the case of the letters
    of the log: two texts that differ only in letter case fire the same
    rules, for any rule list, and [runbook] prints and returns the same
    for two files that read as such texts. *)
Theorem X1_runbook_ignores_letter_case (T T' : text) :
  same_up_to_case T T' = true ->
  (forall R, scan R T = scan R T')
  /\ (forall log_file content content',
        read_text (Regular content) = Ok T ->
        read_text (Regular content') = Ok T' ->
        runbook log_file (Some (Regular content))
        = runbook log_file (Some (Regular content'))).
Proof.
  intros H. split.
  - intros R. rewrite !scan_firing, (@firing_case R T T' H). reflexivity.
  - intros log_file content content' E E'.
    unfold runbook. rewrite E, E'. unfold bind.
    rewrite !scan_firing, (@firing_case rules T T' H). reflexivity.
Qed.

Lemma X1_witness :
  scan rules (str "ebusy: MODEL NOT FOUND: ANTHROPIC/HAIKU")
  = scan rules (str "EBUSY: model not found: anthropic/haiku").
Proof.
  apply (proj1 (@X1_runbook_ignores_letter_case
                  (str "ebusy: MODEL NOT FOUND: ANTHROPIC/HAIKU")
                  (str "EBUSY: model not found: anthropic/haiku") eq_refl)).
Defined.

Unset Implicit Arguments.

(** ** Matching and growing logs *)

(** A match of a pattern without [$] stays a match when text follows. *)
Lemma matches_extend (fl : flags) (r : re) (s s1 : text)
      (c c1 : option text) :
  matches fl r s c s1 c1 -> eos_free r = true ->
  forall post, matches fl r (s ++ post) c (s1 ++ post) c1.
Proof.
  induction 1 as [s c|cl x s c Hx|r1 r2 s c s1 c1 s2 c2 _ IH1 _ IH2
                  |r1 r2 s c s1 c1 _ IH|r1 r2 s c s1 c1 _ IH
                  |cl q g xs s c Hxs Hn|r xs s c c1 _ IH|s c He];
    simpl; intros Hf post.
  - constructor.
  - constructor; exact Hx.
  - apply andb_true_iff in Hf. destruct Hf as [F1 F2].
    econstructor; [apply IH1; exact F1|apply IH2; exact F2].
  - apply andb_true_iff in Hf. destruct Hf as [F1 F2].
    apply M_AltL. apply IH; exact F1.
  - apply andb_true_iff in Hf. destruct Hf as [F1 F2].
    apply M_AltR. apply IH; exact F2.
  - rewrite <- app_assoc. apply M_Rep; assumption.
  - rewrite <- app_assoc. eapply M_Grp.
    rewrite app_assoc. apply IH; exact Hf.
  - discriminate.
Qed.

Lemma search_extend (fl : flags) (r : re) (T pre post : text) :
  eos_free r = true -> search fl r T = true ->
  search fl r (pre ++ T ++ post) = true.
Proof.
  intros Hf H. apply search_true_iff in H.
  destruct H as (p & rest & s1 & c1 & -> & M).
  apply search_true_iff.
  exists (pre ++ p), (rest ++ post), (s1 ++ post), c1. split.
  - rewrite <- !app_assoc. reflexivity.
  - apply matches_extend; assumption.
Qed.

Lemma firing_length_le (R : list (re * text)) (T T' : text) :
  (forall r, In r R -> search RUNBOOK_FLAGS (fst r) T = true ->
             search RUNBOOK_FLAGS (fst r) T' = true) ->
  length (firing R T) <= length (firing R T').
Proof.
  unfold firing. induction R as [|r R IH]; intros H; simpl; [lia|].
  assert (IH' : length (filter (fun r => search RUNBOOK_FLAGS (fst r) T) R)
                <= length (filter (fun r => search RUNBOOK_FLAGS (fst r) T') R))
    by (apply IH; intros q Hq; apply H; right; exact Hq).
  destruct (search RUNBOOK_FLAGS (fst r) T) eqn:E.
  - rewrite (H r (or_introl eq_refl) E). simpl. lia.
  - destruct (search RUNBOOK_FLAGS (fst r) T'); simpl; lia.
Qed.

(** X2: the signatures of [runbook] are found wherever they are: none of
    its patterns uses [$], so a rule that fires on a text fires on every
    text that contains it, whatever comes before or after, and the number
    of hits does not go down when a log grows.  (This is so for any rule
    list without [$].) *)
Theorem X2_signatures_survive_more_text (R : list (re * text))
        (T pre post : text) :
  forallb (fun r => eos_free (fst r)) R = true ->
  (forall r, In r (firing R T) -> In r (firing R (pre ++ T ++ post)))
  /\ fst (scan R T) <= fst (scan R (pre ++ T ++ post))
  /\ forallb (fun r => eos_free (fst r)) rules = true.
Proof.
  intros HR. rewrite forallb_forall in HR.
  assert (S : forall r, In r R -> search RUNBOOK_FLAGS (fst r) T = true ->
                search RUNBOOK_FLAGS (fst r) (pre ++ T ++ post) = true).
  { intros r Hr Hs. apply search_extend; [apply HR; exact Hr|exact Hs]. }
  split; [|split].
  - intros r Hr. unfold firing in *. apply filter_In in Hr.
    destruct Hr as [Hin Hs]. apply filter_In. split; [exact Hin|].
    apply S; assumption.
  - rewrite !scan_firing. simpl. apply firing_length_le. exact S.
  - reflexivity.
Qed.

Lemma X2_witness :
  In Demo.haiku_rule
     (firing rules (str "12:00 " ++ str "Model not found: anthropic/haiku"
                    ++ str " (retrying)")).
Proof.
  apply (proj1 (X2_signatures_survive_more_text rules
                  (str "Model not found: anthropic/haiku")
                  (str "12:00 ") (str " (retrying)") eq_refl)).
  vm_compute. left; reflexivity.
Defined.

(** The extraction pattern ends in [$] and does not have this property:
    more text after a message can undo its capture. *)
Example err_re_is_not_monotone :
  findall ERR_FLAGS err_re (str "ERROR message=boom" ++ [NL]) = [str "boom"]
  /\ findall ERR_FLAGS err_re
       (str "ERROR message=boom" ++ [NL] ++ str "next line") = [].
Proof. vm_compute. auto. Qed.

(** ** The graph, apart from the collision of names *)

(** X3: when no selected log is named like an Error identity (no stem of
    the form [err:...]), the written graph is bipartite: every edge runs
    from a node of type session to a node of type error. *)
Theorem X3_bipartite_without_collision (log_dir : option directory)
        (out_ok : bool) (rep : report) :
  memory_graph log_dir out_ok = Ok rep ->
  no_collision (selected log_dir) ->
  forall e, In e (edges (written rep)) ->
            bipartite_edge (written rep) e = true.
Proof. apply bipartite_without_collision. Qed.

Lemma two_sessions_no_collision : no_collision (selected Demo.two_sessions).
Proof.
  intros p k Hp. vm_compute in Hp.
  destruct Hp as [<-|[<-|[]]]; vm_compute; discriminate.
Defined.

Lemma X3_witness :
  bipartite_edge (written Demo.two_sessions_report)
                 (has_error (str "b") (str "err:disk full")) = true.
Proof.
  apply (X3_bipartite_without_collision Demo.two_sessions true
           Demo.two_sessions_report eq_refl two_sessions_no_collision).
  vm_compute. right; left; reflexivity.
Defined.

(** X4: in every finished run the edges are those of the selected files,
    file after file, one per capture in the order of capture, and the
    node ids are pairwise distinct.  A message text that some edge points
    to, and whose identity no file stem takes, has exactly one Error
    node, however often and in however many files it was met. *)
Theorem X4_one_error_node_per_text (log_dir : option directory)
        (out_ok : bool) (rep : report) :
  memory_graph log_dir out_ok = Ok rep ->
  edges (written rep) = flat_map edges_of (selected log_dir)
  /\ NoDup (List.map id (nodes (written rep)))
  /\ forall k,
       In (err_id k) (List.map to (edges (written rep))) ->
       (forall p, In p (selected log_dir) -> stem (fst p) <> err_id k) ->
       error_nodes_for (written rep) k = [error_node (err_id k) k].
Proof. apply error_node_registered_once. Qed.

Lemma X4_witness :
  error_nodes_for (written Demo.two_sessions_report) (str "disk full")
  = [error_node (str "err:disk full") (str "disk full")].
Proof.
  apply (proj2 (proj2 (X4_one_error_node_per_text Demo.two_sessions true
                         Demo.two_sessions_report eq_refl))
               (str "disk full")).
  - vm_compute. left; reflexivity.
  - intros p Hp. apply two_sessions_no_collision. exact Hp.
Defined.

(** ** The graph only grows *)

Lemma setdefault_extends {V} (k : text) (v : V) (d : dict V) :
  exists ns, setdefault k v d = d ++ ns.
Proof.
  unfold setdefault. destruct (contains k d).
  - exists []. symmetry; apply app_nil_r.
  - eexists; reflexivity.
Qed.

Lemma setdefault_length {V} (k : text) (v : V) (d : dict V) :
  length (setdefault k v d) <= S (length d).
Proof.
  unfold setdefault. destruct (contains k d); [lia|].
  rewrite length_app. simpl. lia.
Qed.

Lemma fold_add_error_extends (sid : text) (ms : list text) : forall st,
  exists ns,
    fst (fold_left (add_error sid) ms st) = fst st ++ ns
    /\ length ns <= length ms.
Proof.
  induction ms as [|m ms IH]; intros st; simpl.
  - exists []. split; [symmetry; apply app_nil_r|simpl; lia].
  - destruct (IH (add_error sid st m)) as (ns & E & L).
    rewrite E, add_error_nodes.
    destruct (setdefault_extends (err_id (normalize m))
                (error_node (err_id (normalize m)) (normalize m)) (fst st))
      as [ns0 E0].
    pose proof (setdefault_length (err_id (normalize m))
                  (error_node (err_id (normalize m)) (normalize m)) (fst st))
      as L0.
    rewrite E0 in *. rewrite length_app in L0.
    exists (ns0 ++ ns). split; [symmetry; apply app_assoc|].
    rewrite length_app. lia.
Qed.

Lemma process_file_extends (st st' : state) (p : text * fobj) :
  process_file st p = Ok st' ->
  exists ns,
    fst st' = fst st ++ ns /\ snd st' = snd st ++ edges_of p
    /\ length ns <= 1 + length (edges_of p).
Proof.
  destruct p as [name [content|]]; [|discriminate].
  rewrite process_file_regular. intros H; inversion H; subst; clear H.
  destruct (fold_add_error_extends (stem name)
              (findall ERR_FLAGS err_re (TextMode.read_text_of content))
              (setdefault (stem name) (session_node (stem name)) (fst st),
               snd st)) as (ns & E & L).
  destruct (setdefault_extends (stem name) (session_node (stem name)) (fst st))
    as [ns0 E0].
  pose proof (setdefault_length (stem name) (session_node (stem name)) (fst st))
    as L0.
  simpl in E. rewrite E0 in L0. rewrite length_app in L0.
  exists (ns0 ++ ns). split; [simpl; rewrite E, E0; symmetry; apply app_assoc|].
  split.
  - rewrite fold_add_error_edges. reflexivity.
  - unfold edges_of, captures. simpl. rewrite length_app, length_map. lia.
Qed.

Lemma process_files_extends (ps : list (text * fobj)) : forall st st',
  process_files st ps = Ok st' ->
  exists ns,
    fst st' = fst st ++ ns /\ snd st' = snd st ++ flat_map edges_of ps
    /\ length ns <= length ps + length (flat_map edges_of ps).
Proof.
  induction ps as [|p ps IH]; intros st st'; simpl.
  - intros H; inversion H; subst. exists [].
    rewrite !app_nil_r. simpl. auto.
  - destruct (process_file st p) as [st1|e] eqn:E; simpl; [|discriminate].
    intros H. destruct (process_file_extends _ _ _ E) as (n1 & N1 & E1 & L1).
    destruct (IH _ _ H) as (n2 & N2 & E2 & L2).
    exists (n1 ++ n2). split; [rewrite N2, N1; symmetry; apply app_assoc|].
    split; [rewrite E2, E1; symmetry; apply app_assoc|].
    rewrite !length_app. lia.
Qed.

Lemma process_files_app (ps qs : list (text * fobj)) : forall st,
  process_files st (ps ++ qs)
  = bind (process_files st ps) (fun st1 => process_files st1 qs).
Proof.
  induction ps as [|p ps IH]; intros st; simpl; [reflexivity|].
  destruct (process_file st p) as [st1|e]; simpl; [apply IH|reflexivity].
Qed.

Lemma get_app_Some {V} (k : text) (v : V) (d ns : dict V) :
  get k d = Some v -> get k (d ++ ns) = Some v.
Proof.
  induction d as [|[k' v'] d IH]; simpl; [discriminate|].
  destruct (text_eqb k k'); auto.
Qed.

(** X5: the loops only append.  Processing the files [ps] and then the
    files [qs] is processing [ps ++ qs]; what the later files do to the
    node dictionary and the edge list is to add at the end, so a node
    once registered keeps its place and its fields (the first write
    wins) and no edge is ever removed. *)
Theorem X5_later_files_only_append (ps qs : list (text * fobj))
        (st st2 : state) :
  process_files st (ps ++ qs) = Ok st2 ->
  exists st1 ns,
    process_files st ps = Ok st1
    /\ process_files st1 qs = Ok st2
    /\ fst st2 = fst st1 ++ ns
    /\ snd st2 = snd st1 ++ flat_map edges_of qs
    /\ forall k v, get k (fst st1) = Some v -> get k (fst st2) = Some v.
Proof.
  rewrite process_files_app.
  destruct (process_files st ps) as [st1|e] eqn:E1; simpl; [|discriminate].
  intros E2. destruct (process_files_extends _ _ _ E2) as (ns & N & E & _).
  exists st1, ns. repeat split; auto.
  intros k v Hk. rewrite N. apply get_app_Some; exact Hk.
Qed.

Lemma X5_witness :
  exists st1 ns,
    process_files ([], [])
      [(str "a.log", Regular (bytes_of "ERROR  message=x fatal"))] = Ok st1
    /\ process_files st1 [(str "err:x.log", Regular [])]
       = Ok ([(str "a", session_node (str "a"));
              (str "err:x", error_node (str "err:x") (str "x"))],
             [has_error (str "a") (str "err:x")])
    /\ [(str "a", session_node (str "a"));
        (str "err:x", error_node (str "err:x") (str "x"))] = fst st1 ++ ns
    /\ [has_error (str "a") (str "err:x")]
       = snd st1 ++ flat_map edges_of [(str "err:x.log", Regular [])]
    /\ forall k v,
         get k (fst st1) = Some v ->
         get k [(str "a", session_node (str "a"));
                (str "err:x", error_node (str "err:x") (str "x"))] = Some v.
Proof.
  exact (X5_later_files_only_append
           [(str "a.log", Regular (bytes_of "ERROR  message=x fatal"))]
           [(str "err:x.log", Regular [])]
           ([], [])
           ([(str "a", session_node (str "a"));
             (str "err:x", error_node (str "err:x") (str "x"))],
            [has_error (str "a") (str "err:x")])
           eq_refl).
Defined.

Lemma edges_of_length (ps : list (text * fobj)) :
  length (flat_map edges_of ps) = length (flat_map captures ps).
Proof.
  induction ps as [|p ps IH]; simpl; [reflexivity|].
  rewrite !length_app, IH. unfold edges_of. rewrite length_map.
  reflexivity.
Qed.

(** X6: the sizes of a finished run.  The two counts of the report are
    the lengths of the written lists; there is one edge per capture of
    the selected files; at most 200 files are selected; and the nodes
    number at most one per selected file plus one per edge.  The return
    code is 0. *)
Theorem X6_sizes_of_the_graph (log_dir : option directory) (out_ok : bool)
        (rep : report) :
  memory_graph log_dir out_ok = Ok rep ->
  node_count rep = length (nodes (written rep))
  /\ edge_count rep = length (edges (written rep))
  /\ edge_count rep = length (flat_map captures (selected log_dir))
  /\ length (selected log_dir) <= 200
  /\ node_count rep <= length (selected log_dir) + edge_count rep
  /\ rc rep = 0%Z.
Proof.
  unfold memory_graph.
  destruct (process_files ([], []) (selected log_dir)) as [st|e] eqn:E;
    simpl; [|discriminate].
  destruct out_ok; [|discriminate].
  intros H; inversion H; subst; clear H. simpl.
  destruct (process_files_extends _ _ _ E) as (ns & N & Ed & L).
  simpl in N, Ed.
  pose proof (edges_of_length (selected log_dir)) as F.
  split; [reflexivity|]. split; [reflexivity|].
  split; [rewrite Ed; exact F|].
  split; [unfold selected; rewrite slice_last_length; apply Nat.le_min_l|].
  split; [|reflexivity].
  unfold values. rewrite length_map, N, Ed. exact L.
Qed.

Lemma X6_witness :
  node_count Demo.two_sessions_report
  <= length (selected Demo.two_sessions) + edge_count Demo.two_sessions_report.
Proof.
  apply (X6_sizes_of_the_graph Demo.two_sessions true
           Demo.two_sessions_report eq_refl).
Defined.

(** ** The shape of nodes and captures *)

Lemma lstrip_head (s : text) (c : char) (r : text) :
  lstrip s = c :: r -> isspace c = false.
Proof.
  induction s as [|x s IH]; simpl; [discriminate|].
  destruct (isspace x) eqn:E; [exact IH|].
  intros H; inversion H; subst. exact E.
Qed.

Lemma lstrip_split (s : text) :
  exists ws, s = ws ++ lstrip s /\ forallb isspace ws = true.
Proof.
  induction s as [|x s (ws & E & W)]; simpl.
  - exists []. auto.
  - destruct (isspace x) eqn:Hx.
    + exists (x :: ws). simpl. rewrite Hx, W. split; [f_equal; exact E|auto].
    + exists []. auto.
Qed.

(** Trimming takes white space off both ends and nothing else. *)
Lemma strip_split (s : text) :
  exists l r, s = l ++ strip s ++ r
              /\ forallb isspace l = true /\ forallb isspace r = true.
Proof.
  unfold strip, rstrip.
  destruct (lstrip_split s) as (l & El & Wl).
  destruct (lstrip_split (rev (lstrip s))) as (w & Ew & Ww).
  exists l, (rev w). split; [|split; [exact Wl|]].
  - rewrite El at 1. f_equal.
    rewrite <- (rev_involutive (lstrip s)) at 1.
    rewrite Ew at 1. apply rev_app_distr.
  - rewrite forallb_forall in *. intros x Hx. apply Ww.
    apply in_rev. exact Hx.
Qed.

Lemma strip_head (s : text) (c : char) (r : text) :
  strip s = c :: r -> isspace c = false.
Proof.
  unfold strip, rstrip. intros H.
  destruct (lstrip_split (rev (lstrip s))) as (w & Ew & _).
  assert (E : lstrip s = rev (lstrip (rev (lstrip s))) ++ rev w).
  { rewrite <- (rev_involutive (lstrip s)) at 1. rewrite Ew at 1.
    apply rev_app_distr. }
  rewrite H in E. simpl in E. eapply lstrip_head; exact E.
Qed.

Lemma normalize_head (m : text) (c : char) (r : text) :
  normalize m = c :: r -> isspace c = false.
Proof.
  unfold normalize, slice_to, KEY_LEN.
  destruct (strip m) as [|x t] eqn:E; simpl; [discriminate|].
  intros H; inversion H; subst. eapply strip_head; exact E.
Qed.

Lemma normalize_length (m : text) : length (normalize m) <= 200.
Proof.
  unfold normalize, slice_to, KEY_LEN. rewrite length_firstn. lia.
Qed.

(** Every stored node is a Session node under its key, or the Error node
    of the key of some message. *)
Definition shaped (st : state) : Prop :=
  forall k v, In (k, v) (fst st) ->
    v = session_node k
    \/ exists m, k = err_id (normalize m)
                 /\ v = error_node k (normalize m).

Lemma fold_add_error_shaped (sid : text) (ms : list text) : forall st,
  shaped st -> shaped (fold_left (add_error sid) ms st).
Proof.
  induction ms as [|m ms IH]; intros st Hs; simpl; [exact Hs|].
  apply IH. intros k v. rewrite add_error_nodes. intros Hin.
  apply setdefault_In in Hin. destruct Hin as [Hin|[Hin _]]; [auto|].
  inversion Hin; subst. right. eauto.
Qed.

Lemma process_files_shaped (ps : list (text * fobj)) : forall st st',
  shaped st -> process_files st ps = Ok st' -> shaped st'.
Proof.
  induction ps as [|[name o] ps IH]; intros st st' Hs; simpl.
  - intros H; inversion H; subst; exact Hs.
  - destruct o as [content|]; [|discriminate].
    rewrite process_file_regular. simpl. apply IH.
    apply fold_add_error_shaped. intros k v Hin. simpl in Hin.
    apply setdefault_In in Hin. destruct Hin as [Hin|[Hin _]]; [auto|].
    inversion Hin; subst. left. reflexivity.
Qed.

(** X7: the nodes of every written graph have one of two shapes.  A node
    of type session has no label.  A node of type error has a label, its
    id is [err:] followed by that label, and the label has at most 200
    characters and does not begin with white space.  This holds whatever
    the files are named. *)
Theorem X7_shape_of_the_nodes (log_dir : option directory) (out_ok : bool)
        (rep : report) :
  memory_graph log_dir out_ok = Ok rep ->
  forall n, In n (nodes (written rep)) ->
    match type n with
    | session => label n = None
    | error =>
        exists k, label n = Some k /\ id n = str "err:" ++ k
                  /\ length k <= 200
                  /\ forall c r, k = c :: r -> isspace c = false
    end.
Proof.
  intros Hrun n Hn.
  destruct (@memory_graph_ok _ _ _ Hrun) as (st & Hst & _ & Hw).
  rewrite Hw in Hn. simpl in Hn. unfold values in Hn.
  apply in_map_iff in Hn. destruct Hn as ([k v] & <- & Hin). simpl.
  assert (Hs : shaped st).
  { eapply process_files_shaped; [|exact Hst]. intros ? ? []. }
  destruct (Hs _ _ Hin) as [->|(m & -> & ->)]; simpl; [reflexivity|].
  exists (normalize m). repeat split.
  - apply normalize_length.
  - apply normalize_head.
Qed.

Lemma X7_witness :
  exists k,
    label (error_node (str "err:disk full") (str "disk full")) = Some k
    /\ id (error_node (str "err:disk full") (str "disk full")) = str "err:" ++ k
    /\ length k <= 200
    /\ forall c r, k = c :: r -> isspace c = false.
Proof.
  apply (X7_shape_of_the_nodes Demo.two_sessions true
           Demo.two_sessions_report eq_refl
           (error_node (str "err:disk full") (str "disk full"))).
  vm_compute. right; left; reflexivity.
Defined.

(** The cut, unlike the trimming, can leave white space at the end. *)
Example key_may_end_in_white_space :
  last (normalize (repeat 120%N 199 ++ str " tail")) 0%N = 32%N.
Proof. vm_compute. reflexivity. Qed.

(** X8: every text the extraction pattern captures is non-empty, holds
    no newline, and, when it has more than one character, does not end in
    white space: trailing white space always goes to the boundary, so
    only leading white space is left for [strip] to remove from such a
    capture. *)
Theorem X8_shape_of_the_captures (T m : text) :
  In m (findall ERR_FLAGS err_re T) ->
  m <> []
  /\ no_newline m = true
  /\ forall m1 w, m1 <> [] -> m = m1 ++ [w] -> isspace w = false.
Proof.
  intros Hin. unfold findall in Hin. apply findall_from_sound in Hin.
  destruct Hin as (pre & tl & s1 & c1 & -> & Ha & ->).
  apply attempt_err_re in Ha.
  destruct Ha as (e & ws & mid & msg & m & rest & -> & _ & _ & _ & _ & _
                  & Hmn & Hm & Hb & Hs & ->).
  simpl. split; [exact Hmn|]. split; [exact Hm|].
  intros m1 w Hm1 ->.
  pose proof (Hs m1 [w] eq_refl Hm1 ltac:(discriminate)) as B.
  simpl in B. rewrite Hb, orb_true_r, andb_true_r in B. exact B.
Qed.

Lemma X8_witness :
  str "a b  c" <> []
  /\ no_newline (str "a b  c") = true
  /\ forall m1 w, m1 <> [] -> str "a b  c" = m1 ++ [w] -> isspace w = false.
Proof.
  apply (X8_shape_of_the_captures (str "ERROR message=a b  c   fatal")).
  vm_compute. left; reflexivity.
Defined.

(** ** Reading a file tolerantly *)

Lemma beyond_ascii_intro (c : char) :
  (128 <= c)%N -> scalar c = true -> beyond_ascii c = true.
Proof. unfold beyond_ascii, scalar. intros H1 H2. to_props. lia. Qed.

Lemma filter_ascii_drop (dropped r : list N) :
  Forall (fun b => (128 <= b)%N) dropped ->
  filter is_ascii (dropped ++ r) = filter is_ascii r.
Proof.
  induction 1 as [|b d Hb _ IH]; simpl; [reflexivity|].
  unfold is_ascii at 1. destruct (N.ltb_spec b 128); [lia|exact IH].
Qed.

Lemma beyond_not_ascii (c : char) : beyond_ascii c = true -> is_ascii c = false.
Proof. unfold beyond_ascii, is_ascii. intros H. to_props. lia. Qed.

(** The decoding step on any bytes whatever: the ASCII characters of the
    text are the ASCII bytes, in order; every other character is a code
    point from 128 up to 10FFFF that is no surrogate; and there are at
    most as many characters as bytes. *)
Lemma decoding_keeps_the_ascii (content : list byte) :
  filter is_ascii (utf8_ignore content)
  = filter is_ascii (List.map Byte.to_N content)
  /\ forallb (fun c => is_ascii c || beyond_ascii c) (utf8_ignore content)
     = true
  /\ length (utf8_ignore content) <= length content.
Proof.
  unfold utf8_ignore.
  rewrite <- (length_map Byte.to_N content).
  generalize (List.map Byte.to_N content) as bs.
  apply (decode_n_cases
           (fun bs t => filter is_ascii t = filter is_ascii bs
                        /\ forallb (fun c => is_ascii c || beyond_ascii c) t
                           = true
                        /\ length t <= length bs)).
  - simpl. auto.
  - intros b r Hb (F & A & L). simpl.
    assert (E : is_ascii b = true) by (apply N.ltb_lt; exact Hb).
    rewrite E, F, A. simpl. repeat split; auto. lia.
  - intros d r Hd Hf (F & A & L).
    rewrite (filter_ascii_drop d r Hf), length_app. repeat split; auto. lia.
  - intros bytes cp r Hb Hf Hlo Hsc _ (F & A & L). simpl.
    pose proof (beyond_ascii_intro cp Hlo Hsc) as Hc.
    rewrite (beyond_not_ascii cp Hc), Hc, (filter_ascii_drop bytes r Hf).
    rewrite length_app. simpl. repeat split; auto.
    destruct bytes; [congruence|simpl; lia].
Qed.

Lemma universal_newlines_facts (s : text) :
  filter plain_ascii (TextMode.universal_newlines s) = filter plain_ascii s
  /\ forallb (fun c => negb (c =? TextMode.CR)%N)
             (TextMode.universal_newlines s) = true
  /\ length (TextMode.universal_newlines s) <= length s
  /\ (forall c, In c (TextMode.universal_newlines s) -> c = NL \/ In c s).
Proof.
  remember (length s) as n eqn:Hn.
  assert (Hle : length s <= n) by lia. clear Hn.
  revert s Hle. induction n as [|n IH]; intros s Hle.
  { destruct s; [simpl; repeat split; auto|simpl in Hle; lia]. }
  destruct s as [|x s]; [simpl; repeat split; auto|]. simpl in Hle.
  cbn [TextMode.universal_newlines].
  destruct (N.eqb_spec x TextMode.CR) as [->|Hx].
  - destruct s as [|y s].
    + simpl. repeat split; auto. intros c [<-|[]]. auto.
    + simpl in Hle.
      destruct (N.eqb_spec y NL) as [->|Hy].
      * destruct (IH s ltac:(lia)) as (F & C & L & I).
        simpl. repeat split; auto; [lia|].
        intros c [<-|Hc]; [auto|]. destruct (I c Hc); auto.
      * destruct (IH (y :: s) ltac:(simpl; lia)) as (F & C & L & I).
        simpl in *. repeat split; auto; [lia|].
        intros c [<-|Hc]; [auto|]. destruct (I c Hc); auto.
  - destruct (IH s ltac:(lia)) as (F & C & L & I).
    cbn [filter forallb length]. rewrite F, C.
    apply N.eqb_neq in Hx. rewrite Hx. simpl.
    repeat split; auto; [lia|].
    intros c [<-|Hc]; [auto|]. destruct (I c Hc); auto.
Qed.

Lemma universal_newlines_id (s : text) :
  ~ In TextMode.CR s -> TextMode.universal_newlines s = s.
Proof.
  induction s as [|x s IH]; simpl; [reflexivity|].
  intros H. destruct (N.eqb_spec x TextMode.CR) as [->|_]; [tauto|].
  f_equal. apply IH. tauto.
Qed.

Lemma filter_filter_plain (l : list N) :
  filter plain_ascii (filter is_ascii l) = filter plain_ascii l.
Proof.
  induction l as [|x l IH]; simpl; [reflexivity|].
  unfold is_ascii at 1. unfold plain_ascii at 2.
  destruct (x <? 128)%N eqn:E; simpl; [|exact IH].
  unfold plain_ascii at 1. rewrite E, IH. reflexivity.
Qed.

(** X9: what [read_text(encoding="utf-8", errors="ignore")] returns for
    any bytes whatever.  The ASCII characters of the text other than
    line ends are exactly those bytes of the file, in order: none is
    lost, changed or made up.  The text holds no carriage return, every
    character beyond ASCII is a code point up to 10FFFF that is no
    surrogate, and there are at most as many characters as bytes.  For a
    file without the byte 13 the text is the decoded text itself. *)
Theorem X9_what_reading_keeps (content : list byte) :
  filter plain_ascii (TextMode.read_text_of content)
  = filter plain_ascii (List.map Byte.to_N content)
  /\ ~ In TextMode.CR (TextMode.read_text_of content)
  /\ forallb (fun c => is_ascii c || beyond_ascii c)
             (TextMode.read_text_of content) = true
  /\ length (TextMode.read_text_of content) <= length content
  /\ read_text (Regular content) = Ok (TextMode.read_text_of content)
  /\ (~ In TextMode.CR (List.map Byte.to_N content) ->
      read_text (Regular content) = Ok (utf8_ignore content)).
Proof.
  unfold TextMode.read_text_of.
  destruct (decoding_keeps_the_ascii content) as (DF & DA & DL).
  destruct (universal_newlines_facts (utf8_ignore content))
    as (UF & UC & UL & UI).
  split; [|split; [|split; [|split; [|split]]]].
  - rewrite UF, <- (filter_filter_plain (utf8_ignore content)), DF.
    apply filter_filter_plain.
  - intros Hin. rewrite forallb_forall in UC. specialize (UC _ Hin).
    rewrite N.eqb_refl in UC. discriminate.
  - rewrite forallb_forall in *. intros c Hc.
    destruct (UI c Hc) as [->|Hin]; [reflexivity|apply DA; exact Hin].
  - lia.
  - reflexivity.
  - intros Hcr. simpl. unfold TextMode.read_text_of. f_equal.
    apply universal_newlines_id.
    intros Hin. apply Hcr.
    assert (A : In TextMode.CR (filter is_ascii (utf8_ignore content)))
      by (apply filter_In; split; [exact Hin|reflexivity]).
    rewrite DF in A. apply filter_In in A. tauto.
Qed.

Lemma X9_witness :
  read_text (Regular (bytes_of "ERROR  message=x code=1"))
  = Ok (utf8_ignore (bytes_of "ERROR  message=x code=1")).
Proof.
  apply (proj2 (proj2 (proj2 (proj2 (proj2
           (X9_what_reading_keeps (bytes_of "ERROR  message=x code=1"))))))).
  vm_compute. intuition discriminate.
Defined.

(** With carriage returns the text read is not the decoded text: the
    pattern's [.] would pass a carriage return, and it stops at the
    newline that text mode puts in its place. *)
Example carriage_return_ends_a_line :
  TextMode.read_text_of [x61; x0d; x0a; x62; x0d; x63]
  = [97; 10; 98; 10; 99]%N
  /\ utf8_ignore [x61; x0d; x0a; x62; x0d; x63] = [97; 13; 10; 98; 13; 99]%N.
Proof. vm_compute. auto. Qed.

(** ** The order in which the system lists a directory *)

Lemma text_leb_antisym (a b : text) :
  text_leb a b = true -> text_leb b a = true -> a = b.
Proof.
  revert b; induction a as [|x a IH]; intros [|y b]; simpl; auto;
    try discriminate.
  destruct (N.ltb_spec x y) as [Hxy|Hxy].
  - destruct (N.ltb_spec y x); [lia|].
    destruct (N.eqb_spec y x); [lia|discriminate].
  - destruct (N.eqb_spec x y) as [->|]; [|discriminate].
    rewrite N.ltb_irrefl, N.eqb_refl. intros H1 H2. f_equal. auto.
Qed.

Lemma text_leb_refl (a : text) : text_leb a a = true.
Proof.
  induction a as [|x a IH]; simpl; [reflexivity|].
  rewrite N.ltb_irrefl, N.eqb_refl. exact IH.
Qed.

Lemma Permutation_filter_keep {A} (f : A -> bool) (l l' : list A) :
  Permutation l l' -> Permutation (filter f l) (filter f l').
Proof.
  induction 1 as [|x l l' _ IH|x y l|l l' l'' _ IH1 _ IH2]; simpl.
  - constructor.
  - destruct (f x); [constructor|]; exact IH.
  - destruct (f x), (f y); try reflexivity. apply perm_swap.
  - etransitivity; eassumption.
Qed.

Lemma NoDup_map_filter {A B} (g : A -> B) (f : A -> bool) (l : list A) :
  NoDup (List.map g l) -> NoDup (List.map g (filter f l)).
Proof.
  induction l as [|x l IH]; simpl; [auto|].
  intros H. inversion H as [|? ? Hn Hd]; subst.
  destruct (f x); [|auto]. simpl. constructor; [|auto].
  intros Hin. apply Hn. apply in_map_iff in Hin.
  destruct Hin as (y & <- & Hy). apply in_map. apply filter_In in Hy. tauto.
Qed.

(** Two sorted arrangements of entries with distinct names are one. *)
Lemma sorted_arrangement_unique {A} (key : A -> text) (l1 : list A) :
  forall l2,
    StronglySorted (key_le key) l1 -> StronglySorted (key_le key) l2 ->
    Permutation l1 l2 -> NoDup (List.map key l1) -> l1 = l2.
Proof.
  induction l1 as [|x l1 IH]; intros l2 S1 S2 HP HN.
  - apply Permutation_nil in HP. congruence.
  - destruct l2 as [|y l2];
      [apply Permutation_sym, Permutation_nil in HP; discriminate|].
    inversion S1 as [|? ? S1' F1]; subst.
    inversion S2 as [|? ? S2' F2]; subst.
    rewrite Forall_forall in F1, F2.
    assert (Hy : In y (x :: l1))
      by (eapply Permutation_in; [apply Permutation_sym; exact HP|left; auto]).
    assert (Hx : In x (y :: l2))
      by (eapply Permutation_in; [exact HP|left; auto]).
    assert (Kxy : key_le key x y).
    { destruct Hy as [<-|Hy]; [apply text_leb_refl|apply F1; exact Hy]. }
    assert (Kyx : key_le key y x).
    { destruct Hx as [<-|Hx]; [apply text_leb_refl|apply F2; exact Hx]. }
    assert (K : key x = key y) by (apply text_leb_antisym; assumption).
    assert (E : x = y).
    { destruct Hy as [Hy|Hy]; [exact Hy|]. exfalso.
      inversion HN as [|? ? Hn _]; subst. apply Hn. rewrite K.
      apply in_map. exact Hy. }
    subst y. f_equal. apply IH; auto.
    + eapply Permutation_cons_inv; exact HP.
    + inversion HN; assumption.
Qed.

(** X10: the run does not depend on the order in which the system lists
    the directory.  Two listings of the same entries, names being
    distinct as they are in a directory, select the same files in the
    same order, and the builder returns the same for both. *)
Theorem X10_listing_order_is_irrelevant (d1 d2 : directory) :
  Permutation d1 d2 ->
  NoDup (List.map (@fst text fobj) d1) ->
  selected (Some d1) = selected (Some d2)
  /\ forall out_ok, memory_graph (Some d1) out_ok = memory_graph (Some d2) out_ok.
Proof.
  intros HP HN.
  assert (E : sorted (@fst text fobj) (glob_log (Some d1))
              = sorted (@fst text fobj) (glob_log (Some d2))).
  { apply (sorted_arrangement_unique (@fst text fobj)).
    - apply sorted_sorted.
    - apply sorted_sorted.
    - rewrite !sorted_perm. simpl. apply Permutation_filter_keep. exact HP.
    - eapply Permutation_NoDup;
        [apply Permutation_map, Permutation_sym, sorted_perm|].
      simpl. apply NoDup_map_filter. exact HN. }
  assert (S : selected (Some d1) = selected (Some d2))
    by (unfold selected; rewrite E; reflexivity).
  split; [exact S|].
  intros out_ok. unfold memory_graph. rewrite S. reflexivity.
Qed.

Lemma X10_witness :
  selected Demo.two_sessions
  = selected (Some [ (str "notes.txt", Unreadable);
                     (str "a.log",
                      Regular (bytes_of "ERROR  message=disk full code=E1"));
                     (str "b.log",
                      Regular (bytes_of "ERROR 12:00 service=fs message=disk full fatal")) ]).
Proof.
  apply (X10_listing_order_is_irrelevant
           [ (str "b.log",
              Regular (bytes_of "ERROR 12:00 service=fs message=disk full fatal"));
             (str "a.log",
              Regular (bytes_of "ERROR  message=disk full code=E1"));
             (str "notes.txt", Unreadable) ]
           [ (str "notes.txt", Unreadable);
             (str "a.log",
              Regular (bytes_of "ERROR  message=disk full code=E1"));
             (str "b.log",
              Regular (bytes_of "ERROR 12:00 service=fs message=disk full fatal")) ]).
  - eapply perm_trans; [apply perm_swap|].
    eapply perm_trans; [apply perm_skip, perm_swap|].
    apply perm_swap.
  - vm_compute. repeat constructor; simpl; intuition discriminate.
Defined.

(** ** [fallback_doctor] *)

(** A run that cannot have ended as supposed. *)
Ltac absurd_run :=
  let H := fresh "H" in intros H; simpl in H; discriminate H.

Lemma bad_indexes_nil (ms : list json) : forall i,
  bad_indexes i ms = [] <-> forallb (fun m => negb (bad_entry m)) ms = true.
Proof.
  induction ms as [|m ms IH]; intros i; simpl; [tauto|].
  destruct (bad_entry m); simpl.
  - split; discriminate.
  - apply IH.
Qed.

Lemma bad_indexes_spec (ms : list json) : forall k i,
  In i (bad_indexes k ms)
  <-> exists j m, i = k + j /\ nth_error ms j = Some m /\ bad_entry m = true.
Proof.
  induction ms as [|m ms IH]; intros k i; simpl.
  - split; [contradiction|]. intros (j & m & _ & H & _).
    destruct j; discriminate.
  - assert (Rest : In i (bad_indexes (S k) ms) <->
                   exists j m', i = k + S j /\ nth_error ms j = Some m'
                                /\ bad_entry m' = true).
    { rewrite IH. split; intros (j & m' & E & H); exists j, m';
        (split; [lia|exact H]). }
    destruct (bad_entry m) eqn:B; simpl; rewrite ?Rest; split.
    + intros [<-|(j & m' & E & H)].
      * exists 0, m. simpl. repeat split; auto.
      * exists (S j), m'. simpl. auto.
    + intros (j & m' & E & H & Hb). destruct j as [|j]; simpl in H.
      * left. lia.
      * right. exists j, m'. auto.
    + intros (j & m' & E & H). exists (S j), m'. simpl. auto.
    + intros (j & m' & E & H & Hb). destruct j as [|j]; simpl in H.
      * inversion H; subst. congruence.
      * exists j, m'. auto.
Qed.

Lemma bad_indexes_sorted (ms : list json) : forall k,
  StronglySorted lt (bad_indexes k ms)
  /\ Forall (fun i => k <= i) (bad_indexes k ms).
Proof.
  induction ms as [|m ms IH]; intros k; simpl.
  - split; constructor.
  - destruct (IH (S k)) as [S1 F1].
    assert (F : Forall (fun i => k <= i) (bad_indexes (S k) ms))
      by (eapply Forall_impl; [|exact F1]; simpl; intros; lia).
    destruct (bad_entry m).
    + split; constructor; auto.
    + split; assumption.
Qed.

(** The existence tests return when every candidate can be examined,
    and then keep the candidates where something is found; they raise
    when some candidate cannot be examined. *)
Lemma existing_ok (e : env) (ps : list path) :
  examinable e ps -> existing e ps = Return (filter (present e) ps).
Proof.
  unfold examinable. induction ps as [|p ps IH]; intros H; [reflexivity|].
  cbn [existing filter]. rewrite IH by (intros q Hq; apply H; right; exact Hq).
  pose proof (H p (or_introl eq_refl)) as Hp.
  unfold exists_, present. destruct (fs e p); cbn [and_then];
    try reflexivity. congruence.
Qed.

Lemma existing_bad (e : env) (ps : list path) :
  (exists p, In p ps /\ fs e p = Unreachable) ->
  existing e ps = Raises ExOSError.
Proof.
  induction ps as [|p ps IH]; intros (q & Hq & Hu); [contradiction|].
  cbn [existing]. unfold exists_. destruct Hq as [<-|Hq].
  - rewrite Hu. reflexivity.
  - rewrite IH by eauto. destruct (fs e p); reflexivity.
Qed.

Lemma examinable_or_not (e : env) (ps : list path) :
  examinable e ps \/ exists p, In p ps /\ fs e p = Unreachable.
Proof.
  unfold examinable. induction ps as [|p ps IH]; [left; intros q []|].
  destruct IH as [IH|(q & Hq & Hu)].
  - destruct (fs e p) eqn:Hfs;
      try (left; intros q [<-|Hq]; [congruence|auto]).
    right. exists p. split; [left; reflexivity|exact Hfs].
  - right. exists q. split; [right; exact Hq|exact Hu].
Qed.

Lemma existing_returns (e : env) (ps l : list path) :
  existing e ps = Return l <-> examinable e ps /\ l = filter (present e) ps.
Proof.
  split.
  - intros H. destruct (examinable_or_not e ps) as [Hex|Hbad].
    + rewrite (existing_ok e ps Hex) in H. inversion H. auto.
    + rewrite (existing_bad e ps Hbad) in H. discriminate.
  - intros [Hex ->]. apply existing_ok. exact Hex.
Qed.

Lemma existing_raises (e : env) (ps : list path) (x : exc) :
  existing e ps = Raises x
  <-> x = ExOSError /\ exists p, In p ps /\ fs e p = Unreachable.
Proof.
  split.
  - intros H. destruct (examinable_or_not e ps) as [Hex|Hbad].
    + rewrite (existing_ok e ps Hex) in H. discriminate.
    + rewrite (existing_bad e ps Hbad) in H. inversion H. auto.
  - intros [-> Hbad]. apply existing_bad. exact Hbad.
Qed.

(** X11: [fallback_doctor] returns 0 exactly when a home directory is
    known, each of the four candidates (project [.opencode/], project
    root, home [.opencode/], XDG config, in this order) can be examined,
    and the first candidate where something is found holds a JSON object
    whose [fallbackModels] is a non-empty list in which every entry is
    an object with a true [providerID] and a true [modelID]; it then
    reports that path and the number of entries.  The later candidates
    are tested for existence and never read. *)
Theorem X11_doctor_succeeds_iff (e : env) (cwd : path)
        (out : list doctor_line) :
  fallback_doctor e cwd = Return (out, 0%Z)
  <-> exists cands sel rest d ms,
        find_fallback_candidates e cwd = Return cands
        /\ examinable e cands
        /\ filter (present e) cands = sel :: rest
        /\ fs e sel = Holds (JObj d)
        /\ get (str "fallbackModels") d = Some (JArr ms)
        /\ ms <> []
        /\ forallb (fun m => negb (bad_entry m)) ms = true
        /\ out = [OkConfig sel; OkCount (length ms)].
Proof.
  unfold fallback_doctor. split.
  - destruct (find_fallback_candidates e cwd) as [cands|x] eqn:C;
      cbn [and_then]; [|discriminate].
    destruct (existing e cands) as [found|x] eqn:Ex;
      cbn [and_then]; [|discriminate].
    apply existing_returns in Ex. destruct Ex as [Hex ->].
    destruct (filter (present e) cands) as [|sel rest] eqn:F;
      [discriminate|].
    unfold load_json.
    destruct (fs e sel) as [| |x|v] eqn:Hfs; cbn [and_then]; try absurd_run.
    destruct v as [| | | | | |d]; cbn [and_then dict_get]; try absurd_run.
    destruct (get (str "fallbackModels") d) as [v|] eqn:G; [|absurd_run].
    destruct v as [| | | | |ms|]; try absurd_run.
    destruct ms as [|m ms]; [absurd_run|].
    destruct (bad_indexes 0 (m :: ms)) as [|b bs] eqn:B; [|absurd_run].
    intros H; inversion H; subst.
    exists cands, sel, rest, d, (m :: ms).
    split; [reflexivity|]. split; [exact Hex|]. split; [exact F|].
    split; [exact Hfs|]. split; [exact G|].
    split; [discriminate|]. split; [|reflexivity].
    apply (bad_indexes_nil (m :: ms) 0). exact B.
  - intros (cands & sel & rest & d & ms & -> & Hex & F & Hfs & G & Hne & Hb
            & ->).
    cbn [and_then].
    rewrite (proj2 (existing_returns e cands _) (conj Hex eq_refl)), F.
    cbn [and_then]. unfold load_json. rewrite Hfs.
    cbn [and_then dict_get].
    rewrite G. destruct ms as [|m ms]; [congruence|].
    apply (bad_indexes_nil (m :: ms) 0) in Hb. rewrite Hb. reflexivity.
Qed.

Lemma X11_witness :
  fallback_doctor Samples.home_only Samples.project
  = Return ([OkConfig Samples.home_config; OkCount 1], 0%Z).
Proof.
  apply (proj2 (X11_doctor_succeeds_iff Samples.home_only Samples.project
                  [OkConfig Samples.home_config; OkCount 1])).
  eexists. exists Samples.home_config, [],
         [(str "fallbackModels", JArr [Samples.haiku_entry])],
         [Samples.haiku_entry].
  split; [reflexivity|]. split.
  - intros p [<-|[<-|[<-|[<-|[]]]]]; vm_compute; discriminate.
  - vm_compute. repeat split; discriminate.
Defined.

Lemma first_found_exists (e : env) (cands : list path) (sel : path)
      (rest : list path) :
  filter (present e) cands = sel :: rest -> fs e sel <> Absent.
Proof.
  intros F.
  assert (H : In sel (filter (present e) cands))
    by (rewrite F; left; reflexivity).
  apply filter_In in H. destruct H as [_ H]. unfold present in H.
  intros E. rewrite E in H. discriminate.
Qed.

(** X12: [fallback_doctor] ends by an exception exactly in these cases:
    no home directory is known (a runtime error); one of the four
    candidates cannot be examined (the error of the test, whatever the
    other candidates hold); or, all candidates having been examined, the
    first one where something is found cannot be loaded (the exception
    of the load is the one raised) or holds a JSON value that is not an
    object (an attribute error).  No verdict is printed then, and no
    other candidate is read. *)
Theorem X12_doctor_raises_iff (e : env) (cwd : path) (x : exc) :
  fallback_doctor e cwd = Raises x
  <-> (home e = None /\ x = ExRuntimeError)
      \/ exists cands,
           find_fallback_candidates e cwd = Return cands
           /\ (((exists p, In p cands /\ fs e p = Unreachable)
                /\ x = ExOSError)
               \/ (examinable e cands
                   /\ exists sel rest,
                        filter (present e) cands = sel :: rest
                        /\ (fs e sel = Fails x
                            \/ exists v, fs e sel = Holds v
                                         /\ (forall d, v <> JObj d)
                                         /\ x = ExAttributeError))).
Proof.
  unfold fallback_doctor. split.
  - destruct (find_fallback_candidates e cwd) as [cands|y] eqn:C;
      cbn [and_then].
    + intros H. right. exists cands. split; [reflexivity|].
      destruct (existing e cands) as [found|y] eqn:Ex; cbn [and_then] in H.
      * right. apply existing_returns in Ex. destruct Ex as [Hex ->].
        split; [exact Hex|].
        destruct (filter (present e) cands) as [|sel rest] eqn:F;
          [discriminate|].
        pose proof (first_found_exists _ _ _ _ F) as Hne.
        assert (Hre : fs e sel <> Unreachable).
        { apply Hex. assert (In sel (filter (present e) cands))
            by (rewrite F; left; reflexivity).
          apply filter_In in H0. tauto. }
        exists sel, rest. split; [reflexivity|].
        unfold load_json in H.
        destruct (fs e sel) as [| |y|v] eqn:Hfs; cbn [and_then] in H;
          [congruence|congruence| |].
        -- inversion H; subst. left; reflexivity.
        -- right. exists v. split; [reflexivity|].
           destruct v as [| | | | | |d]; cbn [and_then dict_get] in H;
             try (inversion H; subst; split; [discriminate|reflexivity]).
           exfalso.
           destruct (get (str "fallbackModels") d) as [v|];
             [|discriminate H].
           destruct v as [| | | | |ms|]; try discriminate H.
           destruct ms as [|m ms]; [discriminate H|].
           destruct (bad_indexes 0 (m :: ms)); discriminate H.
      * left. inversion H; subst y.
        destruct (proj1 (existing_raises e cands x) Ex) as [-> Hp].
        split; [exact Hp|reflexivity].
    + intros H; inversion H; subst y. left.
      unfold find_fallback_candidates in C.
      destruct (home e); [discriminate|].
      inversion C. auto.
  - intros [[Hh ->]|(cands & -> & [[Hp ->]|(Hex & sel & rest & F & Hs)])].
    + unfold find_fallback_candidates. rewrite Hh. reflexivity.
    + cbn [and_then].
      rewrite (proj2 (existing_raises e cands ExOSError) (conj eq_refl Hp)).
      reflexivity.
    + cbn [and_then].
      rewrite (proj2 (existing_returns e cands _) (conj Hex eq_refl)), F.
      cbn [and_then]. unfold load_json.
      destruct Hs as [Hf|(v & Hv & Hn & ->)].
      * rewrite Hf. reflexivity.
      * rewrite Hv. cbn [and_then].
        destruct v as [| | | | | |d]; try reflexivity.
        exfalso. apply (Hn d). reflexivity.
Qed.

Lemma X12_witness :
  fallback_doctor Samples.broken_local Samples.project = Raises ExValueError.
Proof.
  apply (proj2 (X12_doctor_raises_iff Samples.broken_local Samples.project
                  ExValueError)).
  right. eexists. split; [reflexivity|]. right. split.
  - intros p [<-|[<-|[<-|[<-|[]]]]]; vm_compute; discriminate.
  - exists Samples.local_config, [Samples.home_config].
    split; [reflexivity|]. left. reflexivity.
Defined.

(** A candidate that cannot be examined ends the check, although the
    candidate before it is in order and would have been the one
    selected. *)
Example later_candidate_ends_the_check :
  fallback_doctor Samples.locked_home Samples.project = Raises ExOSError
  /\ fs Samples.locked_home Samples.local_config = Holds Samples.good_config.
Proof. split; reflexivity. Qed.

(** X13: when the existence tests have selected a configuration and it
    holds a list with some bad entry (not an object, or without a true
    [providerID] or [modelID]), [fallback_doctor] returns 1 and reports
    the indexes of the bad entries: exactly the positions, counted from
    0, of the bad entries, in increasing order. *)
Theorem X13_doctor_reports_the_bad_indexes (e : env) (cwd sel : path)
        (cands rest : list path) (d : list (text * json)) (ms : list json) :
  find_fallback_candidates e cwd = Return cands ->
  existing e cands = Return (sel :: rest) ->
  fs e sel = Holds (JObj d) ->
  get (str "fallbackModels") d = Some (JArr ms) ->
  existsb bad_entry ms = true ->
  fallback_doctor e cwd = Return ([InvalidEntries (bad_indexes 0 ms) sel], 1%Z)
  /\ StronglySorted lt (bad_indexes 0 ms)
  /\ forall i, In i (bad_indexes 0 ms)
               <-> exists m, nth_error ms i = Some m /\ bad_entry m = true.
Proof.
  intros C F Hfs G Hb.
  assert (Hne : bad_indexes 0 ms <> []).
  { intros E. apply (bad_indexes_nil ms 0) in E.
    apply existsb_exists in Hb. destruct Hb as (m & Hm & Hbad).
    rewrite forallb_forall in E. specialize (E m Hm).
    rewrite Hbad in E. discriminate. }
  split; [|split].
  - unfold fallback_doctor. rewrite C. cbn [and_then]. rewrite F.
    cbn [and_then]. unfold load_json. rewrite Hfs.
    cbn [and_then dict_get]. rewrite G.
    destruct ms as [|m ms]; [discriminate|].
    destruct (bad_indexes 0 (m :: ms)); [congruence|reflexivity].
  - apply bad_indexes_sorted.
  - intros i. rewrite bad_indexes_spec. split.
    + intros (j & m & -> & H). exists m. exact H.
    + intros (m & H). exists i, m. split; [reflexivity|exact H].
Qed.

Lemma X13_witness :
  fallback_doctor Samples.mixed_local Samples.project
  = Return ([InvalidEntries [1; 3] Samples.local_config], 1%Z).
Proof.
  exact (proj1 (X13_doctor_reports_the_bad_indexes Samples.mixed_local
           Samples.project Samples.local_config _ []
           [(str "fallbackModels",
             JArr [ Samples.haiku_entry;
                    JObj [ (str "providerID", JStr []);
                           (str "modelID", JStr (str "m")) ];
                    Samples.haiku_entry;
                    JStr (str "anthropic/claude-haiku-4-5") ])]
           [ Samples.haiku_entry;
             JObj [ (str "providerID", JStr []);
                    (str "modelID", JStr (str "m")) ];
             Samples.haiku_entry;
             JStr (str "anthropic/claude-haiku-4-5") ]
           eq_refl eq_refl eq_refl eq_refl eq_refl)).
Defined.

(** ** [plugin_health] *)

Lemma known_bad_of_strings (names : list text) :
  known_bad (List.map JStr names)
  = Return (filter (fun s => startswith s TOKEN_MONITOR) names).
Proof.
  induction names as [|n names IH]; simpl; [reflexivity|].
  rewrite IH. destruct (startswith n TOKEN_MONITOR); reflexivity.
Qed.

Lemma known_bad_returns (ps : list json) (l : list text) :
  known_bad ps = Return l -> exists names, ps = List.map JStr names.
Proof.
  revert l; induction ps as [|p ps IH]; intros l; simpl.
  - exists []. reflexivity.
  - destruct p as [| | | |s| |]; try discriminate.
    destruct (known_bad ps) as [l'|x] eqn:K.
    + destruct (IH l' eq_refl) as [names ->]. intros _.
      exists (s :: names). reflexivity.
    + destruct (startswith s TOKEN_MONITOR); discriminate.
Qed.

Lemma known_bad_raises (ps : list json) :
  existsb (fun p => negb (is_str p)) ps = true ->
  known_bad ps = Raises ExAttributeError.
Proof.
  induction ps as [|p ps IH]; simpl; [discriminate|].
  destruct p as [| | | |s| |]; simpl; try reflexivity.
  intros H. rewrite (IH H).
  destruct (startswith s TOKEN_MONITOR); reflexivity.
Qed.

Lemma existsb_py_eq_strings (n : text) (seen : list text) :
  existsb (py_eq (JStr n)) (List.map JStr seen) = existsb (text_eqb n) seen.
Proof.
  induction seen as [|s seen IH]; simpl; [reflexivity|].
  rewrite IH. reflexivity.
Qed.

(** On strings the loop collects the entries that repeat an earlier
    one. *)
Lemma dup_loop_strings (names : list text) : forall seen dup,
  dup_loop (List.map JStr names) (List.map JStr seen) dup
  = Return (dup ++ List.map JStr (repeats names seen)).
Proof.
  induction names as [|n names IH]; intros seen dup; simpl.
  - rewrite app_nil_r. reflexivity.
  - change (JStr n :: List.map JStr seen) with (List.map JStr (n :: seen)).
    rewrite IH, existsb_py_eq_strings.
    destruct (existsb (text_eqb n) seen); simpl; [|reflexivity].
    rewrite <- app_assoc. reflexivity.
Qed.

Lemma existsb_text_eqb (n : text) (l : list text) :
  existsb (text_eqb n) l = true <-> In n l.
Proof.
  rewrite existsb_exists. split.
  - intros (x & Hx & E). apply text_eqb_eq in E. subst. exact Hx.
  - intros H. exists n. split; [exact H|apply text_eqb_refl].
Qed.

(** An entry is collected when an equal entry came before it. *)
Lemma repeats_In (names : list text) : forall seen n,
  In n (repeats names seen)
  <-> exists l1 l2, names = l1 ++ n :: l2 /\ (In n l1 \/ In n seen).
Proof.
  induction names as [|a names IH]; intros seen n; simpl.
  - split; [contradiction|]. intros (l1 & l2 & E & _).
    destruct l1; discriminate.
  - assert (Rest : In n (repeats names (a :: seen)) <->
                   exists l1 l2, a :: names = (a :: l1) ++ n :: l2
                                 /\ (In n (a :: l1) \/ In n seen)).
    { rewrite IH. split; intros (l1 & l2 & E & H); exists l1, l2.
      - split; [simpl; f_equal; exact E|]. simpl in *. tauto.
      - split; [simpl in E; inversion E; reflexivity|]. simpl in *. tauto. }
    destruct (existsb (text_eqb a) seen) eqn:Ex.
    + apply existsb_text_eqb in Ex. simpl. rewrite Rest. split.
      * intros [<-|(l1 & l2 & E & H)].
        -- exists [], names. simpl. auto.
        -- exists (a :: l1), l2. auto.
      * intros (l1 & l2 & E & H). destruct l1 as [|b l1]; simpl in E.
        -- inversion E; subst. left; reflexivity.
        -- inversion E; subst. right. exists l1, l2. auto.
    + rewrite Rest. split.
      * intros (l1 & l2 & E & H). exists (a :: l1), l2. auto.
      * intros (l1 & l2 & E & H). destruct l1 as [|b l1]; simpl in E.
        -- inversion E; subst. exfalso. destruct H as [[]|H].
           apply existsb_text_eqb in H. congruence.
        -- inversion E; subst. exists l1, l2. auto.
Qed.

Lemma repeats_nil (names : list text) :
  repeats names [] = [] <-> NoDup names.
Proof.
  split.
  - intros E. induction names as [|a names IH] using rev_ind;
      [constructor|].
    assert (H : forall n, ~ In n (repeats (names ++ [a]) []))
      by (rewrite E; auto).
    rewrite <- (rev_involutive (names ++ [a])).
    apply NoDup_rev. rewrite rev_app_distr. simpl. constructor.
    + intros Hin. apply in_rev in Hin. apply (H a).
      apply repeats_In. exists names, []. auto.
    + apply NoDup_rev. apply IH.
      destruct (repeats names []) as [|n l] eqn:R; [reflexivity|].
      exfalso. apply (H n). apply repeats_In.
      assert (Hn : In n (repeats names [])) by (rewrite R; left; reflexivity).
      apply repeats_In in Hn. destruct Hn as (l1 & l2 & -> & Hl).
      exists l1, (l2 ++ [a]). rewrite <- app_assoc. auto.
  - intros HN. destruct (repeats names []) as [|n l] eqn:R; [reflexivity|].
    exfalso.
    assert (Hn : In n (repeats names [])) by (rewrite R; left; reflexivity).
    apply repeats_In in Hn. destruct Hn as (l1 & l2 & -> & [Hl|[]]).
    apply NoDup_remove_2 in HN. apply HN. apply in_or_app. auto.
Qed.

Lemma dup_loop_unhashable (ps : list json) : forall seen dup,
  existsb (fun p => negb (hashable p)) ps = true ->
  dup_loop ps seen dup = Raises ExTypeError.
Proof.
  induction ps as [|p ps IH]; intros seen dup; simpl; [discriminate|].
  destruct (hashable p); simpl; [apply IH|reflexivity].
Qed.

Lemma plugin_health_strings (e : env) (p : path) (d : list (text * json))
      (names : list text) :
  fs e p = Holds (JObj d) ->
  get (str "plugin") d = Some (JArr (List.map JStr names)) ->
  plugin_health e p
  = match repeats names [] with
    | [] => Return (warning (filter (fun s => startswith s TOKEN_MONITOR) names)
                    ++ [OkPlugins (length names)], 0%Z)
    | dup => Return ([Duplicates (List.map JStr dup)], 1%Z)
    end.
Proof.
  intros Hfs G. unfold plugin_health, exists_, load_json. rewrite Hfs.
  cbn [negb and_then dict_get]. rewrite G.
  change (@nil json) with (List.map JStr []) at 1.
  rewrite dup_loop_strings. cbn [and_then app].
  destruct (repeats names []) as [|n l]; [|reflexivity].
  cbn [List.map]. rewrite known_bad_of_strings. cbn [and_then].
  rewrite length_map. reflexivity.
Qed.

(** X14: [plugin_health] returns 0 exactly when the configuration holds a
    JSON object whose [plugin] field is absent or is a list of strings
    without duplicates.  It then prints the warning and the plugins that
    start with [opencode-token-monitor@], if any, in the order of the
    list, and the number of entries. *)
Theorem X14_plugins_healthy_iff (e : env) (p : path)
        (out : list plugin_line) :
  plugin_health e p = Return (out, 0%Z)
  <-> exists d names,
        fs e p = Holds (JObj d)
        /\ (get (str "plugin") d = Some (JArr (List.map JStr names))
            \/ (get (str "plugin") d = None /\ names = []))
        /\ NoDup names
        /\ out = warning (filter (fun s => startswith s TOKEN_MONITOR) names)
                 ++ [OkPlugins (length names)].
Proof.
  split.
  - unfold plugin_health, exists_, load_json.
    destruct (fs e p) as [| |x|v] eqn:Hfs; cbn [negb and_then];
      try absurd_run.
    destruct v as [| | | | | |d]; cbn [and_then dict_get]; try absurd_run.
    destruct (get (str "plugin") d) as [v|] eqn:G.
    + destruct v as [| | | | |ps|]; try absurd_run.
      destruct (dup_loop ps [] []) as [dup|x] eqn:D; cbn [and_then];
        [|absurd_run].
      destruct dup as [|q dup]; [|absurd_run].
      destruct (known_bad ps) as [bad|x] eqn:K; cbn [and_then];
        [|absurd_run].
      destruct (known_bad_returns _ _ K) as [names ->].
      rewrite known_bad_of_strings in K. inversion K; subst bad; clear K.
      change (@nil json) with (List.map JStr []) in D at 1.
      rewrite dup_loop_strings in D. inversion D as [D'].
      apply map_eq_nil in D'.
      intros H; inversion H; subst out; clear H.
      exists d, names. split; [reflexivity|]. split; [left; exact G|].
      split; [apply repeats_nil; exact D'|].
      rewrite length_map. reflexivity.
    + intros H. cbn in H. inversion H; subst out.
      exists d, []. split; [reflexivity|]. split; [right; split; [exact G|reflexivity]|].
      split; [constructor|reflexivity].
  - intros (d & names & Hfs & [G|[G ->]] & HN & ->).
    + rewrite (plugin_health_strings e p d names Hfs G).
      apply repeats_nil in HN. rewrite HN. reflexivity.
    + unfold plugin_health, exists_, load_json. rewrite Hfs.
      cbn [negb and_then dict_get]. rewrite G. reflexivity.
Qed.

Lemma X14_witness :
  plugin_health
    (Samples.with_plugins
       (JArr [JStr (str "opencode-token-monitor@1.2"); JStr (str "pty@0.3")]))
    Samples.opencode_json
  = Return ([WarnTokenMonitor; Item (str "opencode-token-monitor@1.2");
             OkPlugins 2], 0%Z).
Proof.
  apply (proj2 (X14_plugins_healthy_iff _ Samples.opencode_json _)).
  exists [(str "plugin",
           JArr [JStr (str "opencode-token-monitor@1.2");
                 JStr (str "pty@0.3")])],
         [str "opencode-token-monitor@1.2"; str "pty@0.3"].
  split; [reflexivity|]. split; [left; reflexivity|].
  split; [|reflexivity].
  repeat constructor; simpl; intuition discriminate.
Defined.

(** X15: a plugin list of strings with a repeated entry makes
    [plugin_health] return 1 and report the duplicates: the entries that
    equal an earlier entry of the list, each as often as it is repeated,
    in the order of the list; the first occurrences are not reported. *)
Theorem X15_duplicates_are_the_later_occurrences (e : env) (p : path)
        (d : list (text * json)) (names : list text) :
  fs e p = Holds (JObj d) ->
  get (str "plugin") d = Some (JArr (List.map JStr names)) ->
  ~ NoDup names ->
  plugin_health e p
  = Return ([Duplicates (List.map JStr (repeats names []))], 1%Z)
  /\ repeats names [] <> []
  /\ forall n, In n (repeats names [])
               <-> exists l1 l2, names = l1 ++ n :: l2 /\ In n l1.
Proof.
  intros Hfs G HN.
  assert (Hne : repeats names [] <> [])
    by (intros E; apply HN, repeats_nil, E).
  split; [|split; [exact Hne|]].
  - rewrite (plugin_health_strings e p d names Hfs G).
    destruct (repeats names []); [congruence|reflexivity].
  - intros n. rewrite repeats_In. split.
    + intros (l1 & l2 & E & [H|[]]). eauto.
    + intros (l1 & l2 & E & H). eauto.
Qed.

Lemma X15_witness :
  plugin_health
    (Samples.with_plugins
       (JArr [JStr (str "a@1"); JStr (str "b@1"); JStr (str "a@1");
              JStr (str "a@1")]))
    Samples.opencode_json
  = Return ([Duplicates [JStr (str "a@1"); JStr (str "a@1")]], 1%Z).
Proof.
  apply (X15_duplicates_are_the_later_occurrences
           (Samples.with_plugins
              (JArr [JStr (str "a@1"); JStr (str "b@1"); JStr (str "a@1");
                     JStr (str "a@1")]))
           Samples.opencode_json
           [(str "plugin",
             JArr [JStr (str "a@1"); JStr (str "b@1"); JStr (str "a@1");
                   JStr (str "a@1")])]
           [str "a@1"; str "b@1"; str "a@1"; str "a@1"]
           eq_refl eq_refl).
  intros H. inversion H as [|? ? Hn _]; subst. apply Hn.
  right; left; reflexivity.
Defined.

(** X16: where [plugin_health] gives no verdict.  A configuration that
    is not a JSON object, or a plugin list with an entry that is a list
    or an object, or a plugin list free of duplicates with an entry that
    is not a string, ends the check by an exception (attribute error,
    type error, attribute error) instead of a FAIL line. *)
Theorem X16_plugin_health_raises (e : env) (p : path) (v : json) :
  fs e p = Holds v ->
  ((forall d, v <> JObj d) -> plugin_health e p = Raises ExAttributeError)
  /\ (forall d ps,
        v = JObj d -> get (str "plugin") d = Some (JArr ps) ->
        (existsb (fun q => negb (hashable q)) ps = true ->
         plugin_health e p = Raises ExTypeError)
        /\ (dup_loop ps [] [] = Return [] ->
            existsb (fun q => negb (is_str q)) ps = true ->
            plugin_health e p = Raises ExAttributeError)).
Proof.
  intros Hfs. unfold plugin_health, exists_, load_json. rewrite Hfs.
  cbn [negb and_then]. split.
  - intros Hn. destruct v as [| | | | | |d]; try reflexivity.
    exfalso. apply (Hn d). reflexivity.
  - intros d ps -> G. cbn [dict_get and_then]. rewrite G. split.
    + intros Hu. rewrite (dup_loop_unhashable ps [] [] Hu). reflexivity.
    + intros D Hs. rewrite D. cbn [and_then].
      rewrite (known_bad_raises ps Hs). reflexivity.
Qed.

Lemma X16_witness :
  plugin_health (Samples.with_plugins (JArr [JStr (str "a@1"); JInt 7]))
                Samples.opencode_json
  = Raises ExAttributeError
  /\ plugin_health (Samples.with_plugins (JArr [JStr (str "a@1"); JArr []]))
                   Samples.opencode_json
     = Raises ExTypeError.
Proof.
  split.
  - apply (proj2 (X16_plugin_health_raises
                    (Samples.with_plugins (JArr [JStr (str "a@1"); JInt 7]))
                    Samples.opencode_json _ eq_refl)
                 _ [JStr (str "a@1"); JInt 7] eq_refl eq_refl);
      reflexivity.
  - apply (proj2 (X16_plugin_health_raises
                    (Samples.with_plugins (JArr [JStr (str "a@1"); JArr []]))
                    Samples.opencode_json _ eq_refl)
                 _ [JStr (str "a@1"); JArr []] eq_refl eq_refl).
    reflexivity.
Defined.

(** Numbers are compared by value when duplicates are looked for: [1],
    [1.0] and [true] are one entry, and the run ends with the duplicate
    report before any entry is asked whether it is a string. *)
Example numbers_repeat_by_value :
  plugin_health
    (Samples.with_plugins (JArr [JInt 1; JFloat (FFin 1 0); JBool true]))
    Samples.opencode_json
  = Return ([Duplicates [JFloat (FFin 1 0); JBool true]], 1%Z).
Proof. reflexivity. Qed.

(** ** [proofcheck] *)

Lemma check_step_rc (run_cmd : list text -> spawned) (c : list text * text)
      (rc : Z) (out : list proof_line) :
  fst (check_step run_cmd (rc, out) c)
  = if tests_fail run_cmd c then 1%Z else rc.
Proof.
  destruct c as [cmd name]. unfold check_step, tests_fail. simpl.
  destruct (run_cmd cmd) as [returncode stdout|message]; simpl.
  - destruct (text_eqb name (str "tests")); reflexivity.
  - destruct (text_eqb name (str "tests")); reflexivity.
Qed.

Lemma run_checks_rc (run_cmd : list text -> spawned)
      (cs : list (list text * text)) : forall rc out,
  fst (fold_left (check_step run_cmd) cs (rc, out))
  = if existsb (tests_fail run_cmd) cs then 1%Z
    else rc.
Proof.
  induction cs as [|c cs IH]; intros rc out; [reflexivity|].
  cbn [fold_left existsb].
  pose proof (check_step_rc run_cmd c rc out) as E.
  destruct (check_step run_cmd (rc, out) c) as [rc1 out1]. simpl in E.
  rewrite IH, E.
  destruct (tests_fail run_cmd c); simpl; [|reflexivity].
  destruct (existsb (tests_fail run_cmd) cs); reflexivity.
Qed.

(** X17: the return code of [proofcheck] is that of the tests alone: it
    is 1 when [python -m pytest -q] exits with a non-zero code or cannot
    be run, and 0 otherwise; whether [git status] succeeds, fails or
    cannot be run changes the printed lines only.  No exception of a
    command escapes the loop.  (For any list of checks: 1 exactly when a
    check named [tests] fails.) *)
Theorem X17_proofcheck_follows_the_tests (run_cmd : list text -> spawned) :
  (forall cs,
     fst (run_checks run_cmd cs)
     = if existsb (tests_fail run_cmd) cs then 1%Z else 0%Z)
  /\ fst (proofcheck run_cmd)
     = match run_cmd [str "python"; str "-m"; str "pytest"; str "-q"] with
       | Completed returncode _ => if (returncode =? 0)%Z then 0%Z else 1%Z
       | Threw _ => 1%Z
       end
  /\ 2 <= length (snd (proofcheck run_cmd)) <= 3.
Proof.
  split; [intros cs; apply run_checks_rc|]. split.
  - unfold proofcheck, run_checks. rewrite run_checks_rc.
    unfold checks, tests_fail. simpl.
    destruct (run_cmd [str "python"; str "-m"; str "pytest"; str "-q"])
      as [returncode stdout|message]; [|reflexivity].
    destruct (returncode =? 0)%Z; reflexivity.
  - unfold proofcheck, run_checks, checks. cbn [fold_left check_step].
    destruct (run_cmd [str "git"; str "status"; str "--short"])
      as [r1 o1|m1]; try destruct (r1 =? 0)%Z;
      unfold check_step;
      destruct (run_cmd [str "python"; str "-m"; str "pytest"; str "-q"])
        as [r2 o2|m2]; simpl; lia.
Qed.

Example proofcheck_without_git :
  proofcheck Samples.no_git_tests_pass
  = (0%Z, [ErrorLine (str "git_status")
                     (str "No such file or directory: git");
           ExitLine (str "tests") 0%Z]).
Proof. reflexivity. Qed.

Example changed_files_counts_the_lines_with_text :
  length (changed_lines
            (Some (str " M a.py" ++ [13; 10] ++ str "?? b.py" ++ [10]
                   ++ [32; 32] ++ [10])%N)) = 2.
Proof. reflexivity. Qed.
